(** * awless template AST (template/ast/ast.go): a shallow embedding

    The Go package [ast] has two halves: the AST model with its builder,
    cloning, rendering and hole/reference resolution (hand written), and the
    PEG parser generated from the grammar (rule functions closing over a
    shared cursor).  Both are embedded here.

    Conventions of the embedding:
    - Go pointers are locations in an explicit heap; [nil] is [None].  Maps
      are reference objects of the heap as well, so aliasing between a node
      and its clone is visible.
    - A Go panic is the result [Panic msg].
    - Go strings are [string]; [interface{}] values are [value].
    - The order in which [range] walks a map is not fixed by Go.  It is a
      component of [GoEnv], and the theorems hold for every choice of it. *)

From stdpp Require Import gmap strings list sorting pretty.
From Stdlib Require Import ZArith Ascii Lia.

Open Scope string_scope.
Open Scope list_scope.

Set Warnings "-clear-no-such-hyp".

(** ** Values and the heap *)

(** The dynamic values stored behind [interface{}]: parameters hold strings
    and ints, a missing value is [nil]. *)
Inductive value :=
| VNil
| VString (s : string)
| VInt (n : Z).

Global Instance value_eq_dec : EqDecision value.
Proof. solve_decision. Defined.

Definition loc := positive.
Abbreviation ptr := (option loc).

Record IdentifierNode := mkIdentifierNode {
  Ident : string;
  Val : value
}.

(** [VarI] is the field [I] of the source. *)
Record VarNode := mkVarNode {
  VarI : ptr;
  Hole : ptr
}.

Record DeclarationNode := mkDeclarationNode {
  Left : ptr;
  Right : ptr
}.

Record ExpressionNode := mkExpressionNode {
  Action : string;
  Entity : string;
  Refs : ptr;
  Params : ptr;
  Aliases : ptr;
  Holes : ptr
}.

(** [Node] is the interface value: a pointer whose dynamic type is the kind
    of the object it points to. *)
Record Statement := mkStatement {
  Node : ptr;
  Result : value;
  Line : string;
  Err : option string
}.

Inductive object :=
| OStrMap (m : gmap string string)
| OIfaceMap (m : gmap string value)
| OIdentifier (n : IdentifierNode)
| OVar (n : VarNode)
| ODeclaration (n : DeclarationNode)
| OExpression (n : ExpressionNode)
| OStatement (s : Statement).

Abbreviation heap := (gmap loc object).

Record AST := mkAST {
  Statements : list ptr;
  currentStatement : ptr;
  currentKey : string
}.

(** ** The Go runtime and library the package relies on *)

(** [map_range] is the order in which a [range] loop yields the entries of a
    map; the three library functions are [strconv.Atoi], [net.ParseIP]
    followed by [IP.String], and [net.ParseCIDR] followed by
    [IPNet.String].  [None] is the library's error (or nil) result. *)
Class GoEnv := {
  map_range : ∀ V, gmap string V → list (string * V);
  strconv_Atoi : string → option Z;
  net_ParseIP : string → option string;
  net_ParseCIDR : string → option string
}.

(** ** A state and panic monad over the heap *)

Inductive result (A : Type) :=
| Ok (a : A) (h : heap)
| Panic (msg : string).
Arguments Ok {A} a h.
Arguments Panic {A} msg.

Definition M (A : Type) := heap → result A.

Global Instance M_ret : MRet M := λ A a h, Ok a h.
Global Instance M_bind : MBind M := λ A B f c h,
  match c h with
  | Ok a h' => f a h'
  | Panic msg => Panic msg
  end.

Definition panic {A} (msg : string) : M A := λ _, Panic msg.

Definition nil_dereference : string :=
  "runtime error: invalid memory address or nil pointer dereference".
Definition nil_map_assignment : string := "assignment to entry in nil map".

Definition alloc (o : object) : M loc := λ h,
  let l := fresh (dom h) in Ok l (<[l := o]> h).

Definition load (p : ptr) : M object := λ h,
  match p with
  | None => Panic nil_dereference
  | Some l =>
      match h !! l with
      | Some o => Ok o h
      | None => Panic nil_dereference
      end
  end.

Definition store (p : ptr) (o : object) : M unit := λ h,
  match p with
  | None => Panic nil_dereference
  | Some l => Ok () (<[l := o]> h)
  end.

Definition load_Identifier (p : ptr) : M IdentifierNode :=
  o ← load p; match o with OIdentifier n => mret n | _ => panic nil_dereference end.
Definition load_Var (p : ptr) : M VarNode :=
  o ← load p; match o with OVar n => mret n | _ => panic nil_dereference end.
Definition load_Declaration (p : ptr) : M DeclarationNode :=
  o ← load p; match o with ODeclaration n => mret n | _ => panic nil_dereference end.
Definition load_Expression (p : ptr) : M ExpressionNode :=
  o ← load p; match o with OExpression n => mret n | _ => panic nil_dereference end.
Definition load_Statement (p : ptr) : M Statement :=
  o ← load p; match o with OStatement s => mret s | _ => panic nil_dereference end.

(** Reading a map: a nil map reads as the empty map. *)
Definition read_StrMap (p : ptr) : M (gmap string string) :=
  match p with
  | None => mret ∅
  | Some _ => o ← load p; match o with OStrMap m => mret m | _ => panic nil_dereference end
  end.
Definition read_IfaceMap (p : ptr) : M (gmap string value) :=
  match p with
  | None => mret ∅
  | Some _ => o ← load p; match o with OIfaceMap m => mret m | _ => panic nil_dereference end
  end.

(** [m[k] = v]: panics on a nil map. *)
Definition assign_StrMap (p : ptr) (k v : string) : M unit :=
  match p with
  | None => panic nil_map_assignment
  | Some _ => m ← read_StrMap p; store p (OStrMap (<[k := v]> m))
  end.
Definition assign_IfaceMap (p : ptr) (k : string) (v : value) : M unit :=
  match p with
  | None => panic nil_map_assignment
  | Some _ => m ← read_IfaceMap p; store p (OIfaceMap (<[k := v]> m))
  end.

(** [delete(m, k)]: a no-op on a nil map. *)
Definition delete_StrMap (p : ptr) (k : string) : M unit :=
  match p with
  | None => mret ()
  | Some _ => m ← read_StrMap p; store p (OStrMap (delete k m))
  end.

(** [for _, x := range l { body }] over a list. *)
Fixpoint forM {A} (l : list A) (body : A → M unit) : M unit :=
  match l with
  | [] => mret ()
  | x :: l' => body x ;; forM l' body
  end.

(** The same loop threading a local accumulator. *)
Fixpoint foldM {A B} (body : B → A → M B) (acc : B) (l : list A) : M B :=
  match l with
  | [] => mret acc
  | x :: l' => acc' ← body acc x; foldM body acc' l'
  end.

(** ** Formatting and sorting *)

(** [%v] of an [interface{}] value. *)
Definition format_v (v : value) : string :=
  match v with
  | VNil => "<nil>"
  | VString s => s
  | VInt n => pretty n
  end.

(** [sort.Strings]: ascending byte-wise order. *)
Definition string_le (a b : string) : Prop := String.leb a b = true.
Global Instance string_le_dec : RelDecision string_le.
Proof. intros a b. unfold string_le. apply _. Defined.

Definition sort_Strings (l : list string) : list string :=
  merge_sort string_le l.

(** [strings.Join]. *)
Definition strings_Join (l : list string) (sep : string) : string :=
  String.concat sep l.

Section Model.
Context `{GoEnv}.

(** The entries a [range] over the map behind [p] yields. *)
Definition range_StrMap (p : ptr) : M (list (string * string)) :=
  m ← read_StrMap p; mret (map_range _ m).
Definition range_IfaceMap (p : ptr) : M (list (string * value)) :=
  m ← read_IfaceMap p; mret (map_range _ m).

(** ** Cloning *)

Definition IdentifierNode_clone (n : ptr) : M ptr :=
  i ← load_Identifier n;
  l ← alloc (OIdentifier {| Ident := Ident i; Val := Val i |});
  mret (Some l).

Definition VarNode_clone (n : ptr) : M ptr :=
  v ← load_Var n;
  i ← IdentifierNode_clone (VarI v);
  hole ← alloc (OStrMap ∅);
  l ← alloc (OVar {| VarI := i; Hole := Some hole |});
  mret (Some l).

Definition ExpressionNode_clone (n : ptr) : M ptr :=
  e ← load_Expression n;
  refs ← alloc (OStrMap ∅);
  params ← alloc (OIfaceMap ∅);
  aliases ← alloc (OStrMap ∅);
  holes ← alloc (OStrMap ∅);
  expr ← alloc (OExpression
    {| Action := Action e; Entity := Entity e;
       Refs := Some refs; Params := Some params;
       Aliases := Some aliases; Holes := Some holes |});
  kvs ← range_StrMap (Refs e);
  forM kvs (λ '(k, v), assign_StrMap (Some refs) k v);;
  kvs ← range_IfaceMap (Params e);
  forM kvs (λ '(k, v), assign_IfaceMap (Some params) k v);;
  kvs ← range_StrMap (Aliases e);
  forM kvs (λ '(k, v), assign_StrMap (Some aliases) k v);;
  kvs ← range_StrMap (Holes e);
  forM kvs (λ '(k, v), assign_StrMap (Some holes) k v);;
  mret (Some expr).

Definition DeclarationNode_clone (n : ptr) : M ptr :=
  d ← load_Declaration n;
  left ← IdentifierNode_clone (Left d);
  right ← ExpressionNode_clone (Right d);
  l ← alloc (ODeclaration {| Left := left; Right := right |});
  mret (Some l).

(** Dynamic dispatch of [Node.clone()]. *)
Definition Node_clone (n : ptr) : M ptr :=
  o ← load n;
  match o with
  | OIdentifier _ => IdentifierNode_clone n
  | OVar _ => VarNode_clone n
  | ODeclaration _ => DeclarationNode_clone n
  | OExpression _ => ExpressionNode_clone n
  | _ => panic nil_dereference
  end.

Definition Statement_clone (s : ptr) : M ptr :=
  st ← load_Statement s;
  node ← Node_clone (Node st);
  newStat ← alloc (OStatement
    {| Node := node; Result := Result st; Line := ""; Err := Err st |});
  mret (Some newStat).

Definition AST_Clone (a : AST) : M AST :=
  stats ← foldM (λ acc stat, c ← Statement_clone stat; mret (acc ++ [c]))
                [] (Statements a);
  mret {| Statements := stats; currentStatement := None; currentKey := "" |}.

(** ** Rendering of nodes *)

Definition sortAndMap (m : gmap string value) (fn : string → value → string)
    : list string :=
  let keys := foldl (λ keys kv, keys ++ [kv.1]) [] (map_range _ m) in
  let keys := sort_Strings keys in
  foldl (λ out k, out ++ [fn k (default VNil (m !! k))]) [] keys.

Definition sortAndMapString (m : gmap string string)
    (fn : string → string → string) : list string :=
  let newM := foldl (λ newM kv, <[kv.1 := VString kv.2]> newM) ∅ (map_range _ m) in
  let newFn := λ k v, match v with VString s => fn k s | _ => "" end in
  sortAndMap newM newFn.

Definition IdentifierNode_String (n : ptr) : M string :=
  i ← load_Identifier n; mret (Ident i).

Definition VarNode_String (n : ptr) : M string :=
  v ← load_Var n;
  i ← load_Identifier (VarI v);
  mret ("var " +:+ Ident i +:+ " = " +:+ format_v (Val i)).

Definition ExpressionNode_String (n : ptr) : M string :=
  e ← load_Expression n;
  m ← read_StrMap (Refs e);
  let refs := sortAndMapString m (λ k v, k +:+ "=$" +:+ v) in
  let all := refs in
  m ← read_IfaceMap (Params e);
  let params := sortAndMap m (λ k v, k +:+ "=" +:+ format_v v) in
  let all := (all ++ params) in
  m ← read_StrMap (Aliases e);
  let aliases := sortAndMapString m (λ k v, k +:+ "=@" +:+ v) in
  let all := (all ++ aliases) in
  m ← read_StrMap (Holes e);
  let holes := sortAndMapString m (λ k v, k +:+ "={" +:+ v +:+ "}") in
  let all := (all ++ holes) in
  let all := sort_Strings all in
  mret (Action e +:+ " " +:+ Entity e +:+ " " +:+ strings_Join all " ").

Definition DeclarationNode_String (n : ptr) : M string :=
  d ← load_Declaration n;
  left ← IdentifierNode_String (Left d);
  right ← ExpressionNode_String (Right d);
  mret (left +:+ " = " +:+ right).

(** Dynamic dispatch of [Node.String()]. *)
Definition Node_String (n : ptr) : M string :=
  o ← load n;
  match o with
  | OIdentifier _ => IdentifierNode_String n
  | OVar _ => VarNode_String n
  | ODeclaration _ => DeclarationNode_String n
  | OExpression _ => ExpressionNode_String n
  | _ => panic nil_dereference
  end.

Definition AST_String (a : AST) : M string :=
  all ← foldM (λ all stat,
                 st ← load_Statement stat;
                 str ← Node_String (Node st);
                 mret (all ++ [str]))
              [] (Statements a);
  mret (strings_Join all (String "010" "")).

(** ** Hole and reference resolution *)

Definition VarNode_ProcessHoles (n : ptr) (fills : gmap string value)
    : M (gmap string value) :=
  v ← load_Var n;
  kvs ← range_StrMap (Hole v);
  foldM (λ processed '(key, hole),
           match fills !! hole with
           | Some val =>
               v ← load_Var n;
               i ← load_Identifier (VarI v);
               store (VarI v) (OIdentifier {| Ident := Ident i; Val := val |});;
               let processed := <[hole := val]> processed in
               v ← load_Var n;
               delete_StrMap (Hole v) key;;
               mret processed
           | None => mret processed
           end)
        ∅ kvs.

(** [if n.Params == nil { n.Params = make(map[string]interface{}) }] *)
Definition ensure_Params (n : ptr) : M unit :=
  e ← load_Expression n;
  match Params e with
  | None =>
      params ← alloc (OIfaceMap ∅);
      store n (OExpression
        {| Action := Action e; Entity := Entity e; Refs := Refs e;
           Params := Some params; Aliases := Aliases e; Holes := Holes e |})
  | Some _ => mret ()
  end.

Definition ExpressionNode_ProcessHoles (n : ptr) (fills : gmap string value)
    : M (gmap string value) :=
  e ← load_Expression n;
  kvs ← range_StrMap (Holes e);
  foldM (λ processed '(key, hole),
           match fills !! hole with
           | Some val =>
               ensure_Params n;;
               e ← load_Expression n;
               assign_IfaceMap (Params e) key val;;
               let processed := <[key := val]> processed in
               e ← load_Expression n;
               delete_StrMap (Holes e) key;;
               mret processed
           | None => mret processed
           end)
        ∅ kvs.

Definition ExpressionNode_ProcessRefs (n : ptr) (fills : gmap string value)
    : M unit :=
  e ← load_Expression n;
  kvs ← range_StrMap (Refs e);
  forM kvs (λ '(key, ref),
           match fills !! ref with
           | Some val =>
               ensure_Params n;;
               e ← load_Expression n;
               assign_IfaceMap (Params e) key val;;
               e ← load_Expression n;
               delete_StrMap (Refs e) key
           | None => mret ()
           end).

(** ** Typed literals *)

Definition parseInt (text : string) : M Z :=
  match strconv_Atoi text with
  | Some num => mret num
  | None => panic ("cannot convert '" +:+ text +:+ "' to int")
  end.

Definition parseIP (text : string) : M string :=
  match net_ParseIP text with
  | Some ip => mret ip
  | None => panic ("cannot convert '" +:+ text +:+ "' to net ip")
  end.

Definition parseCIDR (text : string) : M string :=
  match net_ParseCIDR text with
  | Some cidr => mret cidr
  | None => panic ("cannot convert '" +:+ text +:+ "' to net cidr")
  end.

(** ** The builder *)

Definition AST_addStatement (n : ptr) (s : AST) : M AST :=
  stat ← alloc (OStatement {| Node := n; Result := VNil; Line := ""; Err := None |});
  mret {| Statements := (Statements s ++ [Some stat]);
          currentStatement := Some stat;
          currentKey := currentKey s |}.

Definition AST_currentExpression (s : AST) : M ptr :=
  match currentStatement s with
  | None => mret None
  | Some _ =>
      st ← load_Statement (currentStatement s);
      match Node st with
      | None => panic "last expression: unexpected node type"
      | Some _ =>
          o ← load (Node st);
          match o with
          | OExpression _ => mret (Node st)
          | ODeclaration d => mret (Right d)
          | _ => panic "last expression: unexpected node type"
          end
      end
  end.

Definition AST_currentVarDecl (s : AST) : M ptr :=
  match currentStatement s with
  | None => mret None
  | Some _ =>
      st ← load_Statement (currentStatement s);
      match Node st with
      | None => panic "expected var node type"
      | Some _ =>
          o ← load (Node st);
          match o with
          | OVar _ => mret (Node st)
          | _ => panic "expected var node type"
          end
      end
  end.

Definition emptyExpression : ExpressionNode :=
  {| Action := ""; Entity := ""; Refs := None; Params := None;
     Aliases := None; Holes := None |}.

Definition AST_AddAction (text : string) (s : AST) : M AST :=
  expr ← AST_currentExpression s;
  match expr with
  | None =>
      n ← alloc (OExpression
        {| Action := text; Entity := ""; Refs := None; Params := None;
           Aliases := None; Holes := None |});
      AST_addStatement (Some n) s
  | Some _ =>
      e ← load_Expression expr;
      store expr (OExpression
        {| Action := text; Entity := Entity e; Refs := Refs e;
           Params := Params e; Aliases := Aliases e; Holes := Holes e |});;
      mret s
  end.

Definition AST_AddEntity (text : string) (s : AST) : M AST :=
  expr ← AST_currentExpression s;
  e ← load_Expression expr;
  store expr (OExpression
    {| Action := Action e; Entity := text; Refs := Refs e;
       Params := Params e; Aliases := Aliases e; Holes := Holes e |});;
  mret s.

Definition AST_AddDeclarationIdentifier (text : string) (s : AST) : M AST :=
  left ← alloc (OIdentifier {| Ident := text; Val := VNil |});
  right ← alloc (OExpression emptyExpression);
  decl ← alloc (ODeclaration {| Left := Some left; Right := Some right |});
  AST_addStatement (Some decl) s.

Definition AST_LineDone (s : AST) : M AST :=
  mret {| Statements := Statements s; currentStatement := None; currentKey := "" |}.

Definition AST_AddVarIdentifier (text : string) (s : AST) : M AST :=
  i ← alloc (OIdentifier {| Ident := text; Val := VNil |});
  hole ← alloc (OStrMap ∅);
  vnode ← alloc (OVar {| VarI := Some i; Hole := Some hole |});
  AST_addStatement (Some vnode) s.

(** [vnode.I.Val = val] *)
Definition set_Var_Val (vnode : ptr) (val : value) : M unit :=
  v ← load_Var vnode;
  i ← load_Identifier (VarI v);
  store (VarI v) (OIdentifier {| Ident := Ident i; Val := val |}).

Definition AST_AddVarValue (text : string) (s : AST) : M AST :=
  vnode ← AST_currentVarDecl s;
  set_Var_Val vnode (VString text);;
  mret s.

Definition AST_AddVarIntValue (text : string) (s : AST) : M AST :=
  vnode ← AST_currentVarDecl s;
  num ← parseInt text;
  set_Var_Val vnode (VInt num);;
  mret s.

Definition AST_AddVarCidrValue (text : string) (s : AST) : M AST :=
  vnode ← AST_currentVarDecl s;
  cidr ← parseCIDR text;
  set_Var_Val vnode (VString cidr);;
  mret s.

Definition AST_AddVarIpValue (text : string) (s : AST) : M AST :=
  vnode ← AST_currentVarDecl s;
  ip ← parseIP text;
  set_Var_Val vnode (VString ip);;
  mret s.

Definition AST_AddVarHoleValue (text : string) (s : AST) : M AST :=
  vnode ← AST_currentVarDecl s;
  v ← load_Var vnode;
  i ← load_Identifier (VarI v);
  assign_StrMap (Hole v) (Ident i) text;;
  mret s.

Definition AST_AddParamKey (text : string) (s : AST) : M AST :=
  expr ← AST_currentExpression s;
  e ← load_Expression expr;
  match Params e with
  | None =>
      refs ← alloc (OStrMap ∅);
      params ← alloc (OIfaceMap ∅);
      aliases ← alloc (OStrMap ∅);
      holes ← alloc (OStrMap ∅);
      store expr (OExpression
        {| Action := Action e; Entity := Entity e;
           Refs := Some refs; Params := Some params;
           Aliases := Some aliases; Holes := Some holes |})
  | Some _ => mret ()
  end;;
  mret {| Statements := Statements s;
          currentStatement := currentStatement s;
          currentKey := text |}.

Definition AST_AddParamValue (text : string) (s : AST) : M AST :=
  expr ← AST_currentExpression s;
  e ← load_Expression expr;
  assign_IfaceMap (Params e) (currentKey s) (VString text);;
  mret s.

Definition AST_AddParamIntValue (text : string) (s : AST) : M AST :=
  expr ← AST_currentExpression s;
  e ← load_Expression expr;
  num ← parseInt text;
  assign_IfaceMap (Params e) (currentKey s) (VInt num);;
  mret s.

Definition AST_AddParamCidrValue (text : string) (s : AST) : M AST :=
  expr ← AST_currentExpression s;
  e ← load_Expression expr;
  cidr ← parseCIDR text;
  assign_IfaceMap (Params e) (currentKey s) (VString cidr);;
  mret s.

Definition AST_AddParamIpValue (text : string) (s : AST) : M AST :=
  expr ← AST_currentExpression s;
  e ← load_Expression expr;
  ip ← parseIP text;
  assign_IfaceMap (Params e) (currentKey s) (VString ip);;
  mret s.

Definition AST_AddParamRefValue (text : string) (s : AST) : M AST :=
  expr ← AST_currentExpression s;
  e ← load_Expression expr;
  assign_StrMap (Refs e) (currentKey s) text;;
  mret s.

Definition AST_AddParamAliasValue (text : string) (s : AST) : M AST :=
  expr ← AST_currentExpression s;
  e ← load_Expression expr;
  assign_StrMap (Aliases e) (currentKey s) text;;
  mret s.

Definition AST_AddParamHoleValue (text : string) (s : AST) : M AST :=
  expr ← AST_currentExpression s;
  e ← load_Expression expr;
  assign_StrMap (Holes e) (currentKey s) text;;
  mret s.

(** ** Execution statements *)

(** The type assertion of [sts.Node] to a pointer to a VarNode. *)
Definition is_VarNode (n : ptr) : M bool :=
  match n with
  | None => mret false
  | Some _ => o ← load n; mret (match o with OVar _ => true | _ => false end)
  end.

Definition AST_ExecutionStatements (a : AST) : M (list ptr) :=
  foldM (λ out sts,
           st ← load_Statement sts;
           ok ← is_VarNode (Node st);
           if ok : bool then mret out else mret (out ++ [sts]))
        [] (Statements a).

End Model.

(** ** The generated parser: tokens and cursor *)

(** Runes are code points.  The buffer is the input followed by
    [endSymbol], which no input rune equals. *)
Definition rune := Z.
Definition endSymbol : rune := 1114112%Z.

Definition rune_of (c : ascii) : rune := Z.of_N (N_of_ascii c).
Definition ascii_of_rune (r : rune) : ascii := ascii_of_N (Z.to_N r).

(** [[]rune(s)] and [string(runes)], on inputs whose runes are single
    bytes. *)
Definition runes_of_string (s : string) : list rune :=
  rune_of <$> String.list_ascii_of_string s.
Definition string_of_runes (l : list rune) : string :=
  String.string_of_list_ascii (ascii_of_rune <$> l).

Inductive pegRule :=
| ruleUnknown | ruleScript | ruleStatement | ruleAction | ruleEntity
| ruleVarDeclaration | ruleDeclaration | ruleExpr | ruleParams | ruleParam
| ruleIdentifier | ruleValue | ruleVarValue | ruleStringValue
| ruleCidrValue | ruleIpValue | ruleIntValue | ruleIntRangeValue
| ruleRefValue | ruleAliasValue | ruleHoleValue | ruleComment
| ruleSpacing | ruleWhiteSpacing | ruleMustWhiteSpacing | ruleEqual
| ruleVar | ruleSpace | ruleWhitespace | ruleEndOfLine | ruleEndOfFile
| rulePegText
| ruleAction0 | ruleAction1 | ruleAction2 | ruleAction3 | ruleAction4
| ruleAction5 | ruleAction6 | ruleAction7 | ruleAction8 | ruleAction9
| ruleAction10 | ruleAction11 | ruleAction12 | ruleAction13 | ruleAction14
| ruleAction15 | ruleAction16 | ruleAction17 | ruleAction18 | ruleAction19
| ruleAction20 | ruleAction21.

Global Instance pegRule_eq_dec : EqDecision pegRule.
Proof. solve_decision. Defined.

(** [token32]; the fields are [pegRule], [begin] and [end] in the source. *)
Record token32 := mkToken {
  tok_rule : pegRule;
  tok_begin : nat;
  tok_end : nat
}.

Definition zeroToken : token32 :=
  {| tok_rule := ruleUnknown; tok_begin := 0; tok_end := 0 |}.

(** The variables the rule closures share: [position], [tokenIndex], the
    token array [tree] and the furthest token [max] (here [maxToken]). *)
Record pstate := mkPstate {
  position : nat;
  tokenIndex : nat;
  tree : list token32;
  maxToken : token32
}.

(** [tokens32.Add]: the array doubles when the index is past its end. *)
Definition tokens32_Add (t : list token32) (rule : pegRule)
    (begin end_ index : nat) : list token32 :=
  let t := if decide (length t ≤ index)%nat
           then (t ++ replicate (length t) zeroToken) else t in
  <[index := {| tok_rule := rule; tok_begin := begin; tok_end := end_ |}]> t.

(** [tokens32.Trim] *)
Definition tokens32_Trim (t : list token32) (length : nat) : list token32 :=
  take length t.

(** What a rule or a piece of a rule does: it matches, fails to match
    (a [goto] to the enclosing failure label), or, in this embedding only,
    exhausts the fuel of a loop. *)
Inductive outcome := Matched | Failed | OutOfFuel.

Definition F := pstate → outcome * pstate.

(** [position, tokenIndex = positionN, tokenIndexN] *)
Definition restore (positionN tokenIndexN : nat) (s : pstate) : pstate :=
  {| position := positionN; tokenIndex := tokenIndexN;
     tree := tree s; maxToken := maxToken s |}.

Definition advance (s : pstate) : pstate :=
  {| position := S (position s); tokenIndex := tokenIndex s;
     tree := tree s; maxToken := maxToken s |}.

Definition succeed : F := λ s, (Matched, s).

(** Sequencing: the second piece runs when the first one matched. *)
Definition seq (a b : F) : F := λ s,
  match a s with
  | (Matched, s') => b s'
  | r => r
  end.
Infix ">>" := seq (at level 60, right associativity).

(** [positionN := position] *)
Definition mark (body : nat → F) : F := λ s, body (position s) s.

(** Ordered choice: [a], and after its failure the saved cursor is put back
    and [b] runs; a failure of [b] leaves to the enclosing label. *)
Definition alt (a b : F) : F := λ s,
  let positionN := position s in
  let tokenIndexN := tokenIndex s in
  match a s with
  | (Failed, s') => b (restore positionN tokenIndexN s')
  | r => r
  end.
Infix "</>" := alt (at level 65, right associativity).

(** [(a)?] *)
Definition opt (a : F) : F := λ s,
  let positionN := position s in
  let tokenIndexN := tokenIndex s in
  match a s with
  | (Failed, s') => (Matched, restore positionN tokenIndexN s')
  | r => r
  end.

(** [!a]: a match of [a] fails, a failure puts the saved cursor back. *)
Definition neg (a : F) : F := λ s,
  let positionN := position s in
  let tokenIndexN := tokenIndex s in
  match a s with
  | (Matched, s') => (Failed, s')
  | (Failed, s') => (Matched, restore positionN tokenIndexN s')
  | r => r
  end.

(** [a*]: the loop [lN: { save; if !a goto lM; goto lN; lM: restore }]. *)
Fixpoint star (fuel : nat) (a : F) (s : pstate) : outcome * pstate :=
  match fuel with
  | 0 => (OutOfFuel, s)
  | S fuel' =>
      let positionN := position s in
      let tokenIndexN := tokenIndex s in
      match a s with
      | (Matched, s') => star fuel' a s'
      | (Failed, s') => (Matched, restore positionN tokenIndexN s')
      | r => r
      end
  end.

(** A rule function with a failure label: the cursor saved at entry is put
    back before [return false]. *)
Definition rule_fn (body : F) : F := λ s,
  let position0 := position s in
  let tokenIndex0 := tokenIndex s in
  match body s with
  | (Failed, s') => (Failed, restore position0 tokenIndex0 s')
  | r => r
  end.

Section Rules.
Variable buffer : list rune.

(** [buffer[position]]; the cursor never passes the end symbol, see
    [rule_functions_stay_in_range]. *)
Definition peek (s : pstate) : rune := nth (position s) buffer endSymbol.

(** A loop runs at most once per rune of the buffer, and once more to
    fail. *)
Definition fuel : nat := S (length buffer).

Definition add (rule : pegRule) (begin : nat) : F := λ s,
  let t := tokens32_Add (tree s) rule begin (position s) (tokenIndex s) in
  let tokenIndex' := S (tokenIndex s) in
  let max' :=
    if decide (begin ≠ position s ∧ (tok_end (maxToken s) < position s)%nat)
    then {| tok_rule := rule; tok_begin := begin; tok_end := position s |}
    else maxToken s in
  (Matched, {| position := position s; tokenIndex := tokenIndex';
               tree := t; maxToken := max' |}).

(** [add(rule, position)] *)
Definition add_here (rule : pegRule) : F := mark (add rule).

Definition matchDot : F := λ s,
  if decide (peek s ≠ endSymbol) then (Matched, advance s) else (Failed, s).

(** [if buffer[position] != rune(c) { goto fail }; position++] *)
Definition char (c : ascii) : F := λ s,
  if decide (peek s ≠ rune_of c) then (Failed, s) else (Matched, advance s).

(** [if c := buffer[position]; c < rune(lo) || c > rune(hi) { goto fail };
    position++] *)
Definition class (lo hi : ascii) : F := λ s,
  let c := peek s in
  if decide (c < rune_of lo ∨ c > rune_of hi)%Z then (Failed, s)
  else (Matched, advance s).

(** A literal: its characters in sequence. *)
Fixpoint lit (w : string) : F :=
  match w with
  | EmptyString => succeed
  | String c w' => char c >> lit w'
  end.

(** [switch buffer[position] { ... }] *)
Definition switch (cases : rune → F) : F := λ s, cases (peek s) s.

(** [case 'A', 'B', ...]: the rune is one of the listed characters. *)
Definition is_case (c : rune) (chars : string) : bool :=
  bool_decide (c ∈ runes_of_string chars).

Definition upper : string := "ABCDEFGHIJKLMNOPQRSTUVWXYZ".
Definition digits : string := "0123456789".

(** *** Rule functions without inlined callers *)

(* 27 Whitespace <- <(' ' / '\t')> *)
Definition rules_Whitespace : F :=
  rule_fn (mark (λ position252,
    (char " " </> char "009") >>
    add ruleWhitespace position252)).

(* 28 EndOfLine <- <(('\r' '\n') / '\n' / '\r')> *)
Definition rules_EndOfLine : F :=
  rule_fn (mark (λ position256,
    ((char "013" >> char "010") </> char "010" </> char "013") >>
    add ruleEndOfLine position256)).

(* 21 Spacing <- <Space*> *)
Definition rules_Spacing : F :=
  mark (λ position233,
    star fuel (mark (λ position236,
      (rules_Whitespace </> rules_EndOfLine) >>
      add ruleSpace position236)) >>
    add ruleSpacing position233).

(* 22 WhiteSpacing <- <Whitespace*> *)
Definition rules_WhiteSpacing : F :=
  mark (λ position240,
    star fuel rules_Whitespace >>
    add ruleWhiteSpacing position240).

(* 23 MustWhiteSpacing <- <Whitespace+> *)
Definition rules_MustWhiteSpacing : F :=
  rule_fn (mark (λ position244,
    rules_Whitespace >>
    star fuel rules_Whitespace >>
    add ruleMustWhiteSpacing position244)).

(* 24 Equal <- <(Spacing '=' Spacing)> *)
Definition rules_Equal : F :=
  rule_fn (mark (λ position248,
    rules_Spacing >> char "=" >> rules_Spacing >>
    add ruleEqual position248)).

(** The character switch of Identifier. *)
Definition Identifier_char : F :=
  switch (λ c,
    if decide (c = rune_of ".") then char "."
    else if decide (c = rune_of "_") then char "_"
    else if decide (c = rune_of "-") then char "-"
    else if is_case c upper then class "A" "Z"
    else class "a" "z").

(* 9 Identifier <- <(... '.' | '_' | '-' | [A-Z] | [a-z])+> *)
Definition rules_Identifier : F :=
  rule_fn (mark (λ position181,
    Identifier_char >>
    star fuel Identifier_char >>
    add ruleIdentifier position181)).

(** The character switch of StringValue. *)
Definition StringValue_char : F :=
  switch (λ c,
    if decide (c = rune_of "/") then char "/"
    else if decide (c = rune_of ":") then char ":"
    else if decide (c = rune_of "_") then char "_"
    else if decide (c = rune_of ".") then char "."
    else if decide (c = rune_of "-") then char "-"
    else if is_case c digits then class "0" "9"
    else if is_case c upper then class "A" "Z"
    else class "a" "z").

(* 12 StringValue <- <(... '/' | ':' | '_' | '.' | '-' | [0-9] | [A-Z] | [a-z])+> *)
Definition rules_StringValue : F :=
  rule_fn (mark (λ position189,
    StringValue_char >>
    star fuel StringValue_char >>
    add ruleStringValue position189)).

(** [[0-9]+] *)
Definition digits1 : F := class "0" "9" >> star fuel (class "0" "9").

(* 13 CidrValue <- <([0-9]+ . [0-9]+ . [0-9]+ . [0-9]+ '/' [0-9]+)> *)
Definition rules_CidrValue : F :=
  rule_fn (mark (λ position195,
    digits1 >> matchDot >> digits1 >> matchDot >> digits1 >> matchDot >>
    digits1 >> char "/" >> digits1 >>
    add ruleCidrValue position195)).

(* 14 IpValue <- <([0-9]+ . [0-9]+ . [0-9]+ . [0-9]+)> *)
Definition rules_IpValue : F :=
  rule_fn (mark (λ position207,
    digits1 >> matchDot >> digits1 >> matchDot >> digits1 >> matchDot >>
    digits1 >>
    add ruleIpValue position207)).

(* 15 IntValue <- <[0-9]+> *)
Definition rules_IntValue : F :=
  rule_fn (mark (λ position217,
    digits1 >>
    add ruleIntValue position217)).

(* 16 IntRangeValue <- <([0-9]+ '-' [0-9]+)> *)
Definition rules_IntRangeValue : F :=
  rule_fn (mark (λ position221,
    digits1 >> char "-" >> digits1 >>
    add ruleIntRangeValue position221)).

(* 19 HoleValue <- <('{' WhiteSpacing <Identifier> WhiteSpacing '}')> *)
Definition rules_HoleValue : F :=
  rule_fn (mark (λ position229,
    char "{" >> rules_WhiteSpacing >>
    mark (λ position230, rules_Identifier >> add rulePegText position230) >>
    rules_WhiteSpacing >> char "}" >>
    add ruleHoleValue position229)).

(** *** Rules the generator inlined into their callers

    The generator leaves [nil] in the rule table for a rule with a single
    kind of caller and copies its body there; a repeated rule ([Statement+],
    [Param+]) is copied twice with fresh label numbers.  The copies are the
    same piece of code, written once here; a failure inside leaves to the
    failure label of the construct around it. *)

(** A rule invocation captured as text: [<rule>]. *)
Definition pegText (a : F) : F :=
  mark (λ positionN, a >> add rulePegText positionN).

(* 2 Action *)
Definition inline_Action : F :=
  mark (λ position100,
    (lit "create" </> lit "delete" </> lit "start" </>
     switch (λ c,
       if decide (c = rune_of "d") then lit "detach"
       else if decide (c = rune_of "c") then lit "check"
       else if decide (c = rune_of "a") then lit "attach"
       else if decide (c = rune_of "u") then lit "update"
       else lit "stop")) >>
    add ruleAction position100).

(* 3 Entity *)
Definition inline_Entity : F :=
  mark (λ position108,
    (lit "vpc" </> lit "subnet" </> lit "instance" </> lit "role" </>
     lit "securitygroup" </> lit "routetable" </>
     switch (λ c,
       if decide (c = rune_of "s") then lit "storageobject"
       else if decide (c = rune_of "b") then lit "bucket"
       else if decide (c = rune_of "r") then lit "route"
       else if decide (c = rune_of "i") then lit "internetgateway"
       else if decide (c = rune_of "k") then lit "keypair"
       else if decide (c = rune_of "p") then lit "policy"
       else if decide (c = rune_of "g") then lit "group"
       else if decide (c = rune_of "u") then lit "user"
       else if decide (c = rune_of "t") then lit "tags"
       else lit "volume")) >>
    add ruleEntity position108).

(* 10 Value *)
Definition inline_Value : F :=
  mark (λ position126,
    ((pegText rules_CidrValue >> add_here ruleAction10) </>
     (pegText rules_IpValue >> add_here ruleAction11) </>
     (pegText rules_IntRangeValue >> add_here ruleAction12) </>
     (pegText rules_IntValue >> add_here ruleAction13) </>
     switch (λ c,
       if decide (c = rune_of "$") then
         mark (λ position141,
           char "$" >> pegText rules_Identifier >>
           add ruleRefValue position141) >>
         add_here ruleAction9
       else if decide (c = rune_of "@") then
         mark (λ position144,
           char "@" >> pegText rules_Identifier >>
           add ruleAliasValue position144) >>
         add_here ruleAction8
       else if decide (c = rune_of "{") then
         rules_HoleValue >> add_here ruleAction7
       else
         pegText rules_StringValue >> add_here ruleAction14)) >>
    add ruleValue position126).

(* 8 Param <- <(<Identifier> Action6 Equal Value WhiteSpacing)> *)
Definition inline_Param : F :=
  mark (λ position123,
    pegText rules_Identifier >>
    add_here ruleAction6 >>
    rules_Equal >>
    inline_Value >>
    rules_WhiteSpacing >>
    add ruleParam position123).

(* 7 Params <- <Param+> *)
Definition inline_Params : F :=
  mark (λ position120,
    inline_Param >>
    star fuel inline_Param >>
    add ruleParams position120).

(* 6 Expr <- <(<Action> Action3 MustWhiteSpacing <Entity> Action4
              (MustWhiteSpacing Params)? Action5)> *)
Definition rules_Expr : F :=
  rule_fn (mark (λ position98,
    pegText inline_Action >>
    add_here ruleAction3 >>
    rules_MustWhiteSpacing >>
    pegText inline_Entity >>
    add_here ruleAction4 >>
    opt (rules_MustWhiteSpacing >> inline_Params) >>
    add_here ruleAction5 >>
    add ruleExpr position98)).

(* 25 Var <- <(Spacing ('v' 'a' 'r') Spacing)> *)
Definition inline_Var : F :=
  mark (λ position8,
    rules_Spacing >> char "v" >> char "a" >> char "r" >> rules_Spacing >>
    add ruleVar position8).

(* 11 VarValue *)
Definition inline_VarValue : F :=
  mark (λ position11,
    ((rules_HoleValue >> add_here ruleAction15) </>
     (pegText rules_CidrValue >> add_here ruleAction16) </>
     (pegText rules_IpValue >> add_here ruleAction17) </>
     (pegText rules_IntRangeValue >> add_here ruleAction18) </>
     (pegText rules_IntValue >> add_here ruleAction19) </>
     (pegText rules_StringValue >> add_here ruleAction20)) >>
    add ruleVarValue position11).

(* 4 VarDeclaration <- <(Var <Identifier> Action0 Equal VarValue Action1)> *)
Definition inline_VarDeclaration : F :=
  mark (λ position7,
    inline_Var >>
    pegText rules_Identifier >>
    add_here ruleAction0 >>
    rules_Equal >>
    inline_VarValue >>
    add_here ruleAction1 >>
    add ruleVarDeclaration position7).

(* 5 Declaration <- <(<Identifier> Action2 Equal Expr)> *)
Definition inline_Declaration : F :=
  mark (λ position32,
    pegText rules_Identifier >>
    add_here ruleAction2 >>
    rules_Equal >>
    rules_Expr >>
    add ruleDeclaration position32).

(** [!EndOfLine .], repeated. *)
Definition rest_of_line : F :=
  star fuel (neg rules_EndOfLine >> matchDot).

(* 20 Comment <- <(('#' RestOfLine) / ('/' '/' RestOfLine Action21))>,
   RestOfLine being (!EndOfLine .) repeated *)
Definition inline_Comment : F :=
  mark (λ position35,
    ((char "#" >> rest_of_line) </>
     (char "/" >> char "/" >> rest_of_line >> add_here ruleAction21)) >>
    add ruleComment position35).

(* 1 Statement <- <(Spacing (VarDeclaration / Expr / Declaration / Comment)
                   Spacing EndOfLine* )> *)
Definition inline_Statement : F :=
  mark (λ position4,
    rules_Spacing >>
    (inline_VarDeclaration </> rules_Expr </> inline_Declaration </>
     inline_Comment) >>
    rules_Spacing >>
    star fuel rules_EndOfLine >>
    add ruleStatement position4).

(* 29 EndOfFile <- <!.> *)
Definition inline_EndOfFile : F :=
  mark (λ position90, neg matchDot >> add ruleEndOfFile position90).

(* 0 Script <- <(Spacing Statement+ EndOfFile)> *)
Definition rules_Script : F :=
  rule_fn (mark (λ position1,
    rules_Spacing >>
    inline_Statement >>
    star fuel inline_Statement >>
    inline_EndOfFile >>
    add ruleScript position1)).

End Rules.

(** ** Init, Parse and Execute *)

(** [reset]: the rune buffer with the end symbol appended. *)
Definition Peg_buffer (Buffer : string) : list rune :=
  let buffer := runes_of_string Buffer in
  if decide (length buffer = 0%nat ∨ last buffer ≠ Some endSymbol)
  then (buffer ++ [endSymbol]) else buffer.

Definition MaxInt16 : nat := Pos.to_nat 32767.

(** The cursor after [Init]. *)
Definition Peg_Init : pstate :=
  {| position := 0; tokenIndex := 0;
     tree := replicate MaxInt16 zeroToken; maxToken := zeroToken |}.

(** [Parse] returns nil with the trimmed tokens, or a [parseError] that
    carries the furthest token. *)
Inductive parse_result :=
| ParseOk (tokens : list token32)
| ParseError (max : token32)
| ParseOutOfFuel.

Definition Peg_Parse (Buffer : string) : parse_result :=
  match rules_Script (Peg_buffer Buffer) Peg_Init with
  | (Matched, s) => ParseOk (tokens32_Trim (tree s) (tokenIndex s))
  | (Failed, s) => ParseError (maxToken s)
  | (OutOfFuel, _) => ParseOutOfFuel
  end.

(** [_buffer[begin:end]] as a string. *)
Definition buffer_text (buffer : list rune) (begin end_ : nat) : string :=
  string_of_runes (take (end_ - begin) (drop begin buffer)).

Section Execute.
Context `{GoEnv}.

(** The AST operation of an action token. *)
Definition action_of (rule : pegRule) : option (string → AST → M AST) :=
  match rule with
  | ruleAction0 => Some AST_AddVarIdentifier
  | ruleAction1 => Some (λ _, AST_LineDone)
  | ruleAction2 => Some AST_AddDeclarationIdentifier
  | ruleAction3 => Some AST_AddAction
  | ruleAction4 => Some AST_AddEntity
  | ruleAction5 => Some (λ _, AST_LineDone)
  | ruleAction6 => Some AST_AddParamKey
  | ruleAction7 => Some AST_AddParamHoleValue
  | ruleAction8 => Some AST_AddParamAliasValue
  | ruleAction9 => Some AST_AddParamRefValue
  | ruleAction10 => Some AST_AddParamCidrValue
  | ruleAction11 => Some AST_AddParamIpValue
  | ruleAction12 => Some AST_AddParamValue
  | ruleAction13 => Some AST_AddParamIntValue
  | ruleAction14 => Some AST_AddParamValue
  | ruleAction15 => Some AST_AddVarHoleValue
  | ruleAction16 => Some AST_AddVarCidrValue
  | ruleAction17 => Some AST_AddVarIpValue
  | ruleAction18 => Some AST_AddVarValue
  | ruleAction19 => Some AST_AddVarIntValue
  | ruleAction20 => Some AST_AddVarValue
  | ruleAction21 => Some (λ _, AST_LineDone)
  | _ => None
  end.

Definition Peg_Execute (buffer : list rune) (tokens : list token32)
    (a : AST) : M AST :=
  r ← foldM (λ '(text, a) token,
               match tok_rule token with
               | rulePegText =>
                   mret (buffer_text buffer (tok_begin token) (tok_end token), a)
               | rule =>
                   match action_of rule with
                   | Some op => a ← op text a; mret (text, a)
                   | None => mret (text, a)
                   end
               end)
            ("", a) tokens;
  mret r.2.

Definition emptyAST : AST :=
  {| Statements := []; currentStatement := None; currentKey := "" |}.

(** What parsing a template gives: an AST, a parse error, or a panic. *)
Inductive template_result :=
| Template (a : AST) (h : heap)
| TemplateParseError (max : token32)
| TemplatePanic (msg : string)
| TemplateOutOfFuel.

(** Modelled from the spec: the caller that builds an AST from source text
    is not part of this package's file.  It fills [Buffer], calls [Init] and
    [Parse], returns the parse error if there is one, and otherwise runs
    [Execute] on a fresh AST. *)
Definition ParseTemplate (text : string) (h : heap) : template_result :=
  match Peg_Parse text with
  | ParseOk tokens =>
      match Peg_Execute (Peg_buffer text) tokens emptyAST h with
      | Ok a h' => Template a h'
      | Panic msg => TemplatePanic msg
      end
  | ParseError max => TemplateParseError max
  | ParseOutOfFuel => TemplateOutOfFuel
  end.

End Execute.

(** ** Reading the heap *)

(** The contents of the map behind a pointer; a nil map reads as empty. *)
Definition StrMap_at (h : heap) (p : ptr) : option (gmap string string) :=
  match p with
  | None => Some ∅
  | Some l => match h !! l with Some (OStrMap m) => Some m | _ => None end
  end.

Definition IfaceMap_at (h : heap) (p : ptr) : option (gmap string value) :=
  match p with
  | None => Some ∅
  | Some l => match h !! l with Some (OIfaceMap m) => Some m | _ => None end
  end.

(** Two map pointers do not name the same map object. *)
Definition separate (p q : ptr) : Prop :=
  match p, q with
  | Some l1, Some l2 => l1 ≠ l2
  | _, _ => True
  end.

Global Instance separate_dec p q : Decision (separate p q).
Proof. destruct p, q; simpl; apply _. Defined.

(** An Expression node as its field values and the contents of its four
    maps. *)
Record ExprView := mkExprView {
  vAction : string;
  vEntity : string;
  vRefs : gmap string string;
  vParams : gmap string value;
  vAliases : gmap string string;
  vHoles : gmap string string
}.

(** The view of the node at [n]: defined when [n] is an Expression node
    whose map fields are nil or map objects of their type, no two fields
    sharing one object. *)
Definition Expression_view (h : heap) (n : ptr) : option ExprView :=
  match n with
  | Some l =>
      match h !! l with
      | Some (OExpression e) =>
          if decide (separate (Refs e) (Aliases e) ∧
                     separate (Refs e) (Holes e) ∧
                     separate (Aliases e) (Holes e))
          then
            refs ← StrMap_at h (Refs e);
            params ← IfaceMap_at h (Params e);
            aliases ← StrMap_at h (Aliases e);
            holes ← StrMap_at h (Holes e);
            Some {| vAction := Action e; vEntity := Entity e;
                    vRefs := refs; vParams := params;
                    vAliases := aliases; vHoles := holes |}
          else None
      | _ => None
      end
  | None => None
  end.

Record VarView := mkVarView {
  vIdent : string;
  vVal : value;
  vHole : gmap string string
}.

Definition Var_view (h : heap) (n : ptr) : option VarView :=
  match n with
  | Some l =>
      match h !! l with
      | Some (OVar v) =>
          match VarI v with
          | Some li =>
              match h !! li with
              | Some (OIdentifier i) =>
                  hole ← StrMap_at h (Hole v);
                  Some {| vIdent := Ident i; vVal := Val i; vHole := hole |}
              | _ => None
              end
          | None => None
          end
      | _ => None
      end
  | None => None
  end.

Definition Identifier_at (h : heap) (n : ptr) : option IdentifierNode :=
  match n with
  | Some l => match h !! l with Some (OIdentifier i) => Some i | _ => None end
  | None => None
  end.

(** A node as a value: what the node and everything below it hold. *)
Inductive NodeView :=
| IdentifierV (i : IdentifierNode)
| VarV (v : VarView)
| DeclarationV (left : IdentifierNode) (right : ExprView)
| ExpressionV (e : ExprView).

Definition Node_view (h : heap) (n : ptr) : option NodeView :=
  match n with
  | Some l =>
      match h !! l with
      | Some (OIdentifier i) => Some (IdentifierV i)
      | Some (OVar _) => VarV <$> Var_view h n
      | Some (ODeclaration d) =>
          left ← Identifier_at h (Left d);
          right ← Expression_view h (Right d);
          Some (DeclarationV left right)
      | Some (OExpression _) => ExpressionV <$> Expression_view h n
      | _ => None
      end
  | None => None
  end.

Definition Statement_at (h : heap) (s : ptr) : option Statement :=
  match s with
  | Some l => match h !! l with Some (OStatement st) => Some st | _ => None end
  | None => None
  end.

(** The statement at [s] wraps a Var node. *)
Definition wraps_Var (h : heap) (s : ptr) : bool :=
  match Statement_at h s with
  | Some st =>
      match Node st with
      | Some ln => match h !! ln with Some (OVar _) => true | _ => false end
      | None => false
      end
  | None => false
  end.

(** A statement pointer the code can follow: a statement object whose node
    is nil or points to an object. *)
Definition readable_Statement (h : heap) (s : ptr) : Prop :=
  ∃ st, Statement_at h s = Some st ∧
        match Node st with Some ln => is_Some (h !! ln) | None => True end.

(** The iteration order of [range] yields each entry of the map once. *)
Definition GoEnvOk (E : GoEnv) : Prop :=
  ∀ V (m : gmap string V), map_range V m ≡ₚ map_to_list m.

(** The environment that walks a map in the order of [map_to_list] and
    whose library rejects every literal. *)
Definition canonicalEnv : GoEnv :=
  {| map_range := λ V m, map_to_list m;
     strconv_Atoi := λ _, None;
     net_ParseIP := λ _, None;
     net_ParseCIDR := λ _, None |}.

(** What [clone] makes of a node: a Var node's clone starts with an empty
    Hole map, everything else is copied. *)
Definition clone_view (nv : NodeView) : NodeView :=
  match nv with
  | VarV v => VarV {| vIdent := vIdent v; vVal := vVal v; vHole := ∅ |}
  | _ => nv
  end.

(** ** What resolution computes *)

(** The entries of [m] whose name has a fill, with the fill as value, and
    the entries whose name has none. *)
Definition resolved (fills : gmap string value) (m : gmap string string)
    : gmap string value :=
  omap (λ name, fills !! name) m.

Definition unresolved (fills : gmap string value) (m : gmap string string)
    : gmap string string :=
  filter (λ kv, fills !! kv.2 = None) m.

(** The fills whose name some entry of [m] asks for. *)
Definition requested (fills : gmap string value) (m : gmap string string)
    : gmap string value :=
  filter (λ kv, kv.1 ∈ (map_img m : gset string)) fills.

(** The locations a pointer names. *)
Definition ptr_set (p : ptr) : gset loc :=
  match p with Some l => {[l]} | None => ∅ end.

(** Every object of [h] outside [X] is the same in [h']. *)
Definition unchanged_outside (X : gset loc) (h h' : heap) : Prop :=
  ∀ l, l ∉ X → is_Some (h !! l) → h' !! l = h !! l.

(** No key is in two of the four parameter maps. *)
Definition exclusive (v : ExprView) : Prop :=
  dom (vParams v) ## dom (vRefs v) ∧
  dom (vParams v) ## dom (vAliases v) ∧
  dom (vParams v) ## dom (vHoles v) ∧
  dom (vRefs v) ## dom (vAliases v) ∧
  dom (vRefs v) ## dom (vHoles v) ∧
  dom (vAliases v) ## dom (vHoles v).

Global Instance exclusive_dec v : Decision (exclusive v).
Proof. unfold exclusive. apply _. Defined.

(** A key is in none of the four maps. *)
Definition key_free (k : string) (v : ExprView) : Prop :=
  (k ∉ dom (vParams v)) ∧ (k ∉ dom (vRefs v)) ∧
  (k ∉ dom (vAliases v)) ∧ (k ∉ dom (vHoles v)).

Global Instance key_free_dec k v : Decision (key_free k v).
Proof. unfold key_free. apply _. Defined.

Definition with_Params (v : ExprView) (params : gmap string value) : ExprView :=
  {| vAction := vAction v; vEntity := vEntity v; vRefs := vRefs v;
     vParams := params; vAliases := vAliases v; vHoles := vHoles v |}.
Definition with_Refs (v : ExprView) (refs : gmap string string) : ExprView :=
  {| vAction := vAction v; vEntity := vEntity v; vRefs := refs;
     vParams := vParams v; vAliases := vAliases v; vHoles := vHoles v |}.
Definition with_Aliases (v : ExprView) (aliases : gmap string string) : ExprView :=
  {| vAction := vAction v; vEntity := vEntity v; vRefs := vRefs v;
     vParams := vParams v; vAliases := aliases; vHoles := vHoles v |}.
Definition with_Holes (v : ExprView) (holes : gmap string string) : ExprView :=
  {| vAction := vAction v; vEntity := vEntity v; vRefs := vRefs v;
     vParams := vParams v; vAliases := vAliases v; vHoles := holes |}.

(** ** Sequences of builder and resolution operations *)



Section Ops.
Context `{GoEnv}.





End Ops.

(** Copying entries one by one into a map. *)
Definition insert_all {V} (m : gmap string V) (kvs : list (string * V))
    : gmap string V :=
  foldl (λ m kv, <[kv.1 := kv.2]> m) m kvs.

(** One iteration of the resolution loops on the contents of the maps: the
    target map, the origin map and the map of processed entries. *)
Definition resolve_entry (fills : gmap string value)
    (st : gmap string value * gmap string string * gmap string value)
    (kv : string * string)
    : gmap string value * gmap string string * gmap string value :=
  let '(params, origin, processed) := st in
  match fills !! kv.2 with
  | Some val => (<[kv.1 := val]> params, delete kv.1 origin,
                 <[kv.1 := val]> processed)
  | None => st
  end.

(** The locations an Expression node is made of: the node and its maps. *)
Definition Expression_locs (h : heap) (n : ptr) : gset loc :=
  match n with
  | Some l =>
      match h !! l with
      | Some (OExpression e) =>
          {[l]} ∪ ptr_set (Refs e) ∪ ptr_set (Params e) ∪
          ptr_set (Aliases e) ∪ ptr_set (Holes e)
      | _ => ∅
      end
  | None => ∅
  end.

(** The locations a Var node is made of: the node, its identifier and its
    Hole map. *)
Definition Var_locs (h : heap) (n : ptr) : gset loc :=
  match n with
  | Some l =>
      match h !! l with
      | Some (OVar v) => {[l]} ∪ ptr_set (VarI v) ∪ ptr_set (Hole v)
      | _ => ∅
      end
  | None => ∅
  end.

(** One iteration of the loop of [VarNode.ProcessHoles] on the bound value,
    the contents of the Hole map and the map of processed entries. *)
Definition resolve_var_entry (fills : gmap string value)
    (st : value * gmap string string * gmap string value)
    (kv : string * string)
    : value * gmap string string * gmap string value :=
  let '(val0, holes, processed) := st in
  match fills !! kv.2 with
  | Some val => (val, delete kv.1 holes, <[kv.2 := val]> processed)
  | None => st
  end.

(** The expression statement [stat] points to [expr]: as its node, or as
    the right-hand side of its declaration node. *)
Definition builds (h : heap) (stat : ptr) (expr : loc) : Prop :=
  ∃ st ln, Statement_at h stat = Some st ∧ Node st = Some ln ∧
    ((ln = expr ∧ ∃ e, h !! expr = Some (OExpression e)) ∨
     (∃ d, h !! ln = Some (ODeclaration d) ∧ Right d = Some expr)).

(** The view with its four maps empty: what [AddParamKey] leaves when it
    makes the maps. *)
Definition cleared (v : ExprView) : ExprView :=
  {| vAction := vAction v; vEntity := vEntity v; vRefs := ∅; vParams := ∅;
     vAliases := ∅; vHoles := ∅ |}.


(** [c], in [h'], is the clone of the statement [s] of [h]: a new statement
    with the clone of the node, the same Result and Err, and no Line. *)
Definition cloned (h h' : heap) (s c : ptr) : Prop :=
  ∃ st nv st',
    Statement_at h s = Some st ∧ Node_view h (Node st) = Some nv ∧
    Statement_at h c = None ∧
    Statement_at h' c = Some st' ∧
    Node_view h' (Node st') = Some (clone_view nv) ∧
    Result st' = Result st ∧ Err st' = Err st ∧ Line st' = "".

(** ** What an expression renders *)

(** The rendered parameters of the four maps, before sorting: Refs as
    [key=$value], Params as [key=value], Aliases as [key=@value] and Holes
    as [key={value}]. *)
Definition rendered_params (v : ExprView) : list string :=
  ((λ kv, kv.1 +:+ "=$" +:+ kv.2) <$> map_to_list (vRefs v)) ++
  ((λ kv, kv.1 +:+ "=" +:+ format_v kv.2) <$> map_to_list (vParams v)) ++
  ((λ kv, kv.1 +:+ "=@" +:+ kv.2) <$> map_to_list (vAliases v)) ++
  ((λ kv, kv.1 +:+ "={" +:+ kv.2 +:+ "}") <$> map_to_list (vHoles v)).

(** ** The rule table and what its functions guarantee *)

(** The table [_rules]: the functions of the rules that were not inlined;
    the other entries are nil. *)
Definition rules (buffer : list rune) (rule : pegRule) : option F :=
  match rule with
  | ruleScript => Some (rules_Script buffer)
  | ruleExpr => Some (rules_Expr buffer)
  | ruleIdentifier => Some (rules_Identifier buffer)
  | ruleStringValue => Some (rules_StringValue buffer)
  | ruleCidrValue => Some (rules_CidrValue buffer)
  | ruleIpValue => Some (rules_IpValue buffer)
  | ruleIntValue => Some (rules_IntValue buffer)
  | ruleIntRangeValue => Some (rules_IntRangeValue buffer)
  | ruleHoleValue => Some (rules_HoleValue buffer)
  | ruleSpacing => Some (rules_Spacing buffer)
  | ruleWhiteSpacing => Some (rules_WhiteSpacing buffer)
  | ruleMustWhiteSpacing => Some (rules_MustWhiteSpacing buffer)
  | ruleEqual => Some (rules_Equal buffer)
  | ruleWhitespace => Some (rules_Whitespace buffer)
  | ruleEndOfLine => Some (rules_EndOfLine buffer)
  | _ => None
  end.

(** A match leaves the cursor where it was or further on. *)
Class Forward (a : F) : Prop :=
  forward : ∀ s s', a s = (Matched, s') →
    (position s ≤ position s')%nat ∧ (tokenIndex s ≤ tokenIndex s')%nat.

(** A match consumes at least one rune of the buffer. *)
Class Consuming (buffer : list rune) (a : F) : Prop :=
  consuming : ∀ s s', a s = (Matched, s') →
    (position s < position s')%nat ∧ (position s < length buffer)%nat.

(** The loops inside have fuel enough. *)
Class Fuelled (a : F) : Prop :=
  fuelled : ∀ s s', a s ≠ (OutOfFuel, s').

(** A failure leaves the cursor as it was on entry. *)
Class Restoring (a : F) : Prop :=
  restoring : ∀ s s', a s = (Failed, s') →
    position s' = position s ∧ tokenIndex s' = tokenIndex s.

(** The piece always matches (or runs out of fuel). *)
Class Unfailing (a : F) : Prop :=
  unfailing : ∀ s s', a s ≠ (Failed, s').

(** The body of the loop of [Execute]: the text of the last PegText token
    and the AST, after one more token. *)
Definition Execute_step `{GoEnv} (buffer : list rune) :
    string * AST → token32 → M (string * AST) :=
  λ '(text, a) token,
    match tok_rule token with
    | rulePegText =>
        mret (buffer_text buffer (tok_begin token) (tok_end token), a)
    | rule =>
        match action_of rule with
        | Some op => a ← op text a; mret (text, a)
        | None => mret (text, a)
        end
    end.

(** ** Concrete inputs *)

(** An environment that walks maps in the opposite order. *)
Definition reversedEnv : GoEnv :=
  {| map_range := λ V m, reverse (map_to_list m);
     strconv_Atoi := λ _, None;
     net_ParseIP := λ _, None;
     net_ParseCIDR := λ _, None |}.

(** A heap with the statements of [var x = {h}] and of
    [create vpc a=1 b=$x c={ho}], the second with a result, an error and its
    source line recorded. *)
Definition two_statements : heap :=
  {[ 1%positive := OIdentifier {| Ident := "x"; Val := VNil |};
     2%positive := OStrMap {["x" := "h"]};
     3%positive := OVar {| VarI := Some 1%positive; Hole := Some 2%positive |};
     4%positive := OStatement {| Node := Some 3%positive; Result := VNil;
                                 Line := ""; Err := None |};
     5%positive := OStrMap {["b" := "x"]};
     6%positive := OIfaceMap {["a" := VInt 1]};
     7%positive := OStrMap ∅;
     8%positive := OStrMap {["c" := "ho"]};
     9%positive := OExpression
       {| Action := "create"; Entity := "vpc"; Refs := Some 5%positive;
          Params := Some 6%positive; Aliases := Some 7%positive;
          Holes := Some 8%positive |};
     10%positive := OStatement {| Node := Some 9%positive; Result := VString "vpc-1";
                                  Line := "create vpc a=1 b=$x c={ho}";
                                  Err := Some "failed" |} ]}.

Definition two_statements_AST : AST :=
  {| Statements := [Some 4%positive; Some 10%positive];
     currentStatement := None; currentKey := "" |}.

(** The same AST while its second statement is being built. *)
Definition two_statements_building : AST :=
  {| Statements := [Some 4%positive; Some 10%positive];
     currentStatement := Some 10%positive; currentKey := "c" |}.

Definition two_statements_var : VarView :=
  {| vIdent := "x"; vVal := VNil; vHole := {["x" := "h"]} |}.

Definition two_statements_expr : ExprView :=
  {| vAction := "create"; vEntity := "vpc"; vRefs := {["b" := "x"]};
     vParams := {["a" := VInt 1]}; vAliases := ∅; vHoles := {["c" := "ho"]} |}.

(** Another heap with an expression of the same contents. *)
Definition same_expression : heap :=
  {[ 1%positive := OStrMap {["b" := "x"]};
     2%positive := OIfaceMap {["a" := VInt 1]};
     3%positive := OStrMap ∅;
     4%positive := OStrMap {["c" := "ho"]};
     5%positive := OExpression
       {| Action := "create"; Entity := "vpc"; Refs := Some 1%positive;
          Params := Some 2%positive; Aliases := Some 3%positive;
          Holes := Some 4%positive |} ]}.



(** The cursor is inside the buffer and the token index inside the token
    array (or just past its end, where [Add] doubles a non-empty array). *)
Definition in_range (buffer : list rune) (s : pstate) : Prop :=
  (position s < length buffer)%nat ∧
  (tokenIndex s ≤ length (tree s))%nat ∧ (0 < length (tree s))%nat.

(** A piece of a rule keeps the cursor in range, and never shrinks the token
    array. *)
Class Inside (buffer : list rune) (a : F) : Prop :=
  inside : ∀ s o s', in_range buffer s → a s = (o, s') →
    in_range buffer s' ∧ (length (tree s) ≤ length (tree s'))%nat.

(** ** The accessors of a statement *)

(** [%T] of the value in a Node interface. *)
Definition format_T (o : object) : string :=
  match o with
  | OIdentifier _ => "*ast.IdentifierNode"
  | OVar _ => "*ast.VarNode"
  | ODeclaration _ => "*ast.DeclarationNode"
  | OExpression _ => "*ast.ExpressionNode"
  | OStatement _ => "*ast.Statement"
  | OStrMap _ => "map[string]string"
  | OIfaceMap _ => "map[string]interface {}"
  end.

(** [Statement.Action]: the type switch on [s.Node]; a nil Node is of no
    type and goes to [default], where [%T] prints it as [<nil>]. *)
Definition Statement_Action (s : ptr) : M string :=
  st ← load_Statement s;
  match Node st with
  | None => panic "unknown type of node <nil>"
  | Some _ =>
      o ← load (Node st);
      match o with
      | OExpression n => mret (Action n)
      | ODeclaration n => right ← load_Expression (Right n); mret (Action right)
      | _ => panic ("unknown type of node " +:+ format_T o)
      end
  end.

Definition Statement_Entity (s : ptr) : M string :=
  st ← load_Statement s;
  match Node st with
  | None => panic "unknown type of node <nil>"
  | Some _ =>
      o ← load (Node st);
      match o with
      | OExpression n => mret (Entity n)
      | ODeclaration n => right ← load_Expression (Right n); mret (Entity right)
      | _ => panic ("unknown type of node " +:+ format_T o)
      end
  end.

(** [Statement.Params] returns the map itself, not a copy. *)
Definition Statement_Params (s : ptr) : M ptr :=
  st ← load_Statement s;
  match Node st with
  | None => panic "unknown type of node <nil>"
  | Some _ =>
      o ← load (Node st);
      match o with
      | OExpression n => mret (Params n)
      | ODeclaration n => right ← load_Expression (Right n); mret (Params right)
      | _ => panic ("unknown type of node " +:+ format_T o)
      end
  end.

(** ** The builder operations by the node they need *)

Section BuilderOps.
Context `{GoEnv}.

(** The operations that start with [currentExpression]. *)
Definition expression_ops : list (string → AST → M AST) :=
  [AST_AddAction; AST_AddEntity; AST_AddParamKey; AST_AddParamValue;
   AST_AddParamIntValue; AST_AddParamCidrValue; AST_AddParamIpValue;
   AST_AddParamRefValue; AST_AddParamAliasValue; AST_AddParamHoleValue].

(** The operations that start with [currentVarDecl]. *)
Definition var_ops : list (string → AST → M AST) :=
  [AST_AddVarValue; AST_AddVarIntValue; AST_AddVarCidrValue;
   AST_AddVarIpValue; AST_AddVarHoleValue].

(** The operations that store the text itself in a map of the expression. *)
Definition text_value_ops : list (string → AST → M AST) :=
  [AST_AddParamValue; AST_AddParamRefValue; AST_AddParamAliasValue;
   AST_AddParamHoleValue].

End BuilderOps.

(** ** What a node renders *)

Definition render_expression (v : ExprView) : string :=
  vAction v +:+ " " +:+ vEntity v +:+ " " +:+
  strings_Join (sort_Strings (rendered_params v)) " ".

(** The string of a node, from what the node holds. *)
Definition render_node (nv : NodeView) : string :=
  match nv with
  | IdentifierV i => Ident i
  | VarV v => "var " +:+ vIdent v +:+ " = " +:+ format_v (vVal v)
  | DeclarationV i e =>
      Ident i +:+ " = " +:+ render_expression e
  | ExpressionV e => render_expression e
  end.

(** The statement at [s] holds a node with the contents [nv]. *)
Definition holds_node (h : heap) (s : ptr) (nv : NodeView) : Prop :=
  ∃ st, Statement_at h s = Some st ∧ Node_view h (Node st) = Some nv.

(** ** Positions in the text *)

(** [textPosition{line, symbol}] *)
Record textPosition := mkTextPosition {
  line : Z;
  symbol : Z
}.

(** [sort.Ints] *)
Definition sort_Ints (l : list Z) : list Z := merge_sort Z.le l.

(** [line, symbol] after one more rune. *)
Definition count_rune (c : rune) (at_ : textPosition) : textPosition :=
  if decide (c = 10%Z)
  then {| line := line at_ + 1; symbol := 0 |}
  else {| line := line at_; symbol := symbol at_ + 1 |}.

(** The inner loop [for j++; j < length; j++]: the index of the next
    position that differs from [i] ([continue search]), or none when the
    positions are used up ([break search]); [rest] is [positions[j:]]. *)
Fixpoint next_position (rest : list Z) (i : Z) (j : nat) : option nat :=
  match rest with
  | [] => None
  | p :: rest' =>
      if decide (i ≠ p) then Some j else next_position rest' i (S j)
  end.

(** The loop [search] over the runes of the buffer from index [i] on.  It
    gives no map when [positions[j]] is out of range, where the code
    panics. *)
Fixpoint translate_search (positions : list Z) (buffer : list rune)
    (i j : nat) (at_ : textPosition) (translations : gmap Z textPosition)
    : option (gmap Z textPosition) :=
  match buffer with
  | [] => Some translations
  | c :: buffer' =>
      let at_ := count_rune c at_ in
      match positions !! j with
      | None => None
      | Some p =>
          if decide (Z.of_nat i = p) then
            let translations := <[p := at_]> translations in
            match next_position (drop (S j) positions) (Z.of_nat i) (S j) with
            | Some j' =>
                translate_search positions buffer' (S i) j' at_ translations
            | None => Some translations
            end
          else translate_search positions buffer' (S i) j at_ translations
      end
  end.

Definition translatePositions (buffer : list rune) (positions : list Z)
    : option (gmap Z textPosition) :=
  translate_search (sort_Ints positions) buffer 0 0
    {| line := 1; symbol := 0 |} ∅.

(** Line and symbol of the last rune of [text]: the line is one more than
    the number of newlines in [text], the symbol the number of runes after
    the last of them. *)
Definition text_position (text : list rune) : textPosition :=
  foldl (λ at_ c, count_rune c at_) {| line := 1; symbol := 0 |} text.

(** * Verification *)

(** ** Basic facts about the monad *)

Lemma bind_Ok {A B} (c : M A) (k : A → M B) h a h1 :
  c h = Ok a h1 → (c ≫= k) h = k a h1.
Proof. intros Hc. unfold mbind, M_bind. by rewrite Hc. Qed.

Lemma bind_Ok_inv {A B} (c : M A) (k : A → M B) h b h2 :
  (c ≫= k) h = Ok b h2 → ∃ a h1, c h = Ok a h1 ∧ k a h1 = Ok b h2.
Proof.
  unfold mbind, M_bind. destruct (c h) as [a h1|msg] eqn:Hc; [|done].
  intros Hk. by exists a, h1.
Qed.

Lemma alloc_fresh o h :
  ∃ l, h !! l = None ∧ alloc o h = Ok l (<[l := o]> h).
Proof.
  exists (fresh (dom h)). split; [|done].
  apply not_elem_of_dom, is_fresh.
Qed.

Lemma load_Some l o (h : heap) : h !! l = Some o → load (Some l) h = Ok o h.
Proof. intros Hl. unfold load. by rewrite Hl. Qed.

Lemma load_Statement_at (h : heap) s st :
  Statement_at h s = Some st → load_Statement s h = Ok st h.
Proof.
  destruct s as [l|]; simpl; [|done].
  destruct (h !! l) as [[]|] eqn:Hl; intros [= <-].
  unfold load_Statement. by rewrite (bind_Ok _ _ _ _ _ (load_Some _ _ _ Hl)).
Qed.

Lemma foldM_app {A B} (body : B → A → M B) acc l1 l2 h :
  foldM body acc (l1 ++ l2) h =
  (acc' ← foldM body acc l1; foldM body acc' l2) h.
Proof.
  revert acc h. induction l1 as [|x l1 IH]; intros acc h; simpl; [done|].
  unfold mbind, M_bind in *. destruct (body acc x h); [|done]. apply IH.
Qed.

Lemma bind_assoc {A B C} (c : M A) (k1 : A → M B) (k2 : B → M C) h :
  ((c ≫= k1) ≫= k2) h = (c ≫= (λ a, k1 a ≫= k2)) h.
Proof. unfold mbind, M_bind. by destruct (c h). Qed.

Lemma ret_bind {A B} (a : A) (k : A → M B) h : (mret a ≫= k) h = k a h.
Proof. done. Qed.

(** One step of symbolic execution: [E] says what the first command of the
    goal's program returns. *)
Ltac mstep E :=
  rewrite ?bind_assoc;
  first [rewrite (bind_Ok _ _ _ _ _ E) | rewrite E];
  cbn beta.

(** ** Execution statements *)

Lemma is_VarNode_readable (h : heap) st :
  match Node st with Some ln => is_Some (h !! ln) | None => True end →
  is_VarNode (Node st) h =
    Ok (match Node st with
        | Some ln => match h !! ln with Some (OVar _) => true | _ => false end
        | None => false
        end) h.
Proof.
  unfold is_VarNode. destruct (Node st) as [ln|]; [|done].
  intros [o Ho]. mstep (load_Some _ _ _ Ho). by rewrite Ho.
Qed.

Lemma ExecutionStatements_loop `{GoEnv} (h : heap) (l out : list ptr) :
  Forall (readable_Statement h) l →
  foldM (λ out sts,
           st ← load_Statement sts;
           ok ← is_VarNode (Node st);
           if ok : bool then mret out else mret (out ++ [sts]))
        out l h
  = Ok (out ++ filter (λ sts, wraps_Var h sts = false) l) h.
Proof.
  intros Hl. revert out. induction Hl as [|sts l [st [Hst Hnode]] _ IH];
    intros out; simpl.
  { by rewrite app_nil_r. }
  mstep (load_Statement_at _ _ _ Hst).
  mstep (is_VarNode_readable _ _ Hnode).
  assert (Hw : wraps_Var h sts =
    match Node st with
    | Some ln => match h !! ln with Some (OVar _) => true | _ => false end
    | None => false
    end) by (unfold wraps_Var; by rewrite Hst).
  rewrite <- Hw. rewrite filter_cons.
  destruct (wraps_Var h sts); case_decide; try done;
    rewrite ret_bind, IH; by rewrite <- ?app_assoc.
Qed.

(** C8: [ExecutionStatements] returns exactly the statements of the AST whose
    node is not a Var node, in the order they have in [Statements]; it only
    reads, so the heap and with it the AST's own statements stay as they
    were. *)
Theorem ExecutionStatements_excludes_Var `{GoEnv} (a : AST) (h : heap) :
  Forall (readable_Statement h) (Statements a) →
  AST_ExecutionStatements a h =
    Ok (filter (λ sts, wraps_Var h sts = false) (Statements a)) h.
Proof. intros Hl. unfold AST_ExecutionStatements. by rewrite ExecutionStatements_loop. Qed.

(** ** Reading and writing maps *)

Lemma read_StrMap_at (h : heap) p m :
  StrMap_at h p = Some m → read_StrMap p h = Ok m h.
Proof.
  destruct p as [l|]; simpl; [|by intros [= <-]].
  destruct (h !! l) as [[]|] eqn:Hl; intros [= <-].
  by mstep (load_Some _ _ _ Hl).
Qed.

Lemma read_IfaceMap_at (h : heap) p m :
  IfaceMap_at h p = Some m → read_IfaceMap p h = Ok m h.
Proof.
  destruct p as [l|]; simpl; [|by intros [= <-]].
  destruct (h !! l) as [[]|] eqn:Hl; intros [= <-].
  by mstep (load_Some _ _ _ Hl).
Qed.

Lemma range_StrMap_at `{GoEnv} (h : heap) p m :
  StrMap_at h p = Some m → range_StrMap p h = Ok (map_range _ m) h.
Proof. intros Hm. unfold range_StrMap. by mstep (read_StrMap_at _ _ _ Hm). Qed.

Lemma range_IfaceMap_at `{GoEnv} (h : heap) p m :
  IfaceMap_at h p = Some m → range_IfaceMap p h = Ok (map_range _ m) h.
Proof. intros Hm. unfold range_IfaceMap. by mstep (read_IfaceMap_at _ _ _ Hm). Qed.

Lemma assign_StrMap_Some (h : heap) l m k v :
  h !! l = Some (OStrMap m) →
  assign_StrMap (Some l) k v h = Ok () (<[l := OStrMap (<[k := v]> m)]> h).
Proof.
  intros Hl. unfold assign_StrMap.
  assert (StrMap_at h (Some l) = Some m) as Hm by (simpl; by rewrite Hl).
  by mstep (read_StrMap_at _ _ _ Hm).
Qed.

Lemma assign_IfaceMap_Some (h : heap) l m k v :
  h !! l = Some (OIfaceMap m) →
  assign_IfaceMap (Some l) k v h = Ok () (<[l := OIfaceMap (<[k := v]> m)]> h).
Proof.
  intros Hl. unfold assign_IfaceMap.
  assert (IfaceMap_at h (Some l) = Some m) as Hm by (simpl; by rewrite Hl).
  by mstep (read_IfaceMap_at _ _ _ Hm).
Qed.

Lemma delete_StrMap_Some (h : heap) l m k :
  h !! l = Some (OStrMap m) →
  delete_StrMap (Some l) k h = Ok () (<[l := OStrMap (delete k m)]> h).
Proof.
  intros Hl. unfold delete_StrMap.
  assert (StrMap_at h (Some l) = Some m) as Hm by (simpl; by rewrite Hl).
  by mstep (read_StrMap_at _ _ _ Hm).
Qed.

Lemma insert_all_NoDup {V} (m : gmap string V) kvs :
  NoDup kvs.*1 → insert_all m kvs = list_to_map kvs ∪ m.
Proof.
  unfold insert_all. revert m.
  induction kvs as [|[k v] kvs IH]; intros m Hnd; simpl.
  { by rewrite (left_id_L ∅ (∪)). }
  apply NoDup_cons in Hnd as [Hk Hnd]. rewrite IH by done.
  rewrite <- insert_union_l. rewrite insert_union_r; [done|].
  by apply not_elem_of_list_to_map_1.
Qed.

Lemma insert_all_range `{GoEnv} {V} (m : gmap string V) :
  GoEnvOk _ → insert_all ∅ (map_range V m) = m.
Proof.
  intros Hok. rewrite insert_all_NoDup.
  - rewrite (right_id_L ∅ (∪)).
    rewrite (list_to_map_proper _ (map_to_list m)).
    + apply list_to_map_to_list.
    + rewrite (Hok V m). apply NoDup_fst_map_to_list.
    + apply Hok.
  - rewrite (Hok V m). apply NoDup_fst_map_to_list.
Qed.

Lemma forM_assign_StrMap (h : heap) l m kvs :
  h !! l = Some (OStrMap m) →
  forM kvs (λ '(k, v), assign_StrMap (Some l) k v) h =
    Ok () (<[l := OStrMap (insert_all m kvs)]> h).
Proof.
  revert h m. induction kvs as [|[k v] kvs IH]; intros h m Hl; cbn [forM].
  { by rewrite insert_id. }
  mstep (assign_StrMap_Some _ _ _ k v Hl).
  rewrite (IH _ (<[k:=v]> m)) by apply lookup_insert_eq.
  by rewrite insert_insert_eq.
Qed.

Lemma forM_assign_IfaceMap (h : heap) l m kvs :
  h !! l = Some (OIfaceMap m) →
  forM kvs (λ '(k, v), assign_IfaceMap (Some l) k v) h =
    Ok () (<[l := OIfaceMap (insert_all m kvs)]> h).
Proof.
  revert h m. induction kvs as [|[k v] kvs IH]; intros h m Hl; cbn [forM].
  { by rewrite insert_id. }
  mstep (assign_IfaceMap_Some _ _ _ k v Hl).
  rewrite (IH _ (<[k:=v]> m)) by apply lookup_insert_eq.
  by rewrite insert_insert_eq.
Qed.

(** ** Views are stable under heap extension *)

Lemma StrMap_at_mono (h h' : heap) p m :
  h ⊆ h' → StrMap_at h p = Some m → StrMap_at h' p = Some m.
Proof.
  intros Hsub. destruct p as [l|]; simpl; [|done].
  destruct (h !! l) as [o|] eqn:Hl; [|done].
  by rewrite (lookup_weaken _ _ _ _ Hl Hsub).
Qed.

Lemma IfaceMap_at_mono (h h' : heap) p m :
  h ⊆ h' → IfaceMap_at h p = Some m → IfaceMap_at h' p = Some m.
Proof.
  intros Hsub. destruct p as [l|]; simpl; [|done].
  destruct (h !! l) as [o|] eqn:Hl; [|done].
  by rewrite (lookup_weaken _ _ _ _ Hl Hsub).
Qed.

Lemma Expression_view_Some (h : heap) n v :
  Expression_view h n = Some v ↔
  ∃ l e, n = Some l ∧ h !! l = Some (OExpression e) ∧
    (separate (Refs e) (Aliases e) ∧ separate (Refs e) (Holes e) ∧
     separate (Aliases e) (Holes e)) ∧
    StrMap_at h (Refs e) = Some (vRefs v) ∧
    IfaceMap_at h (Params e) = Some (vParams v) ∧
    StrMap_at h (Aliases e) = Some (vAliases v) ∧
    StrMap_at h (Holes e) = Some (vHoles v) ∧
    Action e = vAction v ∧ Entity e = vEntity v.
Proof.
  split.
  - destruct n as [l|]; simpl; [|done].
    destruct (h !! l) as [[| | | | |e|]|] eqn:Hl; try done.
    case_decide as Hsep; [|done].
    destruct (StrMap_at h (Refs e)) as [r|] eqn:Hr; [|done].
    destruct (IfaceMap_at h (Params e)) as [p|] eqn:Hp; [|done].
    destruct (StrMap_at h (Aliases e)) as [a|] eqn:Ha; [|done].
    destruct (StrMap_at h (Holes e)) as [ho|] eqn:Hh; [|done].
    simpl. intros Hv. simplify_eq. by exists l, e.
  - intros (l & e & -> & Hl & Hsep & Hr & Hp & Ha & Hh & HA & HE).
    simpl. rewrite Hl. rewrite decide_True by done.
    rewrite Hr, Hp, Ha, Hh. simpl. destruct v; simpl in *; by subst.
Qed.

Lemma Expression_view_mono (h h' : heap) n v :
  h ⊆ h' → Expression_view h n = Some v → Expression_view h' n = Some v.
Proof.
  intros Hsub. rewrite !Expression_view_Some.
  intros (l & e & -> & Hl & Hsep & Hr & Hp & Ha & Hh & HA & HE).
  destruct Hsep as (? & ? & ?).
  exists l, e. split_and!;
    eauto using StrMap_at_mono, IfaceMap_at_mono, lookup_weaken.
Qed.

Lemma load_Expression_view (h : heap) n v :
  Expression_view h n = Some v →
  ∃ e, load_Expression n h = Ok e h ∧ h !! (default 1%positive n) = Some (OExpression e).
Proof.
  rewrite Expression_view_Some.
  intros (l & e & -> & Hl & _). exists e. split; [|done].
  unfold load_Expression. by mstep (load_Some _ _ _ Hl).
Qed.

(** ** Cloning an Expression node *)

(** [h ⊆ <[l1:=o1]> (... h)] for locations fresh in [h]. *)
Ltac heap_extends :=
  repeat (apply insert_subseteq_r; [done|]); done.

Lemma copy_StrMap `{GoEnv} (h : heap) src dst m :
  GoEnvOk _ →
  StrMap_at h src = Some m →
  h !! dst = Some (OStrMap ∅) →
  (kvs ← range_StrMap src;
   forM kvs (λ '(k, v), assign_StrMap (Some dst) k v)) h =
    Ok () (<[dst := OStrMap m]> h).
Proof.
  intros Hok Hm Hdst. mstep (range_StrMap_at _ _ _ Hm).
  rewrite (forM_assign_StrMap _ _ _ _ Hdst). by rewrite insert_all_range.
Qed.

Lemma copy_IfaceMap `{GoEnv} (h : heap) src dst m :
  GoEnvOk _ →
  IfaceMap_at h src = Some m →
  h !! dst = Some (OIfaceMap ∅) →
  (kvs ← range_IfaceMap src;
   forM kvs (λ '(k, v), assign_IfaceMap (Some dst) k v)) h =
    Ok () (<[dst := OIfaceMap m]> h).
Proof.
  intros Hok Hm Hdst. mstep (range_IfaceMap_at _ _ _ Hm).
  rewrite (forM_assign_IfaceMap _ _ _ _ Hdst). by rewrite insert_all_range.
Qed.

(** The clone is a new node with four new maps that hold the entries of the
    source's maps; nothing of the old heap changes. *)
Lemma ExpressionNode_clone_spec `{GoEnv} (h : heap) n v :
  GoEnvOk _ →
  Expression_view h n = Some v →
  ∃ l e' h', ExpressionNode_clone n h = Ok (Some l) h' ∧
    h ⊆ h' ∧ h !! l = None ∧
    h' !! l = Some (OExpression e') ∧
    Expression_view h' (Some l) = Some v ∧
    (∀ p, p ∈ [Refs e'; Params e'; Aliases e'; Holes e'] →
          ∃ lm, p = Some lm ∧ h !! lm = None).
Proof.
  intros Hok Hv.
  pose proof Hv as (l0 & e & -> & Hl0 & Hsep & Hr & Hp & Ha & Hh & HA & HE)%Expression_view_Some.
  unfold ExpressionNode_clone.
  assert (load_Expression (Some l0) h = Ok e h) as Hload.
  { unfold load_Expression. by mstep (load_Some _ _ _ Hl0). }
  mstep Hload.
  destruct (alloc_fresh (OStrMap ∅) h) as (refs & Hrefs & E1). mstep E1.
  destruct (alloc_fresh (OIfaceMap ∅) (<[refs:=OStrMap ∅]> h))
    as (params & Hparams & E2). mstep E2.
  destruct (alloc_fresh (OStrMap ∅) (<[params:=OIfaceMap ∅]> (<[refs:=OStrMap ∅]> h)))
    as (aliases & Haliases & E3). mstep E3.
  destruct (alloc_fresh (OStrMap ∅)
    (<[aliases:=OStrMap ∅]> (<[params:=OIfaceMap ∅]> (<[refs:=OStrMap ∅]> h))))
    as (holes & Hholes & E4). mstep E4.
  set (e' := {| Action := Action e; Entity := Entity e; Refs := Some refs;
                Params := Some params; Aliases := Some aliases;
                Holes := Some holes |}).
  destruct (alloc_fresh (OExpression e')
    (<[holes:=OStrMap ∅]> (<[aliases:=OStrMap ∅]>
       (<[params:=OIfaceMap ∅]> (<[refs:=OStrMap ∅]> h)))))
    as (expr & Hexpr & E5). mstep E5.
  repeat match goal with
  | Hf : <[_ := _]> _ !! _ = None |- _ => apply lookup_insert_None in Hf as [Hf ?]
  end.
  clear E1 E2 E3 E4 E5.
  rewrite <- bind_assoc. erewrite bind_Ok; last first.
  { apply copy_StrMap; [done| |by simplify_map_eq].
    eapply StrMap_at_mono; [|exact Hr]. heap_extends. }
  rewrite <- bind_assoc. erewrite bind_Ok; last first.
  { apply copy_IfaceMap; [done| |by simplify_map_eq].
    eapply IfaceMap_at_mono; [|exact Hp]. heap_extends. }
  rewrite <- bind_assoc. erewrite bind_Ok; last first.
  { apply copy_StrMap; [done| |by simplify_map_eq].
    eapply StrMap_at_mono; [|exact Ha]. heap_extends. }
  rewrite <- bind_assoc. erewrite bind_Ok; last first.
  { apply copy_StrMap; [done| |by simplify_map_eq].
    eapply StrMap_at_mono; [|exact Hh]. heap_extends. }
  eexists expr, e', _. split; [reflexivity|].
  split; [heap_extends|]. split; [done|].
  split; [by simplify_map_eq|]. split.
  - apply Expression_view_Some. exists expr, e'.
    split_and!; simpl; try done; by simplify_map_eq.
  - intros p Hp'. set_unfold in Hp'.
    destruct Hp' as [->|[->|[->|[->|[]]]]]; simpl; eauto.
Qed.

(** ** Cloning the other nodes *)

Lemma Identifier_at_Some (h : heap) n i :
  Identifier_at h n = Some i ↔ ∃ l, n = Some l ∧ h !! l = Some (OIdentifier i).
Proof.
  split.
  - destruct n as [l|]; simpl; [|done].
    destruct (h !! l) as [[]|] eqn:Hl; try done. intros [= <-]. eauto.
  - intros (l & -> & Hl). simpl. by rewrite Hl.
Qed.

Lemma Identifier_at_mono (h h' : heap) n i :
  h ⊆ h' → Identifier_at h n = Some i → Identifier_at h' n = Some i.
Proof.
  intros Hsub. rewrite !Identifier_at_Some. intros (l & -> & Hl).
  exists l. eauto using lookup_weaken.
Qed.

Lemma load_Identifier_at (h : heap) n i :
  Identifier_at h n = Some i → load_Identifier n h = Ok i h.
Proof.
  intros (l & -> & Hl)%Identifier_at_Some.
  unfold load_Identifier. by mstep (load_Some _ _ _ Hl).
Qed.

Lemma IdentifierNode_clone_spec (h : heap) n i :
  Identifier_at h n = Some i →
  ∃ l, h !! l = None ∧
       IdentifierNode_clone n h = Ok (Some l) (<[l := OIdentifier i]> h).
Proof.
  intros Hi. unfold IdentifierNode_clone. mstep (load_Identifier_at _ _ _ Hi).
  destruct (alloc_fresh (OIdentifier {| Ident := Ident i; Val := Val i |}) h)
    as (l & Hl & E).
  mstep E. exists l. split; [done|]. by destruct i.
Qed.

Lemma Var_view_Some (h : heap) n v :
  Var_view h n = Some v ↔
  ∃ l vn i, n = Some l ∧ h !! l = Some (OVar vn) ∧
    Identifier_at h (VarI vn) = Some i ∧
    StrMap_at h (Hole vn) = Some (vHole v) ∧
    Ident i = vIdent v ∧ Val i = vVal v.
Proof.
  split.
  - destruct n as [l|]; simpl; [|done].
    destruct (h !! l) as [[| | |vn| | |]|] eqn:Hl; try done.
    destruct (VarI vn) as [li|] eqn:HI; [|done].
    destruct (h !! li) as [[| |i| | | |]|] eqn:Hli; try done.
    destruct (StrMap_at h (Hole vn)) as [m|] eqn:Hm; [|done].
    simpl. intros Hv. simplify_eq. exists l, vn, i.
    rewrite HI. simpl. by rewrite Hli.
  - intros (l & vn & i & -> & Hl & (li & HI & Hli)%Identifier_at_Some & Hm & H1 & H2).
    simpl. rewrite Hl, HI, Hli, Hm. simpl. destruct v; simpl in *; by subst.
Qed.

Lemma Var_view_mono (h h' : heap) n v :
  h ⊆ h' → Var_view h n = Some v → Var_view h' n = Some v.
Proof.
  intros Hsub. rewrite !Var_view_Some.
  intros (l & vn & i & -> & Hl & Hi & Hm & H1 & H2).
  exists l, vn, i. split_and!;
    eauto using StrMap_at_mono, Identifier_at_mono, lookup_weaken.
Qed.

Lemma load_Var_view (h : heap) l vn :
  h !! l = Some (OVar vn) → load_Var (Some l) h = Ok vn h.
Proof. intros Hl. unfold load_Var. by mstep (load_Some _ _ _ Hl). Qed.

Lemma VarNode_clone_spec (h : heap) n v :
  Var_view h n = Some v →
  ∃ l h', VarNode_clone n h = Ok (Some l) h' ∧
    h ⊆ h' ∧ h !! l = None ∧
    (∃ vn, h' !! l = Some (OVar vn)) ∧
    Var_view h' (Some l) =
      Some {| vIdent := vIdent v; vVal := vVal v; vHole := ∅ |}.
Proof.
  intros (l0 & vn & i & -> & Hl0 & Hi & Hm & H1 & H2)%Var_view_Some.
  unfold VarNode_clone. mstep (load_Var_view _ _ _ Hl0).
  destruct (IdentifierNode_clone_spec _ _ _ Hi) as (li & Hli & E1). mstep E1.
  destruct (alloc_fresh (OStrMap ∅) (<[li:=OIdentifier i]> h))
    as (hole & Hhole & E2). mstep E2.
  destruct (alloc_fresh (OVar {| VarI := Some li; Hole := Some hole |})
    (<[hole:=OStrMap ∅]> (<[li:=OIdentifier i]> h))) as (l & Hl & E3).
  mstep E3.
  repeat match goal with
  | Hf : <[_ := _]> _ !! _ = None |- _ => apply lookup_insert_None in Hf as [Hf ?]
  end.
  eexists l, _. split; [reflexivity|]. split; [heap_extends|].
  split; [done|]. split; [rewrite lookup_insert_eq; eauto|].
  apply Var_view_Some. exists l, {| VarI := Some li; Hole := Some hole |}, i.
  split_and!; simpl; try done; by simplify_map_eq.
Qed.

Lemma DeclarationNode_clone_spec `{GoEnv} (h : heap) l0 d left right :
  GoEnvOk _ →
  h !! l0 = Some (ODeclaration d) →
  Identifier_at h (Left d) = Some left →
  Expression_view h (Right d) = Some right →
  ∃ l d' h', DeclarationNode_clone (Some l0) h = Ok (Some l) h' ∧
    h ⊆ h' ∧ h !! l = None ∧
    h' !! l = Some (ODeclaration d') ∧
    Identifier_at h' (Left d') = Some left ∧
    Expression_view h' (Right d') = Some right.
Proof.
  intros Hok Hl0 Hleft Hright. unfold DeclarationNode_clone.
  assert (load_Declaration (Some l0) h = Ok d h) as Hload.
  { unfold load_Declaration. by mstep (load_Some _ _ _ Hl0). }
  mstep Hload.
  destruct (IdentifierNode_clone_spec _ _ _ Hleft) as (li & Hli & E1). mstep E1.
  assert (h ⊆ <[li:=OIdentifier left]> h) as Hsub1 by heap_extends.
  destruct (ExpressionNode_clone_spec _ _ _ Hok
    (Expression_view_mono _ _ _ _ Hsub1 Hright))
    as (le & e' & h2 & E2 & Hsub2 & Hle & Hle' & Hview & _).
  mstep E2.
  destruct (alloc_fresh (ODeclaration {| Left := Some li; Right := Some le |}) h2)
    as (l & Hl & E3).
  mstep E3.
  assert (h ⊆ h2) as Hsub by (by etrans).
  assert (h2 !! li = Some (OIdentifier left)) as Hli2.
  { eapply lookup_weaken; [apply lookup_insert_eq|exact Hsub2]. }
  assert (l ≠ li) by (intros ->; congruence).
  eexists l, _, _. split; [reflexivity|].
  split; [by apply insert_subseteq_r; [eapply lookup_weaken_None|]|].
  split; [by eapply lookup_weaken_None|].
  split; [by simplify_map_eq|]. cbn [Left Right]. split.
  - apply Identifier_at_Some. exists li. by rewrite lookup_insert_ne.
  - eapply Expression_view_mono; [|exact Hview]. by apply insert_subseteq.
Qed.

Lemma Node_view_mono (h h' : heap) n nv :
  h ⊆ h' → Node_view h n = Some nv → Node_view h' n = Some nv.
Proof.
  intros Hsub. destruct n as [l|]; [|done]. unfold Node_view.
  destruct (h !! l) as [o|] eqn:Hl; [|done].
  rewrite (lookup_weaken _ _ _ _ Hl Hsub).
  destruct o as [| |i|vn|d|e|]; try done.
  - destruct (Var_view h (Some l)) as [v|] eqn:Hv; [|done].
    by rewrite (Var_view_mono _ _ _ _ Hsub Hv).
  - destruct (Identifier_at h (Left d)) as [i|] eqn:Hi; [|done].
    destruct (Expression_view h (Right d)) as [r|] eqn:Hr; [|done].
    by rewrite (Identifier_at_mono _ _ _ _ Hsub Hi),
      (Expression_view_mono _ _ _ _ Hsub Hr).
  - destruct (Expression_view h (Some l)) as [v|] eqn:Hv; [|done].
    by rewrite (Expression_view_mono _ _ _ _ Hsub Hv).
Qed.

(** [clone] on any node returns a new node that views as [clone_view] of the
    source, and leaves the old heap as it was. *)
Lemma Node_clone_spec `{GoEnv} (h : heap) n nv :
  GoEnvOk _ →
  Node_view h n = Some nv →
  ∃ l h', Node_clone n h = Ok (Some l) h' ∧
    h ⊆ h' ∧ h !! l = None ∧
    Node_view h' (Some l) = Some (clone_view nv).
Proof.
  intros Hok Hnv. destruct n as [l0|]; [|done].
  unfold Node_view in Hnv. unfold Node_clone.
  destruct (h !! l0) as [o|] eqn:Hl0; [|done].
  mstep (load_Some _ _ _ Hl0).
  destruct o as [| |i|vn|d|e|]; try done.
  - injection Hnv as <-.
    destruct (IdentifierNode_clone_spec h (Some l0) i) as (l & Hl & E).
    { simpl. by rewrite Hl0. }
    exists l, (<[l:=OIdentifier i]> h). split; [done|].
    split; [heap_extends|]. split; [done|]. simpl. by rewrite lookup_insert_eq.
  - destruct (Var_view h (Some l0)) as [v|] eqn:Hv; [|done].
    injection Hnv as <-.
    destruct (VarNode_clone_spec _ _ _ Hv) as (l & h' & E & Hsub & Hl & [vn' Hl'] & Hv').
    exists l, h'. split; [done|]. split; [done|]. split; [done|].
    unfold Node_view. rewrite Hl'. by rewrite Hv'.
  - destruct (Identifier_at h (Left d)) as [i|] eqn:Hi; [|done].
    destruct (Expression_view h (Right d)) as [r|] eqn:Hr; [|done].
    injection Hnv as <-.
    destruct (DeclarationNode_clone_spec _ _ _ _ _ Hok Hl0 Hi Hr)
      as (l & d' & h' & E & Hsub & Hl & Hl' & Hi' & Hr').
    exists l, h'. split; [done|]. split; [done|]. split; [done|].
    unfold Node_view. rewrite Hl'. by rewrite Hi', Hr'.
  - destruct (Expression_view h (Some l0)) as [v|] eqn:Hv; [|done].
    injection Hnv as <-.
    destruct (ExpressionNode_clone_spec _ _ _ Hok Hv)
      as (l & e' & h' & E & Hsub & Hl & Hl' & Hv' & _).
    exists l, h'. split; [done|]. split; [done|]. split; [done|].
    unfold Node_view. rewrite Hl'. by rewrite Hv'.
Qed.

Lemma Statement_at_Some (h : heap) s st :
  Statement_at h s = Some st ↔ ∃ l, s = Some l ∧ h !! l = Some (OStatement st).
Proof.
  split.
  - destruct s as [l|]; simpl; [|done].
    destruct (h !! l) as [[]|] eqn:Hl; try done. intros [= <-]. eauto.
  - intros (l & -> & Hl). simpl. by rewrite Hl.
Qed.

Lemma Statement_at_mono (h h' : heap) s st :
  h ⊆ h' → Statement_at h s = Some st → Statement_at h' s = Some st.
Proof.
  intros Hsub. rewrite !Statement_at_Some. intros (l & -> & Hl).
  exists l. eauto using lookup_weaken.
Qed.

Lemma Statement_clone_spec `{GoEnv} (h : heap) s st nv :
  GoEnvOk _ →
  Statement_at h s = Some st →
  Node_view h (Node st) = Some nv →
  ∃ l node h', Statement_clone s h = Ok (Some l) h' ∧
    h ⊆ h' ∧ h !! l = None ∧
    Statement_at h' (Some l) =
      Some {| Node := node; Result := Result st; Line := ""; Err := Err st |} ∧
    Node_view h' node = Some (clone_view nv).
Proof.
  intros Hok Hst Hnv. unfold Statement_clone.
  mstep (load_Statement_at _ _ _ Hst).
  destruct (Node_clone_spec _ _ _ Hok Hnv) as (ln & h1 & E1 & Hsub & Hln & Hv).
  mstep E1.
  destruct (alloc_fresh (OStatement
    {| Node := Some ln; Result := Result st; Line := ""; Err := Err st |}) h1)
    as (l & Hl & E2).
  mstep E2. eexists l, (Some ln), _. split; [reflexivity|].
  split; [by apply insert_subseteq_r; [eapply lookup_weaken_None|]|].
  split; [by eapply lookup_weaken_None|]. split.
  - simpl. by rewrite lookup_insert_eq.
  - eapply Node_view_mono; [|exact Hv]. by apply insert_subseteq.
Qed.


(** ** Resolution on the contents of the maps *)

Lemma resolved_insert fills (m : gmap string string) k name :
  m !! k = None →
  resolved fills (<[k := name]> m) =
    match fills !! name with
    | Some val => <[k := val]> (resolved fills m)
    | None => resolved fills m
    end.
Proof.
  intros Hk. unfold resolved. rewrite omap_insert.
  destruct (fills !! name); [done|].
  apply delete_id. by rewrite lookup_omap, Hk.
Qed.

Lemma resolve_entries fills kvs params origin processed :
  NoDup kvs.*1 →
  foldl (resolve_entry fills) (params, origin, processed) kvs =
    (resolved fills (list_to_map kvs) ∪ params,
     filter (λ kv, resolved fills (list_to_map kvs) !! kv.1 = None) origin,
     resolved fills (list_to_map kvs) ∪ processed).
Proof.
  revert params origin processed.
  induction kvs as [|[k name] kvs IH]; intros params origin processed Hnd.
  { simpl. unfold resolved. rewrite omap_empty, !(left_id_L ∅ (∪)).
    rewrite map_filter_id; [done|]. intros i x _. simpl. apply lookup_empty. }
  apply NoDup_cons in Hnd as [Hk Hnd].
  assert ((list_to_map kvs : gmap string string) !! k = None) as Hnone
    by by apply not_elem_of_list_to_map_1.
  cbn [foldl list_to_map foldr]. rewrite resolved_insert by done.
  unfold resolve_entry at 2. cbn [fst snd].
  destruct (fills !! name) as [val|]; [|by apply IH].
  rewrite IH by done.
  assert (resolved fills (list_to_map kvs) !! k = None) as Hrk
    by (unfold resolved; by rewrite lookup_omap, Hnone).
  f_equal; [f_equal|].
  - rewrite <- insert_union_l. by rewrite insert_union_r.
  - apply map_eq. intros i. rewrite !map_lookup_filter.
    destruct (decide (i = k)) as [->|Hne].
    + rewrite lookup_delete_eq. simpl.
      destruct (origin !! k) as [x|]; simpl; [|done].
      rewrite option_guard_False; [done|]. simpl. by rewrite lookup_insert_eq.
    + rewrite lookup_delete_ne by done.
      destruct (origin !! i) as [x|]; simpl; [|done].
      by rewrite lookup_insert_ne by done.
  - rewrite <- insert_union_l. by rewrite insert_union_r.
Qed.

Lemma filter_resolved fills (m : gmap string string) :
  filter (λ kv, resolved fills m !! kv.1 = None) m = unresolved fills m.
Proof.
  unfold unresolved. apply map_filter_ext. intros i name Hi. simpl.
  unfold resolved. rewrite lookup_omap, Hi. simpl. done.
Qed.

(** Walking the entries of a map in any order resolves exactly the entries
    whose name has a fill. *)
Lemma resolve_range `{GoEnv} fills (m : gmap string string) params :
  GoEnvOk _ →
  foldl (resolve_entry fills) (params, m, ∅) (map_range _ m) =
    (resolved fills m ∪ params, unresolved fills m, resolved fills m).
Proof.
  intros Hok.
  assert (NoDup (map_range _ m).*1) as Hnd
    by (rewrite (Hok _ m); apply NoDup_fst_map_to_list).
  rewrite resolve_entries by done.
  assert (list_to_map (map_range _ m) = m) as ->.
  { rewrite (list_to_map_proper _ (map_to_list m)); [|done|apply Hok].
    apply list_to_map_to_list. }
  by rewrite filter_resolved, (right_id_L ∅ (∪)).
Qed.

(** ** One resolved entry, on the heap *)

Lemma load_Expression_Some (h : heap) l e :
  h !! l = Some (OExpression e) → load_Expression (Some l) h = Ok e h.
Proof. intros Hl. unfold load_Expression. by mstep (load_Some _ _ _ Hl). Qed.

Lemma StrMap_at_Some (h : heap) l m :
  StrMap_at h (Some l) = Some m ↔ h !! l = Some (OStrMap m).
Proof.
  simpl. destruct (h !! l) as [[]|]; split; intros Heq; by simplify_eq.
Qed.

Lemma IfaceMap_at_Some (h : heap) l m :
  IfaceMap_at h (Some l) = Some m ↔ h !! l = Some (OIfaceMap m).
Proof.
  simpl. destruct (h !! l) as [[]|]; split; intros Heq; by simplify_eq.
Qed.

Lemma StrMap_at_insert_ne (h : heap) p l o :
  p ≠ Some l → StrMap_at (<[l := o]> h) p = StrMap_at h p.
Proof.
  intros Hne. destruct p as [l'|]; simpl; [|done].
  rewrite lookup_insert_ne; [done|congruence].
Qed.

Lemma IfaceMap_at_insert_ne (h : heap) p l o :
  p ≠ Some l → IfaceMap_at (<[l := o]> h) p = IfaceMap_at h p.
Proof.
  intros Hne. destruct p as [l'|]; simpl; [|done].
  rewrite lookup_insert_ne; [done|congruence].
Qed.

(** A pointer that reads as a map of strings is not the location of an
    object of another kind. *)
Lemma StrMap_at_ne (h : heap) p m l o :
  StrMap_at h p = Some m → h !! l = Some o →
  (∀ m', o ≠ OStrMap m') → p ≠ Some l.
Proof.
  intros Hp Hl Ho ->. apply StrMap_at_Some in Hp. rewrite Hl in Hp.
  injection Hp as ->. by eapply Ho.
Qed.

Lemma StrMap_at_ne_fresh (h : heap) p m l :
  StrMap_at h p = Some m → h !! l = None → p ≠ Some l.
Proof. intros Hp Hl ->. apply StrMap_at_Some in Hp. congruence. Qed.

Lemma IfaceMap_at_ne (h : heap) p m l o :
  IfaceMap_at h p = Some m → h !! l = Some o →
  (∀ m', o ≠ OIfaceMap m') → p ≠ Some l.
Proof.
  intros Hp Hl Ho ->. apply IfaceMap_at_Some in Hp. rewrite Hl in Hp.
  injection Hp as ->. by eapply Ho.
Qed.

(** [ensure_Params] leaves the view as it is and makes the Params field a
    map object. *)
Lemma ensure_Params_spec (h : heap) l e v :
  h !! l = Some (OExpression e) →
  Expression_view h (Some l) = Some v →
  ∃ h' e' lp, ensure_Params (Some l) h = Ok () h' ∧
    h' !! l = Some (OExpression e') ∧
    Params e' = Some lp ∧ h' !! lp = Some (OIfaceMap (vParams v)) ∧
    Refs e' = Refs e ∧ Aliases e' = Aliases e ∧ Holes e' = Holes e ∧
    Action e' = Action e ∧ Entity e' = Entity e ∧
    (Params e = Some lp ∨ Params e = None ∧ h !! lp = None) ∧
    Expression_view h' (Some l) = Some v ∧
    (∀ l0, l0 ≠ l → l0 ≠ lp → h' !! l0 = h !! l0).
Proof.
  intros Hl Hv.
  pose proof Hv as (l' & e0 & [= <-] & Hl' & Hsep & Hr & Hp & Ha & Hh & HA & HE)%Expression_view_Some.
  rewrite Hl in Hl'. injection Hl' as <-.
  unfold ensure_Params. mstep (load_Expression_Some _ _ _ Hl).
  destruct (Params e) as [lp|] eqn:HP.
  - apply IfaceMap_at_Some in Hp.
    exists h, e, lp. split_and!; auto.
  - simpl in Hp. injection Hp as Hp.
    destruct (alloc_fresh (OIfaceMap ∅) h) as (lp & Hlp & E). mstep E.
    set (e' := {| Action := Action e; Entity := Entity e; Refs := Refs e;
      Params := Some lp; Aliases := Aliases e; Holes := Holes e |}).
    assert (lp ≠ l) by congruence.
    exists (<[l := OExpression e']> (<[lp := OIfaceMap ∅]> h)), e', lp.
    split; [done|]. split; [by simplify_map_eq|]. split; [done|].
    split; [rewrite <- Hp; by simplify_map_eq|].
    split_and!; auto.
    + apply Expression_view_Some. exists l, e'.
      split; [done|]. split; [by simplify_map_eq|]. split; [done|].
      cbn [Refs Params Aliases Holes Action Entity e'].
      rewrite !StrMap_at_insert_ne, Hr, Ha, Hh;
        eauto using StrMap_at_ne, StrMap_at_ne_fresh.
      split_and!; try done. apply IfaceMap_at_Some. rewrite <- Hp.
      by simplify_map_eq.
    + intros l0 ? ?. by rewrite !lookup_insert_ne.
Qed.

Lemma with_same (v : ExprView) :
  with_Params v (vParams v) = v ∧ with_Refs v (vRefs v) = v ∧
  with_Aliases v (vAliases v) = v ∧ with_Holes v (vHoles v) = v.
Proof. by destruct v. Qed.

(** Writing new contents into one of the maps of a node changes that map of
    the view and nothing else. *)
Lemma Expression_view_store_Params (h : heap) l e v lp params :
  h !! l = Some (OExpression e) →
  Expression_view h (Some l) = Some v →
  Params e = Some lp →
  Expression_view (<[lp := OIfaceMap params]> h) (Some l) =
    Some (with_Params v params).
Proof.
  intros Hl Hv HP.
  pose proof Hv as (l' & e0 & [= <-] & Hl' & Hsep & Hr & Hp & Ha & Hh & HA & HE)%Expression_view_Some.
  rewrite Hl in Hl'. injection Hl' as <-. rewrite HP in Hp.
  apply IfaceMap_at_Some in Hp.
  apply Expression_view_Some. exists l, e.
  split; [done|]. split; [rewrite lookup_insert_ne; [done|congruence]|].
  split; [done|].
  rewrite !StrMap_at_insert_ne, Hr, Ha, Hh by eauto using StrMap_at_ne.
  rewrite HP. split_and!; try done.
  apply IfaceMap_at_Some. by rewrite lookup_insert_eq.
Qed.

Lemma Expression_view_store_Holes (h : heap) l e v lh holes :
  h !! l = Some (OExpression e) →
  Expression_view h (Some l) = Some v →
  Holes e = Some lh →
  Expression_view (<[lh := OStrMap holes]> h) (Some l) =
    Some (with_Holes v holes).
Proof.
  intros Hl Hv HH.
  pose proof Hv as (l' & e0 & [= <-] & Hl' & (S1 & S2 & S3) & Hr & Hp & Ha & Hh & HA & HE)%Expression_view_Some.
  rewrite Hl in Hl'. injection Hl' as <-. rewrite HH in Hh, S2, S3.
  apply StrMap_at_Some in Hh.
  apply Expression_view_Some. exists l, e.
  split; [done|]. split; [rewrite lookup_insert_ne; [done|congruence]|].
  split; [by rewrite HH|].
  rewrite IfaceMap_at_insert_ne, Hp by eauto using IfaceMap_at_ne.
  rewrite (StrMap_at_insert_ne _ (Refs e)), (StrMap_at_insert_ne _ (Aliases e)), Hr, Ha.
  - rewrite HH. split_and!; try done. apply StrMap_at_Some.
    by rewrite lookup_insert_eq.
  - destruct (Aliases e); [|done]. simpl in S3. congruence.
  - destruct (Refs e); [|done]. simpl in S2. congruence.
Qed.

Lemma Expression_view_store_Refs (h : heap) l e v lr refs :
  h !! l = Some (OExpression e) →
  Expression_view h (Some l) = Some v →
  Refs e = Some lr →
  Expression_view (<[lr := OStrMap refs]> h) (Some l) =
    Some (with_Refs v refs).
Proof.
  intros Hl Hv HR.
  pose proof Hv as (l' & e0 & [= <-] & Hl' & (S1 & S2 & S3) & Hr & Hp & Ha & Hh & HA & HE)%Expression_view_Some.
  rewrite Hl in Hl'. injection Hl' as <-. rewrite HR in Hr, S1, S2.
  apply StrMap_at_Some in Hr.
  apply Expression_view_Some. exists l, e.
  split; [done|]. split; [rewrite lookup_insert_ne; [done|congruence]|].
  split; [by rewrite HR|].
  rewrite IfaceMap_at_insert_ne, Hp by eauto using IfaceMap_at_ne.
  rewrite (StrMap_at_insert_ne _ (Aliases e)), (StrMap_at_insert_ne _ (Holes e)), Ha, Hh.
  - rewrite HR. split_and!; try done. apply StrMap_at_Some.
    by rewrite lookup_insert_eq.
  - destruct (Holes e); [|done]. simpl in S2. congruence.
  - destruct (Aliases e); [|done]. simpl in S1. congruence.
Qed.


(** The body of the loop of [ProcessHoles] for an entry whose name has a
    fill. *)
Lemma resolve_hole_entry {A} (h : heap) l e v key val (r : A) :
  h !! l = Some (OExpression e) →
  Expression_view h (Some l) = Some v →
  ∃ h' e' lp,
    (ensure_Params (Some l);;
     e ← load_Expression (Some l);
     assign_IfaceMap (Params e) key val;;
     e ← load_Expression (Some l);
     delete_StrMap (Holes e) key;;
     mret r) h = Ok r h' ∧
    h' !! l = Some (OExpression e') ∧
    Expression_view h' (Some l) =
      Some (with_Holes (with_Params v (<[key := val]> (vParams v)))
                       (delete key (vHoles v))) ∧
    Holes e' = Holes e ∧ Refs e' = Refs e ∧ Aliases e' = Aliases e ∧
    Params e' = Some lp ∧
    (Params e = Some lp ∨ Params e = None ∧ h !! lp = None) ∧
    (∀ l0, l0 ≠ l → Some l0 ≠ Holes e → l0 ≠ lp → h' !! l0 = h !! l0).
Proof.
  intros Hl Hv.
  destruct (ensure_Params_spec _ _ _ _ Hl Hv)
    as (h1 & e1 & lp & E1 & Hl1 & HP1 & Hlp1 & HR & HA & HH & _ & _ & Hfresh & Hv1 & Hframe1).
  mstep E1. mstep (load_Expression_Some _ _ _ Hl1). rewrite HP1.
  mstep (assign_IfaceMap_Some _ _ _ key val Hlp1).
  assert (lp ≠ l) as Hne by (intros ->; congruence).
  set (h2 := <[lp := OIfaceMap (<[key:=val]> (vParams v))]> h1).
  assert (h2 !! l = Some (OExpression e1)) as Hl2
    by (subst h2; by rewrite lookup_insert_ne).
  assert (Expression_view h2 (Some l) =
    Some (with_Params v (<[key:=val]> (vParams v)))) as Hv2
    by (by eapply Expression_view_store_Params).
  mstep (load_Expression_Some _ _ _ Hl2).
  destruct (Holes e1) as [lh|] eqn:HH1.
  - assert (h2 !! lh = Some (OStrMap (vHoles v))) as Hlh.
    { apply Expression_view_Some in Hv2
        as (l' & e0 & [= <-] & Hl' & _ & _ & _ & _ & Hh & _).
      rewrite Hl2 in Hl'. injection Hl' as <-. rewrite HH1 in Hh.
      by apply StrMap_at_Some in Hh. }
    mstep (delete_StrMap_Some _ _ _ key Hlh).
    exists (<[lh := OStrMap (delete key (vHoles v))]> h2), e1, lp.
    split; [done|].
    split; [rewrite lookup_insert_ne; [done|congruence]|].
    split; [by eapply Expression_view_store_Holes|].
    split_and!; try done; try congruence.
    intros l0 ? Hne0 ?. rewrite <- HH in Hne0.
    rewrite lookup_insert_ne by congruence. subst h2.
    rewrite lookup_insert_ne by done. by apply Hframe1.
  - unfold delete_StrMap. rewrite ret_bind.
    exists h2, e1, lp. split; [done|]. split; [done|]. split.
    + rewrite Hv2. f_equal.
      apply Expression_view_Some in Hv2
        as (l' & e0 & [= <-] & Hl' & _ & _ & _ & _ & Hh & _).
      rewrite Hl2 in Hl'. injection Hl' as <-. rewrite HH1 in Hh.
      assert (vHoles v = ∅) as Hempty by (simpl in Hh; congruence).
      unfold with_Holes. cbn. rewrite Hempty, delete_empty.
      unfold with_Params. by rewrite <- Hempty.
    + split_and!; try done; try congruence. intros l0 ? Hne0 ?. subst h2.
      rewrite lookup_insert_ne by done. by apply Hframe1.
Qed.

(** The body of the loop of [ProcessRefs] for an entry whose name has a
    fill. *)
Lemma resolve_ref_entry {A} (h : heap) l e v key val (r : A) :
  h !! l = Some (OExpression e) →
  Expression_view h (Some l) = Some v →
  ∃ h' e' lp,
    (ensure_Params (Some l);;
     e ← load_Expression (Some l);
     assign_IfaceMap (Params e) key val;;
     e ← load_Expression (Some l);
     delete_StrMap (Refs e) key;;
     mret r) h = Ok r h' ∧
    h' !! l = Some (OExpression e') ∧
    Expression_view h' (Some l) =
      Some (with_Refs (with_Params v (<[key := val]> (vParams v)))
                      (delete key (vRefs v))) ∧
    Holes e' = Holes e ∧ Refs e' = Refs e ∧ Aliases e' = Aliases e ∧
    Params e' = Some lp ∧
    (Params e = Some lp ∨ Params e = None ∧ h !! lp = None) ∧
    (∀ l0, l0 ≠ l → Some l0 ≠ Refs e → l0 ≠ lp → h' !! l0 = h !! l0).
Proof.
  intros Hl Hv.
  destruct (ensure_Params_spec _ _ _ _ Hl Hv)
    as (h1 & e1 & lp & E1 & Hl1 & HP1 & Hlp1 & HH & HA & HR & _ & _ & Hfresh & Hv1 & Hframe1).
  mstep E1. mstep (load_Expression_Some _ _ _ Hl1). rewrite HP1.
  mstep (assign_IfaceMap_Some _ _ _ key val Hlp1).
  assert (lp ≠ l) as Hne by (intros ->; congruence).
  set (h2 := <[lp := OIfaceMap (<[key:=val]> (vParams v))]> h1).
  assert (h2 !! l = Some (OExpression e1)) as Hl2
    by (subst h2; by rewrite lookup_insert_ne).
  assert (Expression_view h2 (Some l) =
    Some (with_Params v (<[key:=val]> (vParams v)))) as Hv2
    by (by eapply Expression_view_store_Params).
  mstep (load_Expression_Some _ _ _ Hl2).
  destruct (Refs e1) as [lh|] eqn:HH1.
  - assert (h2 !! lh = Some (OStrMap (vRefs v))) as Hlh.
    { apply Expression_view_Some in Hv2
        as (l' & e0 & [= <-] & Hl' & _ & Hh & _).
      rewrite Hl2 in Hl'. injection Hl' as <-. rewrite HH1 in Hh.
      by apply StrMap_at_Some in Hh. }
    mstep (delete_StrMap_Some _ _ _ key Hlh).
    exists (<[lh := OStrMap (delete key (vRefs v))]> h2), e1, lp.
    split; [done|].
    split; [rewrite lookup_insert_ne; [done|congruence]|].
    split; [by eapply Expression_view_store_Refs|].
    split_and!; try done; try congruence.
    intros l0 ? Hne0 ?. rewrite <- HH in Hne0.
    rewrite lookup_insert_ne by congruence. subst h2.
    rewrite lookup_insert_ne by done. by apply Hframe1.
  - unfold delete_StrMap. rewrite ret_bind.
    exists h2, e1, lp. split; [done|]. split; [done|]. split.
    + rewrite Hv2. f_equal.
      apply Expression_view_Some in Hv2
        as (l' & e0 & [= <-] & Hl' & _ & Hh & _).
      rewrite Hl2 in Hl'. injection Hl' as <-. rewrite HH1 in Hh.
      assert (vRefs v = ∅) as Hempty by (simpl in Hh; congruence).
      unfold with_Refs. cbn. rewrite Hempty, delete_empty.
      unfold with_Params. by rewrite <- Hempty.
    + split_and!; try done; try congruence. intros l0 ? Hne0 ?. subst h2.
      rewrite lookup_insert_ne by done. by apply Hframe1.
Qed.

(** ** The resolution loops *)

Lemma ProcessHoles_loop fills l kvs : ∀ (h : heap) e v processed,
  h !! l = Some (OExpression e) →
  Expression_view h (Some l) = Some v →
  let st := foldl (resolve_entry fills) (vParams v, vHoles v, processed) kvs in
  ∃ h' e',
    foldM (λ processed '(key, hole),
             match fills !! hole with
             | Some val =>
                 ensure_Params (Some l);;
                 e ← load_Expression (Some l);
                 assign_IfaceMap (Params e) key val;;
                 let processed := <[key := val]> processed in
                 e ← load_Expression (Some l);
                 delete_StrMap (Holes e) key;;
                 mret processed
             | None => mret processed
             end)
          processed kvs h = Ok st.2 h' ∧
    h' !! l = Some (OExpression e') ∧
    Expression_view h' (Some l) = Some (with_Holes (with_Params v st.1.1) st.1.2) ∧
    Holes e' = Holes e ∧ Refs e' = Refs e ∧ Aliases e' = Aliases e ∧
    (Params e' = Params e ∨
     Params e = None ∧ ∃ lp, Params e' = Some lp ∧ h !! lp = None) ∧
    (∀ l0, l0 ≠ l → Some l0 ≠ Holes e → Some l0 ≠ Params e' →
           h' !! l0 = h !! l0).
Proof.
  induction kvs as [|[key hole] kvs IH]; intros h e v processed Hl Hv; cbn zeta.
  { exists h, e. cbn [foldl foldM fst snd].
    destruct (with_same v) as (-> & _ & _ & ->). split_and!; auto. }
  cbn [foldl foldM]. unfold resolve_entry at 2 4 6. cbn [fst snd].
  destruct (fills !! hole) as [val|] eqn:Hfill; [|rewrite ret_bind; by apply IH].
  destruct (resolve_hole_entry h l e v key val (<[key:=val]> processed) Hl Hv)
    as (h1 & e1 & lp & E & Hl1 & Hv1 & HH1 & HR1 & HA1 & HP1 & Hfresh & Hframe1).
  destruct (IH h1 e1 _ (<[key:=val]> processed) Hl1 Hv1)
    as (h' & e' & E' & Hl' & Hv' & HH' & HR' & HA' & HP' & Hframe').
  cbn [vParams vHoles with_Holes with_Params] in *.
  exists h', e'. split; [by rewrite (bind_Ok _ _ _ _ _ E)|].
  split; [done|]. split; [exact Hv'|].
  assert (Params e' = Some lp) as HPe'.
  { destruct HP' as [->|[? _]]; congruence. }
  split_and!; try congruence.
  - destruct Hfresh as [?|[? ?]]; [left; congruence|right]. eauto.
  - intros l0 ? Hne0 Hne1. rewrite Hframe', Hframe1; try done; congruence.
Qed.

Lemma bind_ret_unit (c : M ()) h : (c ≫= λ _, mret ()) h = c h.
Proof. unfold mbind, M_bind. by destruct (c h) as [[] ?|]. Qed.

Lemma resolve_entry_processed fills kvs params origin processed processed' :
  (foldl (resolve_entry fills) (params, origin, processed) kvs).1 =
  (foldl (resolve_entry fills) (params, origin, processed') kvs).1.
Proof.
  revert params origin processed processed'.
  induction kvs as [|[k name] kvs IH]; intros; [done|].
  cbn [foldl]. unfold resolve_entry at 2 4. cbn [fst snd].
  destruct (fills !! name); apply IH.
Qed.

Lemma ProcessRefs_loop fills l kvs : ∀ (h : heap) e v,
  h !! l = Some (OExpression e) →
  Expression_view h (Some l) = Some v →
  let st := foldl (resolve_entry fills) (vParams v, vRefs v, ∅) kvs in
  ∃ h' e',
    forM kvs (λ '(key, ref),
             match fills !! ref with
             | Some val =>
                 ensure_Params (Some l);;
                 e ← load_Expression (Some l);
                 assign_IfaceMap (Params e) key val;;
                 e ← load_Expression (Some l);
                 delete_StrMap (Refs e) key
             | None => mret ()
             end) h = Ok () h' ∧
    h' !! l = Some (OExpression e') ∧
    Expression_view h' (Some l) = Some (with_Refs (with_Params v st.1.1) st.1.2) ∧
    Holes e' = Holes e ∧ Refs e' = Refs e ∧ Aliases e' = Aliases e ∧
    (Params e' = Params e ∨
     Params e = None ∧ ∃ lp, Params e' = Some lp ∧ h !! lp = None) ∧
    (∀ l0, l0 ≠ l → Some l0 ≠ Refs e → Some l0 ≠ Params e' →
           h' !! l0 = h !! l0).
Proof.
  induction kvs as [|[key ref] kvs IH]; intros h e v Hl Hv; cbn zeta.
  { exists h, e. cbn [foldl forM fst snd].
    destruct (with_same v) as (-> & -> & _ & _). split_and!; auto. }
  cbn [foldl forM]. unfold resolve_entry at 2 4. cbn [fst snd].
  destruct (fills !! ref) as [val|] eqn:Hfill; [|rewrite ret_bind; by apply IH].
  destruct (resolve_ref_entry h l e v key val () Hl Hv)
    as (h1 & e1 & lp & E & Hl1 & Hv1 & HH1 & HR1 & HA1 & HP1 & Hfresh & Hframe1).
  destruct (IH h1 e1 _ Hl1 Hv1)
    as (h' & e' & E' & Hl' & Hv' & HH' & HR' & HA' & HP' & Hframe').
  cbn [vParams vRefs with_Refs with_Params fst snd] in *.
  rewrite (resolve_entry_processed _ _ _ _ _ ∅).
  exists h', e'. split.
  { erewrite bind_Ok; [exact E'|].
    rewrite <- E. unfold mbind, M_bind.
    repeat match goal with
    | |- context [match ?c ?x with Ok _ _ => _ | Panic _ => _ end] =>
        destruct (c x) as [[]|]; try done
    | |- context [match ?c ?x with Ok _ _ => _ | Panic _ => _ end] =>
        destruct (c x); try done
    end. }
  split; [done|]. split; [exact Hv'|].
  assert (Params e' = Some lp) as HPe'.
  { destruct HP' as [->|[? _]]; congruence. }
  split_and!; try congruence.
  - destruct Hfresh as [?|[? ?]]; [left; congruence|right]. eauto.
  - intros l0 ? Hne0 Hne1. rewrite Hframe', Hframe1; try done; congruence.
Qed.

(** ** Resolution of an Expression node *)

Lemma Expression_locs_kind (h : heap) n v l0 :
  Expression_view h n = Some v → l0 ∈ Expression_locs h n →
  (∃ e, h !! l0 = Some (OExpression e)) ∨
  (∃ m, h !! l0 = Some (OStrMap m)) ∨
  (∃ m, h !! l0 = Some (OIfaceMap m)).
Proof.
  intros (l & e & -> & Hl & _ & Hr & Hp & Ha & Hh & _)%Expression_view_Some.
  unfold Expression_locs. rewrite Hl.
  rewrite !elem_of_union. intros [[[[Hin|Hin]|Hin]|Hin]|Hin].
  - apply elem_of_singleton in Hin as ->. eauto.
  - destruct (Refs e) as [lr|]; [|set_solver].
    simpl in Hin. apply elem_of_singleton in Hin as ->. apply StrMap_at_Some in Hr. eauto.
  - destruct (Params e) as [lr|]; [|set_solver].
    simpl in Hin. apply elem_of_singleton in Hin as ->. apply IfaceMap_at_Some in Hp. eauto.
  - destruct (Aliases e) as [lr|]; [|set_solver].
    simpl in Hin. apply elem_of_singleton in Hin as ->. apply StrMap_at_Some in Ha. eauto.
  - destruct (Holes e) as [lr|]; [|set_solver].
    simpl in Hin. apply elem_of_singleton in Hin as ->. apply StrMap_at_Some in Hh. eauto.
Qed.

Lemma not_in_Expression_locs (h : heap) l e l0 :
  h !! l = Some (OExpression e) →
  l0 ∉ Expression_locs h (Some l) →
  l0 ≠ l ∧ Some l0 ≠ Refs e ∧ Some l0 ≠ Params e ∧
  Some l0 ≠ Aliases e ∧ Some l0 ≠ Holes e.
Proof.
  intros Hl. unfold Expression_locs. rewrite Hl. intros Hnot.
  split_and!; intros Heq; apply Hnot; [subst; set_solver|..];
    rewrite <- Heq; set_solver.
Qed.

(** [ProcessHoles] on an Expression node moves exactly the entries of Holes
    whose name has a fill into Params, returns them, and changes nothing
    outside the node and its maps. *)
Lemma ExpressionNode_ProcessHoles_spec `{GoEnv} fills (h : heap) n v :
  GoEnvOk _ →
  Expression_view h n = Some v →
  ∃ h', ExpressionNode_ProcessHoles n fills h =
          Ok (resolved fills (vHoles v)) h' ∧
    Expression_view h' n =
      Some (with_Holes
              (with_Params v (resolved fills (vHoles v) ∪ vParams v))
              (unresolved fills (vHoles v))) ∧
    unchanged_outside (Expression_locs h n) h h'.
Proof.
  intros Hok Hv.
  pose proof Hv as (l & e & -> & Hl & _ & _ & _ & _ & Hh & _)%Expression_view_Some.
  unfold ExpressionNode_ProcessHoles.
  mstep (load_Expression_Some _ _ _ Hl).
  mstep (range_StrMap_at _ _ _ Hh).
  destruct (ProcessHoles_loop fills l (map_range _ (vHoles v)) h e v ∅ Hl Hv)
    as (h' & e' & E & Hl' & Hv' & HH & HR & HA & HP & Hframe).
  rewrite resolve_range in E, Hv' by done. cbn [fst snd] in *.
  exists h'. split; [exact E|]. split; [exact Hv'|].
  intros l0 Hnot Hsome.
  apply (not_in_Expression_locs _ _ _ _ Hl) in Hnot as (? & ? & ? & ? & ?).
  apply Hframe; try done.
  destruct HP as [->|(_ & lp & -> & Hlp)]; [done|].
  intros [= ->]. rewrite Hlp in Hsome. by destruct Hsome.
Qed.

Lemma ExpressionNode_ProcessRefs_spec `{GoEnv} fills (h : heap) n v :
  GoEnvOk _ →
  Expression_view h n = Some v →
  ∃ h', ExpressionNode_ProcessRefs n fills h = Ok () h' ∧
    Expression_view h' n =
      Some (with_Refs
              (with_Params v (resolved fills (vRefs v) ∪ vParams v))
              (unresolved fills (vRefs v))) ∧
    unchanged_outside (Expression_locs h n) h h'.
Proof.
  intros Hok Hv.
  pose proof Hv as (l & e & -> & Hl & _ & Hr & _)%Expression_view_Some.
  unfold ExpressionNode_ProcessRefs.
  mstep (load_Expression_Some _ _ _ Hl).
  mstep (range_StrMap_at _ _ _ Hr).
  destruct (ProcessRefs_loop fills l (map_range _ (vRefs v)) h e v Hl Hv)
    as (h' & e' & E & Hl' & Hv' & HH & HR & HA & HP & Hframe).
  rewrite resolve_range in Hv' by done. cbn [fst snd] in *.
  exists h'. split; [exact E|]. split; [exact Hv'|].
  intros l0 Hnot Hsome.
  apply (not_in_Expression_locs _ _ _ _ Hl) in Hnot as (? & ? & ? & ? & ?).
  apply Hframe; try done.
  destruct HP as [->|(_ & lp & -> & Hlp)]; [done|].
  intros [= ->]. rewrite Hlp in Hsome. by destruct Hsome.
Qed.

(** ** Resolution of a Var node *)

Lemma resolve_var_entries fills kvs val0 holes processed :
  NoDup kvs.*1 →
  ∃ val',
    foldl (resolve_var_entry fills) (val0, holes, processed) kvs =
      (val',
       filter (λ kv, resolved fills (list_to_map kvs) !! kv.1 = None) holes,
       filter (λ kv, kv.1 ∈ kvs.*2) fills ∪ processed) ∧
    ((∀ kv, kv ∈ kvs → fills !! kv.2 = None) ∧ val' = val0 ∨
     ∃ kv, kv ∈ kvs ∧ fills !! kv.2 = Some val').
Proof.
  revert val0 holes processed.
  induction kvs as [|[k name] kvs IH]; intros val0 holes processed Hnd.
  { exists val0. split.
    - simpl. unfold resolved. rewrite omap_empty.
      rewrite map_filter_id by (intros; apply lookup_empty).
      rewrite (map_empty_filter_2 (λ kv : string * value, kv.1 ∈ [])).
      + by rewrite (left_id_L ∅ (∪)).
      + intros i x _. simpl. apply not_elem_of_nil.
    - left. split; [|done]. intros kv Hkv. by apply elem_of_nil in Hkv. }
  apply NoDup_cons in Hnd as [Hk Hnd].
  assert ((list_to_map kvs : gmap string string) !! k = None) as Hnone
    by by apply not_elem_of_list_to_map_1.
  assert (resolved fills (list_to_map kvs) !! k = None) as Hrk
    by (unfold resolved; by rewrite lookup_omap, Hnone).
  cbn [foldl list_to_map foldr fmap list_fmap]. rewrite resolved_insert by done.
  unfold resolve_var_entry at 2. cbn [fst snd].
  destruct (fills !! name) as [val|] eqn:Hfill.
  - destruct (IH val (delete k holes) (<[name:=val]> processed) Hnd)
      as (val' & -> & Hval').
    exists val'. split.
    + f_equal; [f_equal|].
      * apply map_eq. intros i. rewrite !map_lookup_filter.
        destruct (decide (i = k)) as [->|Hne].
        -- rewrite lookup_delete_eq. simpl.
           destruct (holes !! k) as [x|]; simpl; [|done].
           rewrite option_guard_False; [done|]. simpl.
           by rewrite lookup_insert_eq.
        -- rewrite lookup_delete_ne by done.
           destruct (holes !! i) as [x|]; simpl; [|done].
           by rewrite lookup_insert_ne by done.
      * apply map_eq. intros i. rewrite !lookup_union, !map_lookup_filter.
        destruct (decide (i = name)) as [->|Hne].
        -- rewrite Hfill, lookup_insert_eq. simpl.
           rewrite (option_guard_True (name ∈ name :: kvs.*2))
             by (apply elem_of_cons; by left).
           simpl. destruct (guard (name ∈ kvs.*2)); simpl;
             by destruct (processed !! name).
        -- rewrite lookup_insert_ne by done.
           destruct (fills !! i) as [w|]; simpl; [|done].
           destruct (decide (i ∈ kvs.*2)) as [Hin|Hin].
           ++ assert (i ∈ name :: kvs.*2) by (apply elem_of_cons; by right).
              by rewrite !option_guard_True by done.
           ++ assert (i ∉ name :: kvs.*2)
                by (intros [?|?]%elem_of_cons; done).
              by rewrite !option_guard_False by done.
    + right. destruct Hval' as [[Hall ->]|(kv & Hin & Hkv)].
      * exists (k, name). split; [apply elem_of_cons; by left|exact Hfill].
      * exists kv. split; [apply elem_of_cons; by right|done].
  - destruct (IH val0 holes processed Hnd) as (val' & -> & Hval').
    exists val'. split.
    + f_equal. apply map_eq. intros i.
      rewrite !lookup_union, !map_lookup_filter.
      destruct (fills !! i) as [w|] eqn:Hi; simpl; [|done].
      destruct (decide (i ∈ kvs.*2)) as [Hin|Hin].
      * assert (i ∈ name :: kvs.*2) by (apply elem_of_cons; by right).
        by rewrite !option_guard_True by done.
      * assert (i ∉ name :: kvs.*2)
          by (intros [->|?]%elem_of_cons; [congruence|done]).
        by rewrite !option_guard_False by done.
    + destruct Hval' as [[Hall ->]|(kv & Hin & Hkv)].
      * left. split; [|done]. intros kv [->|?]%elem_of_cons; [done|auto].
      * right. exists kv. split; [apply elem_of_cons; by right|done].
Qed.

Lemma Var_view_node (h : heap) l v :
  Var_view h (Some l) = Some v →
  ∃ vn li i, h !! l = Some (OVar vn) ∧ VarI vn = Some li ∧
    h !! li = Some (OIdentifier i) ∧
    StrMap_at h (Hole vn) = Some (vHole v) ∧
    Ident i = vIdent v ∧ Val i = vVal v.
Proof.
  intros (l' & vn & i & [= <-] & Hl & (li & HI & Hli)%Identifier_at_Some & Hm & H1 & H2)%Var_view_Some.
  by exists vn, li, i.
Qed.

(** The body of the loop of [VarNode.ProcessHoles] for an entry whose name
    has a fill. *)
Lemma resolve_var_hole {A} (h : heap) l vn li v key val (r : A) :
  h !! l = Some (OVar vn) → VarI vn = Some li →
  Var_view h (Some l) = Some v →
  ∃ h',
    (v ← load_Var (Some l);
     i ← load_Identifier (VarI v);
     store (VarI v) (OIdentifier {| Ident := Ident i; Val := val |});;
     v ← load_Var (Some l);
     delete_StrMap (Hole v) key;;
     mret r) h = Ok r h' ∧
    h' !! l = Some (OVar vn) ∧
    Var_view h' (Some l) =
      Some {| vIdent := vIdent v; vVal := val;
              vHole := delete key (vHole v) |} ∧
    (∀ l0, l0 ≠ li → Some l0 ≠ Hole vn → h' !! l0 = h !! l0).
Proof.
  intros Hl HI Hv.
  destruct (Var_view_node _ _ _ Hv) as (vn' & li' & i & Hl' & HI' & Hli & Hm & H1 & H2).
  rewrite Hl in Hl'. injection Hl' as <-. rewrite HI in HI'. injection HI' as <-.
  mstep (load_Var_view _ _ _ Hl). rewrite HI.
  assert (load_Identifier (Some li) h = Ok i h) as Hload.
  { unfold load_Identifier. by mstep (load_Some _ _ _ Hli). }
  mstep Hload.
  set (i' := {| Ident := Ident i; Val := val |}).
  set (h1 := <[li := OIdentifier i']> h).
  assert (store (Some li) (OIdentifier i') h = Ok () h1) as Hstore by done.
  mstep Hstore.
  assert (li ≠ l) as Hne by (intros ->; congruence).
  assert (h1 !! l = Some (OVar vn)) as Hl1
    by (subst h1; by rewrite lookup_insert_ne).
  mstep (load_Var_view _ _ _ Hl1).
  assert (Hole vn ≠ Some li) as Hne2 by (eapply StrMap_at_ne; eauto; done).
  assert (StrMap_at h1 (Hole vn) = Some (vHole v)) as Hm1
    by (subst h1; by rewrite StrMap_at_insert_ne).
  destruct (Hole vn) as [lh|] eqn:HH.
  - apply StrMap_at_Some in Hm1.
    mstep (delete_StrMap_Some _ _ _ key Hm1).
    assert (lh ≠ l) by (intros ->; congruence).
    assert (lh ≠ li) by congruence.
    exists (<[lh := OStrMap (delete key (vHole v))]> h1).
    split; [done|]. split; [by rewrite lookup_insert_ne|]. split.
    + apply Var_view_Some. exists l, vn, i'. split; [done|].
      split; [by rewrite lookup_insert_ne|]. rewrite HI, HH.
      split; [apply Identifier_at_Some; exists li; split; [done|];
              subst h1; rewrite lookup_insert_ne by done;
              by rewrite lookup_insert_eq|].
      split; [apply StrMap_at_Some; by rewrite lookup_insert_eq|]. done.
    + intros l0 ? ?. subst h1. rewrite !lookup_insert_ne; [done|done|congruence].
  - unfold delete_StrMap. rewrite ret_bind.
    exists h1. split; [done|]. split; [done|]. split.
    + apply Var_view_Some. exists l, vn, i'. split; [done|].
      split; [done|]. rewrite HI, HH.
      split; [apply Identifier_at_Some; exists li; split; [done|];
              subst h1; by rewrite lookup_insert_eq|].
      simpl in Hm. injection Hm as <-. by rewrite delete_empty.
    + intros l0 ? ?. subst h1. by rewrite lookup_insert_ne.
Qed.

Lemma VarNode_ProcessHoles_loop fills l vn li kvs : ∀ (h : heap) v processed,
  h !! l = Some (OVar vn) → VarI vn = Some li →
  Var_view h (Some l) = Some v →
  let st := foldl (resolve_var_entry fills) (vVal v, vHole v, processed) kvs in
  ∃ h',
    foldM (λ processed '(key, hole),
             match fills !! hole with
             | Some val =>
                 v ← load_Var (Some l);
                 i ← load_Identifier (VarI v);
                 store (VarI v) (OIdentifier {| Ident := Ident i; Val := val |});;
                 let processed := <[hole := val]> processed in
                 v ← load_Var (Some l);
                 delete_StrMap (Hole v) key;;
                 mret processed
             | None => mret processed
             end)
          processed kvs h = Ok st.2 h' ∧
    h' !! l = Some (OVar vn) ∧
    Var_view h' (Some l) =
      Some {| vIdent := vIdent v; vVal := st.1.1; vHole := st.1.2 |} ∧
    (∀ l0, l0 ≠ li → Some l0 ≠ Hole vn → h' !! l0 = h !! l0).
Proof.
  induction kvs as [|[key hole] kvs IH]; intros h v processed Hl HI Hv; cbn zeta.
  { exists h. cbn [foldl foldM fst snd]. split_and!; auto. by destruct v. }
  cbn [foldl foldM]. unfold resolve_var_entry at 2 4 6. cbn [fst snd].
  destruct (fills !! hole) as [val|] eqn:Hfill; [|rewrite ret_bind; by apply IH].
  destruct (resolve_var_hole h l vn li v key val (<[hole:=val]> processed) Hl HI Hv)
    as (h1 & E & Hl1 & Hv1 & Hframe1).
  destruct (IH h1 _ (<[hole:=val]> processed) Hl1 HI Hv1)
    as (h' & E' & Hl' & Hv' & Hframe').
  cbn [vVal vHole vIdent] in *.
  exists h'. split; [by rewrite (bind_Ok _ _ _ _ _ E)|].
  split; [done|]. split; [exact Hv'|].
  intros l0 ? ?. by rewrite Hframe', Hframe1.
Qed.

Lemma not_in_Var_locs (h : heap) l vn l0 :
  h !! l = Some (OVar vn) →
  l0 ∉ Var_locs h (Some l) →
  l0 ≠ l ∧ Some l0 ≠ VarI vn ∧ Some l0 ≠ Hole vn.
Proof.
  intros Hl. unfold Var_locs. rewrite Hl. intros Hnot.
  split_and!; intros Heq; apply Hnot; [subst; set_solver|..];
    rewrite <- Heq; set_solver.
Qed.

(** [ProcessHoles] on a Var node removes exactly the entries of its Hole map
    whose name has a fill, binds the identifier to the fill of one of them,
    and returns the fills used, under the names of the holes. *)
Lemma VarNode_ProcessHoles_spec `{GoEnv} fills (h : heap) n v :
  GoEnvOk _ →
  Var_view h n = Some v →
  ∃ h' val', VarNode_ProcessHoles n fills h =
          Ok (requested fills (vHole v)) h' ∧
    Var_view h' n =
      Some {| vIdent := vIdent v; vVal := val';
              vHole := unresolved fills (vHole v) |} ∧
    (resolved fills (vHole v) = ∅ ∧ val' = vVal v ∨
     ∃ key hole, vHole v !! key = Some hole ∧ fills !! hole = Some val') ∧
    unchanged_outside (Var_locs h n) h h'.
Proof.
  intros Hok Hv. destruct n as [l|]; [|done].
  destruct (Var_view_node _ _ _ Hv) as (vn & li & i & Hl & HI & Hli & Hm & H1 & H2).
  unfold VarNode_ProcessHoles.
  mstep (load_Var_view _ _ _ Hl).
  mstep (range_StrMap_at _ _ _ Hm).
  destruct (VarNode_ProcessHoles_loop fills l vn li (map_range _ (vHole v))
    h v ∅ Hl HI Hv) as (h' & E & Hl' & Hv' & Hframe).
  assert (NoDup (map_range _ (vHole v)).*1) as Hnd
    by (rewrite (Hok _ (vHole v)); apply NoDup_fst_map_to_list).
  destruct (resolve_var_entries fills _ (vVal v) (vHole v) ∅ Hnd)
    as (val' & Hst & Hval').
  rewrite Hst in E, Hv'. cbn [fst snd] in *.
  assert (list_to_map (map_range _ (vHole v)) = vHole v) as Hlist.
  { rewrite (list_to_map_proper _ (map_to_list (vHole v))); [|done|apply Hok].
    apply list_to_map_to_list. }
  rewrite Hlist, filter_resolved in Hv'.
  rewrite (right_id_L ∅ (∪)) in E.
  assert (filter (λ kv : string * value, kv.1 ∈ (map_range string (vHole v)).*2) fills
          = requested fills (vHole v)) as Hreq.
  { unfold requested. apply map_filter_ext. intros x w _. simpl.
    rewrite elem_of_map_img, (Hok _ (vHole v)), list_elem_of_fmap.
    split.
    - intros ([k x'] & -> & Hin%elem_of_map_to_list). eauto.
    - intros (k & Hk). exists (k, x). split; [done|].
      by apply elem_of_map_to_list. }
  rewrite Hreq in E.
  exists h', val'. split; [exact E|]. split; [exact Hv'|]. split.
  - destruct Hval' as [[Hall ->]|([k x] & Hin & Hkv)].
    + left. split; [|done]. apply map_eq. intros k.
      unfold resolved. rewrite lookup_omap, lookup_empty.
      destruct (vHole v !! k) as [x|] eqn:Hk; [|done]. simpl.
      apply (Hall (k, x)). rewrite (Hok _ (vHole v)).
      by apply elem_of_map_to_list.
    + right. exists k, x. split; [|done].
      rewrite (Hok _ (vHole v)) in Hin. by apply elem_of_map_to_list in Hin.
  - intros l0 Hnot Hsome.
    apply (not_in_Var_locs _ _ _ _ Hl) in Hnot as (? & ? & ?).
    apply Hframe; congruence.
Qed.

(** ** What [resolved], [unresolved] and [requested] contain *)

Lemma resolved_lookup fills (m : gmap string string) k val :
  resolved fills m !! k = Some val ↔
  ∃ name, m !! k = Some name ∧ fills !! name = Some val.
Proof.
  unfold resolved. rewrite lookup_omap.
  destruct (m !! k) as [name|]; simpl; split.
  - eauto.
  - by intros (name' & [= <-] & Hf).
  - done.
  - by intros (name' & ? & ?).
Qed.

Lemma unresolved_lookup fills (m : gmap string string) k name :
  unresolved fills m !! k = Some name ↔
  m !! k = Some name ∧ fills !! name = None.
Proof. unfold unresolved. by rewrite map_lookup_filter_Some. Qed.

Lemma requested_lookup fills (m : gmap string string) name val :
  requested fills m !! name = Some val ↔
  fills !! name = Some val ∧ ∃ k, m !! k = Some name.
Proof.
  unfold requested. rewrite map_lookup_filter_Some. simpl.
  by rewrite elem_of_map_img.
Qed.

(** The example of hole partiality: holes [{a: x, b: y}] and fills
    [{x: 1}]. *)
Example resolved_partial :
  resolved {["x" := VInt 1]} {["a" := "x"; "b" := "y"]} = {["a" := VInt 1]} ∧
  unresolved {["x" := VInt 1]} {["a" := "x"; "b" := "y"]} = {["b" := "y"]}.
Proof. split; by vm_compute. Qed.

(** C2, as the code has it: on an Expression node [ProcessHoles] resolves
    exactly the entries of Holes whose hole name has a fill: the fill goes
    to Params under the entry's key, the entry leaves Holes, the entries
    without a fill stay, and the returned map holds the resolved entries as
    (key, fill).  On a Var node the same entries leave the Hole map and the
    identifier is bound to the fill of one of them, but the returned map
    holds the fills under the names of the holes, not under the keys. *)
Theorem ProcessHoles_resolves_filled `{GoEnv} (fills : gmap string value)
    (h : heap) (n : ptr) :
  GoEnvOk _ →
  (∀ v, Expression_view h n = Some v →
     ∃ h', ExpressionNode_ProcessHoles n fills h =
             Ok (resolved fills (vHoles v)) h' ∧
       Expression_view h' n =
         Some (with_Holes
                 (with_Params v (resolved fills (vHoles v) ∪ vParams v))
                 (unresolved fills (vHoles v)))) ∧
  (∀ v, Var_view h n = Some v →
     ∃ h' val', VarNode_ProcessHoles n fills h =
             Ok (requested fills (vHole v)) h' ∧
       Var_view h' n =
         Some {| vIdent := vIdent v; vVal := val';
                 vHole := unresolved fills (vHole v) |} ∧
       (resolved fills (vHole v) = ∅ ∧ val' = vVal v ∨
        ∃ key hole, vHole v !! key = Some hole ∧ fills !! hole = Some val')).
Proof.
  intros Hok. split; intros v Hv.
  - destruct (ExpressionNode_ProcessHoles_spec fills h n v Hok Hv)
      as (h' & E & Hv' & _). eauto.
  - destruct (VarNode_ProcessHoles_spec fills h n v Hok Hv)
      as (h' & val' & E & Hv' & Hval & _). eauto 6.
Qed.

(** A Var node with holes [{a: x, b: y}]. *)
Definition var_with_two_holes : heap :=
  {[ 1%positive := OIdentifier {| Ident := "v"; Val := VNil |};
     2%positive := OStrMap {["a" := "x"; "b" := "y"]};
     3%positive := OVar {| VarI := Some 1%positive; Hole := Some 2%positive |} ]}.

(** C2 fails on a Var node: with holes [{a: x, b: y}] and fills [{x: 1}]
    the returned map is [{x: 1}], keyed by the hole name, and not the pair
    (a, 1) of the resolved entry. *)
Lemma VarNode_ProcessHoles_returns_hole_names :
  ∃ processed h',
    @VarNode_ProcessHoles canonicalEnv (Some 3%positive) {["x" := VInt 1]}
      var_with_two_holes = Ok processed h' ∧
    Var_view var_with_two_holes (Some 3%positive) =
      Some {| vIdent := "v"; vVal := VNil;
              vHole := {["a" := "x"; "b" := "y"]} |} ∧
    processed !! "x" = Some (VInt 1) ∧
    processed !! "a" = None ∧
    processed ≠ resolved {["x" := VInt 1]} {["a" := "x"; "b" := "y"]}.
Proof.
  eexists _, _. split; [by vm_compute|]. split; [by vm_compute|].
  split; [by vm_compute|]. split; [by vm_compute|].
  intros Heq. apply (f_equal (λ m : gmap string value, m !! "a")) in Heq.
  vm_compute in Heq. discriminate.
Qed.

(** ** A variable bound to a hole *)

Lemma AST_AddVarIdentifier_spec (text : string) (a : AST) (h : heap) :
  ∃ i hole vnode stat h',
    AST_AddVarIdentifier text a h =
      Ok {| Statements := Statements a ++ [Some stat];
            currentStatement := Some stat;
            currentKey := currentKey a |} h' ∧
    h ⊆ h' ∧
    h' !! i = Some (OIdentifier {| Ident := text; Val := VNil |}) ∧
    h' !! hole = Some (OStrMap ∅) ∧
    h' !! vnode = Some (OVar {| VarI := Some i; Hole := Some hole |}) ∧
    h' !! stat = Some (OStatement
      {| Node := Some vnode; Result := VNil; Line := ""; Err := None |}).
Proof.
  unfold AST_AddVarIdentifier, AST_addStatement.
  destruct (alloc_fresh (OIdentifier {| Ident := text; Val := VNil |}) h)
    as (i & Hi & E1). mstep E1.
  destruct (alloc_fresh (OStrMap ∅) (<[i:=OIdentifier {| Ident := text; Val := VNil |}]> h))
    as (hole & Hhole & E2). mstep E2.
  destruct (alloc_fresh (OVar {| VarI := Some i; Hole := Some hole |})
    (<[hole:=OStrMap ∅]> (<[i:=OIdentifier {| Ident := text; Val := VNil |}]> h)))
    as (vnode & Hvnode & E3). mstep E3.
  destruct (alloc_fresh (OStatement
    {| Node := Some vnode; Result := VNil; Line := ""; Err := None |})
    (<[vnode:=OVar {| VarI := Some i; Hole := Some hole |}]>
      (<[hole:=OStrMap ∅]> (<[i:=OIdentifier {| Ident := text; Val := VNil |}]> h))))
    as (stat & Hstat & E4). mstep E4.
  repeat match goal with
  | Hf : <[_ := _]> _ !! _ = None |- _ => apply lookup_insert_None in Hf as [Hf ?]
  end.
  eexists i, hole, vnode, stat, _. split; [reflexivity|].
  split; [heap_extends|]. split_and!; by simplify_map_eq.
Qed.

Lemma AST_currentVarDecl_Var (a : AST) (h : heap) stat st vnode vn :
  currentStatement a = Some stat →
  h !! stat = Some (OStatement st) → Node st = Some vnode →
  h !! vnode = Some (OVar vn) →
  AST_currentVarDecl a h = Ok (Some vnode) h.
Proof.
  intros Hcur Hstat Hnode Hvnode. unfold AST_currentVarDecl. rewrite Hcur.
  assert (load_Statement (Some stat) h = Ok st h) as Hload.
  { unfold load_Statement. by mstep (load_Some _ _ _ Hstat). }
  mstep Hload. rewrite Hnode. mstep (load_Some _ _ _ Hvnode). done.
Qed.

Lemma unresolved_singleton fills (k name : string) val :
  fills !! name = Some val → unresolved fills {[k := name]} = ∅.
Proof.
  intros Hf. apply map_eq. intros i. rewrite lookup_empty.
  apply eq_None_not_Some. intros [x Hx].
  apply unresolved_lookup in Hx as [Hx Hnone].
  apply lookup_singleton_Some in Hx as [_ <-]. congruence.
Qed.

(** C9: [AddVarIdentifier name] then [AddVarHoleValue hole] opens a Var
    statement whose Hole map is the one entry from the variable's own
    identifier [name] to [hole]; [ProcessHoles] with a fill for [hole] then
    binds the identifier to the fill and leaves the Hole map empty. *)
Theorem Var_hole_is_keyed_by_its_identifier `{GoEnv} (name hole : string)
    (fills : gmap string value) (val : value) (a : AST) (h : heap) :
  GoEnvOk _ →
  fills !! hole = Some val →
  ∃ a1 h1 a2 h2 stat st processed h3,
    AST_AddVarIdentifier name a h = Ok a1 h1 ∧
    AST_AddVarHoleValue hole a1 h1 = Ok a2 h2 ∧
    currentStatement a2 = Some stat ∧
    Statements a2 = Statements a ++ [Some stat] ∧
    Statement_at h2 (Some stat) = Some st ∧
    Var_view h2 (Node st) =
      Some {| vIdent := name; vVal := VNil; vHole := {[name := hole]} |} ∧
    VarNode_ProcessHoles (Node st) fills h2 = Ok processed h3 ∧
    Var_view h3 (Node st) =
      Some {| vIdent := name; vVal := val; vHole := ∅ |}.
Proof.
  intros Hok Hfill.
  destruct (AST_AddVarIdentifier_spec name a h)
    as (i & lh & vnode & stat & h1 & E1 & Hsub & Hi & Hlh & Hvnode & Hstat).
  set (a1 := {| Statements := Statements a ++ [Some stat];
                currentStatement := Some stat; currentKey := currentKey a |}) in *.
  set (h2 := <[lh := OStrMap {[name := hole]}]> h1).
  assert (AST_AddVarHoleValue hole a1 h1 = Ok a1 h2) as E2.
  { unfold AST_AddVarHoleValue.
    mstep (AST_currentVarDecl_Var a1 h1 stat _ vnode _ eq_refl Hstat eq_refl Hvnode).
    mstep (load_Var_view _ _ _ Hvnode). cbn [VarI Hole].
    assert (load_Identifier (Some i) h1 = Ok {| Ident := name; Val := VNil |} h1)
      as Hload by (unfold load_Identifier; by mstep (load_Some _ _ _ Hi)).
    mstep Hload. cbn [Ident].
    mstep (assign_StrMap_Some _ _ _ name hole Hlh).
    by rewrite insert_empty. }
  assert (lh ≠ i ∧ lh ≠ vnode ∧ lh ≠ stat) as (? & ? & ?)
    by (split_and!; intros ->; congruence).
  assert (Var_view h2 (Some vnode) =
    Some {| vIdent := name; vVal := VNil; vHole := {[name := hole]} |}) as Hv2.
  { apply Var_view_Some.
    exists vnode, {| VarI := Some i; Hole := Some lh |}, {| Ident := name; Val := VNil |}.
    subst h2. split_and!; simpl; try done; by simplify_map_eq. }
  destruct (VarNode_ProcessHoles_spec fills h2 _ _ Hok Hv2)
    as (h3 & val' & E3 & Hv3 & Hval' & _).
  cbn [vIdent vVal vHole] in *.
  rewrite (unresolved_singleton _ _ _ _ Hfill) in Hv3.
  assert (val' = val) as ->.
  { destruct Hval' as [[Hres _]|(key & x & Hkey & Hx)].
    - assert (resolved fills {[name := hole]} !! name = Some val) as Hsome.
      { apply resolved_lookup. exists hole. by rewrite lookup_singleton_eq. }
      rewrite Hres in Hsome. by rewrite lookup_empty in Hsome.
    - apply lookup_singleton_Some in Hkey as [_ <-]. congruence. }
  exists a1, h1, a1, h2, stat,
    {| Node := Some vnode; Result := VNil; Line := ""; Err := None |},
    (requested fills {[name := hole]}), h3.
  split_and!; try done.
  subst h2. simpl. by rewrite lookup_insert_ne, Hstat.
Qed.

(** ** The expression under construction *)


Lemma AST_currentExpression_Some (s : AST) (h : heap) expr :
  AST_currentExpression s h = Ok (Some expr) h ↔
  builds h (currentStatement s) expr.
Proof.
  unfold AST_currentExpression, builds, Statement_at.
  destruct (currentStatement s) as [stat|].
  2:{ split; [done|]. by intros (st & ln & ? & _). }
  unfold load_Statement, load, mbind, M_bind.
  destruct (h !! stat) as [[| | | | | |st]|];
    try (split; [done|by intros (st' & ln & ? & _)]).
  cbn. destruct (Node st) as [ln|] eqn:Hnode.
  2:{ split; [done|]. intros (st' & ln & [= <-] & ? & _). congruence. }
  destruct (h !! ln) as [o|] eqn:Hln.
  2:{ split; [done|]. intros (st' & ln' & [= <-] & Hn & [[-> [e He]]|[d [Hd _]]]);
      rewrite Hnode in Hn; injection Hn as <-; congruence. }
  split.
  - intros Hcur. exists st, ln. split; [done|]. split; [done|].
    destruct o as [| | | |d|e|]; try done.
    + right. exists d. split; [done|]. by injection Hcur.
    + left. injection Hcur as <-. eauto.
  - intros (st' & ln' & [= <-] & Hn & Hcase).
    rewrite Hnode in Hn; injection Hn as <-.
    destruct Hcase as [[-> [e He]]|[d [Hd HR]]].
    + rewrite Hln in He. injection He as ->. done.
    + rewrite Hln in Hd. injection Hd as ->. cbn. by rewrite HR.
Qed.

Lemma unchanged_outside_trans X (h1 h2 h3 : heap) :
  unchanged_outside X h1 h2 → unchanged_outside X h2 h3 →
  unchanged_outside X h1 h3.
Proof.
  intros H12 H23 l Hl Hsome. rewrite H23, H12; try done.
  by rewrite H12.
Qed.

Lemma unchanged_outside_refl X (h : heap) : unchanged_outside X h h.
Proof. by intros l _ _. Qed.

Lemma unchanged_outside_store X (h : heap) l o :
  l ∈ X → unchanged_outside X h (<[l := o]> h).
Proof. intros Hin l0 Hl0 _. rewrite lookup_insert_ne; [done|]. by intros ->. Qed.

Lemma unchanged_outside_alloc X (h : heap) l o :
  h !! l = None → unchanged_outside X h (<[l := o]> h).
Proof.
  intros Hnone l0 _ [x Hx]. rewrite lookup_insert_ne; [done|].
  intros ->. congruence.
Qed.

(** While only the expression's own objects change, the AST keeps building
    the same expression. *)
Lemma builds_stable (h h' : heap) stat expr v :
  builds h stat expr →
  Expression_view h (Some expr) = Some v →
  unchanged_outside (Expression_locs h (Some expr)) h h' →
  (∃ e', h' !! expr = Some (OExpression e')) →
  builds h' stat expr.
Proof.
  intros (st & ln & Hst & Hnode & Hcase) Hv Hframe He'.
  assert (∀ l o, h !! l = Some o →
    (∀ e, o ≠ OExpression e) → (∀ m, o ≠ OStrMap m) → (∀ m, o ≠ OIfaceMap m) →
    h' !! l = Some o) as Hkeep.
  { intros l o Hl H1 H2 H3. rewrite Hframe; [done| |by eexists].
    intros Hin. destruct (Expression_locs_kind _ _ _ _ Hv Hin)
      as [[? Hk]|[[? Hk]|[? Hk]]]; rewrite Hl in Hk; injection Hk as ->;
      [by eapply H1|by eapply H2|by eapply H3]. }
  apply Statement_at_Some in Hst as (ls & -> & Hls).
  exists st, ln. split; [|split; [done|]].
  - apply Statement_at_Some. exists ls. split; [done|]. by apply Hkeep.
  - destruct Hcase as [[-> _]|[d [Hd HR]]]; [by left|right].
    exists d. split; [|done]. by apply Hkeep.
Qed.


(** ** Key exclusivity on the contents of the maps *)





(** ** The operations on the expression under construction *)

Lemma Expression_view_node (h : heap) l v :
  Expression_view h (Some l) = Some v → ∃ e, h !! l = Some (OExpression e).
Proof. intros (l' & e & [= <-] & Hl & _)%Expression_view_Some. eauto. Qed.

Lemma in_Expression_locs (h : heap) l e l0 :
  h !! l = Some (OExpression e) →
  l0 = l ∨ Some l0 = Refs e ∨ Some l0 = Params e ∨
  Some l0 = Aliases e ∨ Some l0 = Holes e →
  l0 ∈ Expression_locs h (Some l).
Proof.
  intros Hl Hcase. unfold Expression_locs. rewrite Hl.
  destruct Hcase as [->|[<-|[<-|[<-|<-]]]]; set_solver.
Qed.

Lemma store_Params_builds (h : heap) stat l e v lp params :
  builds h stat l →
  h !! l = Some (OExpression e) →
  Expression_view h (Some l) = Some v →
  Params e = Some lp →
  builds (<[lp := OIfaceMap params]> h) stat l ∧
  Expression_view (<[lp := OIfaceMap params]> h) (Some l) =
    Some (with_Params v params).
Proof.
  intros Hb Hl Hv HP.
  pose proof (Expression_view_store_Params _ _ _ _ _ params Hl Hv HP) as Hv'.
  split; [|done]. eapply builds_stable; eauto using Expression_view_node.
  apply unchanged_outside_store. eapply in_Expression_locs; eauto.
Qed.




Lemma view_field_maps (h : heap) l e v :
  h !! l = Some (OExpression e) →
  Expression_view h (Some l) = Some v →
  StrMap_at h (Refs e) = Some (vRefs v) ∧
  IfaceMap_at h (Params e) = Some (vParams v) ∧
  StrMap_at h (Aliases e) = Some (vAliases v) ∧
  StrMap_at h (Holes e) = Some (vHoles v).
Proof.
  intros Hl (l' & e' & [= <-] & Hl' & _ & Hr & Hp & Ha & Hh & _)%Expression_view_Some.
  rewrite Hl in Hl'. by injection Hl' as <-.
Qed.

(** Storing a value under a key of Params, as the four [AddParam...Value]
    operations on literals do. *)
Lemma assign_Params_view (s : AST) (h : heap) l e v key val s1 h1 :
  builds h (currentStatement s) l →
  h !! l = Some (OExpression e) →
  Expression_view h (Some l) = Some v →
  (assign_IfaceMap (Params e) key val;; mret s) h = Ok s1 h1 →
  s1 = s ∧ builds h1 (currentStatement s) l ∧
  Expression_view h1 (Some l) =
    Some (with_Params v (<[key := val]> (vParams v))).
Proof.
  intros Hb Hl Hv.
  destruct (view_field_maps _ _ _ _ Hl Hv) as (_ & Hp & _).
  destruct (Params e) as [lp|] eqn:HP; [|done].
  apply IfaceMap_at_Some in Hp.
  mstep (assign_IfaceMap_Some _ _ _ key val Hp). intros [= <- <-].
  split; [done|]. by eapply store_Params_builds.
Qed.


Lemma bind_Panic {A B} (c : M A) (k : A → M B) h msg :
  c h = Panic msg → (c ≫= k) h = Panic msg.
Proof. intros Hc. unfold mbind, M_bind. by rewrite Hc. Qed.

Lemma store_Some l o (h : heap) : store (Some l) o h = Ok () (<[l := o]> h).
Proof. done. Qed.






(** ** Cloning an AST *)

Lemma cloned_mono (h h1 h2 : heap) s c :
  h1 ⊆ h2 → cloned h h1 s c → cloned h h2 s c.
Proof.
  intros Hsub (st & nv & st' & H1 & H2 & H3 & H4 & H5 & H6).
  exists st, nv, st'. split_and!; try tauto.
  - by eapply Statement_at_mono.
  - by eapply Node_view_mono.
Qed.

Lemma AST_Clone_loop `{GoEnv} (h : heap) l : ∀ (hc : heap) acc,
  GoEnvOk _ →
  h ⊆ hc →
  Forall (λ s, ∃ st nv, Statement_at h s = Some st ∧
                        Node_view h (Node st) = Some nv) l →
  ∃ cs h', foldM (λ acc stat, c ← Statement_clone stat; mret (acc ++ [c]))
                 acc l hc = Ok (acc ++ cs) h' ∧
    hc ⊆ h' ∧ Forall2 (cloned h h') l cs.
Proof.
  induction l as [|s l IH]; intros hc acc Hok Hsub Hl.
  { exists [], hc. cbn [foldM]. rewrite app_nil_r. by split_and!. }
  apply Forall_cons in Hl as [(st & nv & Hst & Hnv) Hl].
  destruct (Statement_clone_spec hc s st nv Hok
    (Statement_at_mono _ _ _ _ Hsub Hst) (Node_view_mono _ _ _ _ Hsub Hnv))
    as (lc & node & h1 & E & Hsub1 & Hfresh & Hst' & Hv').
  cbn [foldM]. mstep E. rewrite ret_bind.
  destruct (IH h1 (acc ++ [Some lc]) Hok) as (cs & h' & E' & Hsub' & Hall);
    [by etrans|done|].
  exists (Some lc :: cs), h'. split; [by rewrite E', <- app_assoc|].
  split; [by etrans|]. constructor; [|done].
  eapply cloned_mono; [exact Hsub'|].
  exists st, nv, {| Node := node; Result := Result st; Line := ""; Err := Err st |}.
  split_and!; try done.
  simpl. by rewrite (lookup_weaken_None _ _ _ Hfresh Hsub).
Qed.

(** [Clone] returns an AST with one statement for each statement of the
    source, in the same order, each the clone of its source; the objects of
    the source are left as they were. *)
Lemma AST_Clone_spec `{GoEnv} (a : AST) (h : heap) :
  GoEnvOk _ →
  Forall (λ s, ∃ st nv, Statement_at h s = Some st ∧
                        Node_view h (Node st) = Some nv) (Statements a) →
  ∃ a' h', AST_Clone a h = Ok a' h' ∧ h ⊆ h' ∧
    Forall2 (cloned h h') (Statements a) (Statements a') ∧
    currentStatement a' = None.
Proof.
  intros Hok Hl. unfold AST_Clone.
  destruct (AST_Clone_loop h (Statements a) h [] Hok) as (cs & h' & E & Hsub & Hall);
    [done|done|].
  mstep E. eexists _, h'. split; [reflexivity|]. by split_and!.
Qed.

(** ** A clone shares no map with its source *)

Lemma clone_locs_fresh (h h' : heap) l e' :
  h !! l = None →
  h' !! l = Some (OExpression e') →
  (∀ p, p ∈ [Refs e'; Params e'; Aliases e'; Holes e'] →
        ∃ lm, p = Some lm ∧ h !! lm = None) →
  ∀ l0, l0 ∈ Expression_locs h' (Some l) → h !! l0 = None.
Proof.
  intros Hl Hl' Hmaps l0. unfold Expression_locs. rewrite Hl'.
  assert (∀ p, p ∈ [Refs e'; Params e'; Aliases e'; Holes e'] →
    l0 ∈ ptr_set p → h !! l0 = None) as Hp.
  { intros p Hin Hl0. destruct (Hmaps p Hin) as (lm & -> & Hlm).
    simpl in Hl0. by apply elem_of_singleton in Hl0 as ->. }
  rewrite !elem_of_union. intros [[[[Hin|Hin]|Hin]|Hin]|Hin].
  - by apply elem_of_singleton in Hin as ->.
  - apply (Hp (Refs e')); [set_solver|done].
  - apply (Hp (Params e')); [set_solver|done].
  - apply (Hp (Aliases e')); [set_solver|done].
  - apply (Hp (Holes e')); [set_solver|done].
Qed.

Lemma unchanged_outside_fresh X (h h1 h2 : heap) :
  h ⊆ h1 → unchanged_outside X h1 h2 →
  (∀ l0, l0 ∈ X → h !! l0 = None) →
  h ⊆ h2.
Proof.
  intros Hsub Hframe Hfresh. apply map_subseteq_spec. intros l0 o Hl0.
  rewrite Hframe.
  - by eapply lookup_weaken.
  - intros Hin. rewrite (Hfresh _ Hin) in Hl0. done.
  - exists o. by eapply lookup_weaken.
Qed.

(** Resolving holes on the clone of an Expression node changes the clone's
    Params and Holes and leaves the source's four maps as they were. *)
Lemma clone_resolution_leaves_source `{GoEnv} fills (h : heap) n v :
  GoEnvOk _ →
  Expression_view h n = Some v →
  ∃ n' h1 h2,
    ExpressionNode_clone n h = Ok n' h1 ∧
    ExpressionNode_ProcessHoles n' fills h1 =
      Ok (resolved fills (vHoles v)) h2 ∧
    Expression_view h2 n' =
      Some (with_Holes
              (with_Params v (resolved fills (vHoles v) ∪ vParams v))
              (unresolved fills (vHoles v))) ∧
    Expression_view h2 n = Some v ∧ h ⊆ h2.
Proof.
  intros Hok Hv.
  destruct (ExpressionNode_clone_spec _ _ _ Hok Hv)
    as (l & e' & h1 & E1 & Hsub & Hl & Hl' & Hv1 & Hmaps).
  destruct (ExpressionNode_ProcessHoles_spec fills _ _ _ Hok Hv1)
    as (h2 & E2 & Hv2 & Hframe).
  assert (h ⊆ h2) as Hsub2.
  { eapply unchanged_outside_fresh; [exact Hsub|exact Hframe|].
    by eapply clone_locs_fresh. }
  exists (Some l), h1, h2. split_and!; try done.
  by eapply Expression_view_mono.
Qed.

(** C1 on the AST of [var x = {h}]: the source's Var node has the Hole map
    [{x: h}], and the Var node of the clone has an empty Hole map, where the
    claim has the same entries. *)
Theorem Clone_empties_Var_Hole :
  ∃ a h s st a' h' c st',
    @ParseTemplate canonicalEnv "var x = {h}" ∅ = Template a h ∧
    Statements a = [s] ∧ Statement_at h s = Some st ∧
    Var_view h (Node st) =
      Some {| vIdent := "x"; vVal := VNil; vHole := {["x" := "h"]} |} ∧
    @AST_Clone canonicalEnv a h = Ok a' h' ∧
    Statements a' = [c] ∧ Statement_at h' c = Some st' ∧
    Var_view h' (Node st') =
      Some {| vIdent := "x"; vVal := VNil; vHole := ∅ |} ∧
    Var_view h' (Node st) =
      Some {| vIdent := "x"; vVal := VNil; vHole := {["x" := "h"]} |}.
Proof.
  eexists _, _, _, _, _, _, _, _.
  split; [by vm_compute|]. split; [by vm_compute|]. split; [by vm_compute|].
  split; [by vm_compute|]. split; [by vm_compute|]. split; [by vm_compute|].
  split; [by vm_compute|]. split; by vm_compute.
Qed.

(** ** The order of [sort.Strings] *)

Lemma String_compare_trans_le (a b c : string) :
  String.compare a b ≠ Gt → String.compare b c ≠ Gt → String.compare a c ≠ Gt.
Proof.
  revert b c. induction a as [|x a IH]; intros [|y b] [|z c]; simpl; try done.
  unfold Ascii.compare.
  destruct (N.compare_spec (N_of_ascii x) (N_of_ascii y)) as [Hxy|Hxy|Hxy];
    destruct (N.compare_spec (N_of_ascii y) (N_of_ascii z)) as [Hyz|Hyz|Hyz];
    destruct (N.compare_spec (N_of_ascii x) (N_of_ascii z)) as [Hxz|Hxz|Hxz];
    try done; try lia.
  apply IH.
Qed.

Global Instance string_le_trans : Transitive string_le.
Proof.
  intros a b c. unfold string_le, String.leb.
  pose proof (String_compare_trans_le a b c).
  destruct (String.compare a b), (String.compare b c), (String.compare a c);
    try done; intros _ _; exfalso; by apply H.
Qed.

Global Instance string_le_antisymm : AntiSymm (=) string_le.
Proof. intros a b. apply String.leb_antisym. Qed.

Global Instance string_le_total : Total string_le.
Proof. intros a b. apply String.leb_total. Qed.

Lemma sort_Strings_sorted l : Sorted string_le (sort_Strings l).
Proof. apply Sorted_merge_sort. apply _. Qed.

Lemma sort_Strings_perm l : sort_Strings l ≡ₚ l.
Proof. apply merge_sort_Permutation. Qed.

(** Sorting forgets the order of its input. *)
Lemma sort_Strings_proper l1 l2 : l1 ≡ₚ l2 → sort_Strings l1 = sort_Strings l2.
Proof.
  intros Hperm. apply (Sorted_unique string_le); try apply sort_Strings_sorted.
  by rewrite !sort_Strings_perm.
Qed.

(** ** Rendering an expression *)

Lemma foldl_snoc {A B} (f : A → B) (l : list A) (acc : list B) :
  foldl (λ out k, out ++ [f k]) acc l = acc ++ (f <$> l).
Proof.
  revert acc. induction l as [|x l IH]; intros acc; simpl.
  - by rewrite app_nil_r.
  - rewrite IH. by rewrite <- app_assoc.
Qed.

Lemma sortAndMap_perm `{GoEnv} (m : gmap string value) fn :
  GoEnvOk _ →
  sortAndMap m fn ≡ₚ (λ kv, fn kv.1 kv.2) <$> map_to_list m.
Proof.
  intros Hok. unfold sortAndMap.
  rewrite (foldl_snoc (λ kv : string * value, kv.1)), app_nil_l.
  rewrite foldl_snoc, app_nil_l.
  rewrite sort_Strings_perm, (Hok _ m).
  rewrite <- list_fmap_compose.
  assert ((λ k, fn k (default VNil (m !! k))) ∘ (λ kv : string * value, kv.1)
            <$> map_to_list m
          = (λ kv, fn kv.1 kv.2) <$> map_to_list m) as ->; [|done].
  apply Forall_fmap_ext, Forall_forall.
  intros [k x] Hin%elem_of_map_to_list. simpl. by rewrite Hin.
Qed.

Lemma sortAndMapString_perm `{GoEnv} (m : gmap string string) fn :
  GoEnvOk _ →
  sortAndMapString m fn ≡ₚ (λ kv, fn kv.1 kv.2) <$> map_to_list m.
Proof.
  intros Hok. unfold sortAndMapString.
  assert (foldl (λ newM kv, <[kv.1 := VString kv.2]> newM) ∅ (map_range _ m)
          = VString <$> m) as ->.
  { transitivity (insert_all (∅ : gmap string value)
      (prod_map id VString <$> map_range _ m)).
    - unfold insert_all. generalize (∅ : gmap string value).
      induction (map_range string m) as [|[k x] l IH]; intros acc; [done|].
      simpl. apply IH.
    - rewrite insert_all_NoDup.
      + rewrite (right_id_L ∅ (∪)).
        rewrite (list_to_map_proper _ (map_to_list (VString <$> m))).
        * apply list_to_map_to_list.
        * rewrite <- list_fmap_compose. rewrite (Hok _ m).
          assert (fst ∘ prod_map id VString <$> map_to_list m
                  = (map_to_list m).*1) as -> by by apply list_fmap_ext.
          apply NoDup_fst_map_to_list.
        * rewrite (Hok _ m). by rewrite map_to_list_fmap.
      + rewrite <- list_fmap_compose. rewrite (Hok _ m).
        assert (fst ∘ prod_map id VString <$> map_to_list m
                = (map_to_list m).*1) as -> by by apply list_fmap_ext.
        apply NoDup_fst_map_to_list. }
  rewrite sortAndMap_perm by done.
  rewrite map_to_list_fmap, <- list_fmap_compose.
  assert ((λ kv : string * value,
             match kv.2 with VString s => fn kv.1 s | _ => "" end)
            ∘ prod_map id VString <$> map_to_list m
          = (λ kv, fn kv.1 kv.2) <$> map_to_list m) as ->; [|done].
  by apply list_fmap_ext.
Qed.

(** [String()] on an Expression node is the Action, the Entity and the
    rendered parameters of the four maps in ascending order, separated by
    spaces. *)
Lemma ExpressionNode_String_spec `{GoEnv} (h : heap) n v :
  GoEnvOk _ →
  Expression_view h n = Some v →
  ExpressionNode_String n h =
    Ok (vAction v +:+ " " +:+ vEntity v +:+ " " +:+
        strings_Join (sort_Strings (rendered_params v)) " ") h.
Proof.
  intros Hok Hv.
  pose proof Hv as (l & e & -> & Hl & _ & Hr & Hp & Ha & Hh & HA & HE)%Expression_view_Some.
  unfold ExpressionNode_String.
  mstep (load_Expression_Some _ _ _ Hl).
  mstep (read_StrMap_at _ _ _ Hr). mstep (read_IfaceMap_at _ _ _ Hp).
  mstep (read_StrMap_at _ _ _ Ha). mstep (read_StrMap_at _ _ _ Hh).
  rewrite HA, HE. unfold mret, M_ret.
  rewrite (sort_Strings_proper _ (rendered_params v)); [done|].
  unfold rendered_params.
  rewrite !sortAndMapString_perm, sortAndMap_perm by done.
  by rewrite <- !app_assoc.
Qed.

(** C7: [String()] on an Expression node renders the Action, the Entity and
    then the parameters of all four maps (Refs as [key=$value], Params as
    [key=value], Aliases as [key=@value], Holes as [key={value}]), the
    rendered parameters being in ascending order.  The result depends on the
    contents of the node only: two nodes with the same contents render to
    the same string, whatever order [range] walks their maps in. *)
Theorem ExpressionNode_String_is_sorted (E1 E2 : GoEnv) (h1 h2 : heap)
    (n1 n2 : ptr) (v : ExprView) :
  GoEnvOk E1 → GoEnvOk E2 →
  Expression_view h1 n1 = Some v →
  Expression_view h2 n2 = Some v →
  ∃ all,
    all ≡ₚ rendered_params v ∧ Sorted string_le all ∧
    @ExpressionNode_String E1 n1 h1 =
      Ok (vAction v +:+ " " +:+ vEntity v +:+ " " +:+ strings_Join all " ") h1 ∧
    @ExpressionNode_String E2 n2 h2 =
      Ok (vAction v +:+ " " +:+ vEntity v +:+ " " +:+ strings_Join all " ") h2.
Proof.
  intros Hok1 Hok2 Hv1 Hv2. exists (sort_Strings (rendered_params v)).
  split; [apply sort_Strings_perm|]. split; [apply sort_Strings_sorted|].
  split; by apply ExpressionNode_String_spec.
Qed.

(** An expression with a parameter in each map. *)
Example ExpressionNode_String_example :
  ∃ a h s st,
    @ParseTemplate canonicalEnv "create vpc d={ho} c=@al b=x a-b=y a=$r" ∅
      = Template a h ∧
    Statements a = [s] ∧ Statement_at h s = Some st ∧
    @ExpressionNode_String canonicalEnv (Node st) h =
      Ok "create vpc a-b=y a=$r b=x c=@al d={ho}" h.
Proof.
  eexists _, _, _, _. split; [by vm_compute|]. split; [by vm_compute|].
  split; [by vm_compute|]. by vm_compute.
Qed.

(** ** The combinators keep the cursor discipline *)

Section Cursor.
Variable buffer : list rune.

Lemma rune_of_bound c : (0 ≤ rune_of c < 256)%Z.
Proof.
  unfold rune_of. pose proof (N_ascii_bounded c). lia.
Qed.

Lemma peek_in_buffer s :
  peek buffer s ≠ endSymbol → (position s < length buffer)%nat.
Proof.
  unfold peek. intros Hne.
  destruct (decide (position s < length buffer)%nat) as [|Hge]; [done|].
  rewrite nth_overflow in Hne by lia. done.
Qed.

Global Instance succeed_forward : Forward succeed.
Proof. intros s s' [= <-]. lia. Qed.
Global Instance succeed_fuelled : Fuelled succeed.
Proof. by intros s s'. Qed.

Global Instance add_forward rule begin : Forward (add rule begin).
Proof. intros s s' [= <-]. simpl. lia. Qed.
Global Instance add_fuelled rule begin : Fuelled (add rule begin).
Proof. by intros s s'. Qed.

Global Instance matchDot_consuming : Consuming buffer (matchDot buffer).
Proof.
  intros s s'. unfold matchDot. case_decide as Hp; [|done].
  intros [= <-]. simpl. split; [lia|]. by apply peek_in_buffer.
Qed.
Global Instance matchDot_fuelled : Fuelled (matchDot buffer).
Proof. intros s s'. unfold matchDot. by case_decide. Qed.

Global Instance char_consuming c : Consuming buffer (char buffer c).
Proof.
  intros s s'. unfold char. case_decide as Hp; [done|].
  intros [= <-]. simpl. split; [lia|]. apply peek_in_buffer.
  rewrite Hp. pose proof (rune_of_bound c).
  unfold endSymbol. lia.
Qed.
Global Instance char_fuelled c : Fuelled (char buffer c).
Proof. intros s s'. unfold char. by case_decide. Qed.

Global Instance class_consuming lo hi : Consuming buffer (class buffer lo hi).
Proof.
  intros s s'. unfold class. case_decide as Hp; [done|].
  intros [= <-]. simpl. split; [lia|]. apply peek_in_buffer.
  pose proof (rune_of_bound hi). unfold endSymbol. lia.
Qed.
Global Instance class_fuelled lo hi : Fuelled (class buffer lo hi).
Proof. intros s s'. unfold class. by case_decide. Qed.

Global Instance matchDot_forward : Forward (matchDot buffer).
Proof.
  intros s s'. unfold matchDot. case_decide; [|done].
  intros [= <-]. simpl. lia.
Qed.
Global Instance char_forward c : Forward (char buffer c).
Proof.
  intros s s'. unfold char. case_decide; [done|].
  intros [= <-]. simpl. lia.
Qed.
Global Instance class_forward lo hi : Forward (class buffer lo hi).
Proof.
  intros s s'. unfold class. case_decide; [done|].
  intros [= <-]. simpl. lia.
Qed.

(** Sequences. *)
Global Instance seq_forward a b : Forward a → Forward b → Forward (a >> b).
Proof.
  intros Ha Hb s s'. unfold seq.
  destruct (a s) as [[] s1] eqn:Has; try done.
  intros Hbs. destruct (Ha _ _ Has), (Hb _ _ Hbs). lia.
Qed.
Global Instance seq_fuelled a b : Fuelled a → Fuelled b → Fuelled (a >> b).
Proof.
  intros Ha Hb s s'. unfold seq.
  destruct (a s) as [[] s1] eqn:Has; try done.
  intros [= <-]. by eapply Ha.
Qed.
Global Instance seq_consuming_l a b :
  Consuming buffer a → Forward b → Consuming buffer (a >> b) | 10.
Proof.
  intros Ha Hb s s'. unfold seq.
  destruct (a s) as [[] s1] eqn:Has; try done.
  intros Hbs. destruct (Ha _ _ Has), (Hb _ _ Hbs). lia.
Qed.
Global Instance seq_consuming_r a b :
  Forward a → Consuming buffer b → Consuming buffer (a >> b) | 20.
Proof.
  intros Ha Hb s s'. unfold seq.
  destruct (a s) as [[] s1] eqn:Has; try done.
  intros Hbs. destruct (Ha _ _ Has), (Hb _ _ Hbs). lia.
Qed.

(** [positionN := position] and [switch]. *)
Global Instance mark_forward f : (∀ p, Forward (f p)) → Forward (mark f).
Proof. intros Hf s s'. apply Hf. Qed.
Global Instance mark_fuelled f : (∀ p, Fuelled (f p)) → Fuelled (mark f).
Proof. intros Hf s s'. apply Hf. Qed.
Global Instance mark_consuming f :
  (∀ p, Consuming buffer (f p)) → Consuming buffer (mark f).
Proof. intros Hf s s'. apply Hf. Qed.
Global Instance add_here_forward rule : Forward (add_here rule).
Proof. unfold add_here. apply _. Qed.
Global Instance add_here_fuelled rule : Fuelled (add_here rule).
Proof. unfold add_here. apply _. Qed.

Global Instance switch_forward f :
  (∀ c, Forward (f c)) → Forward (switch buffer f).
Proof. intros Hf s s'. apply Hf. Qed.
Global Instance switch_fuelled f :
  (∀ c, Fuelled (f c)) → Fuelled (switch buffer f).
Proof. intros Hf s s'. apply Hf. Qed.
Global Instance switch_consuming f :
  (∀ c, Consuming buffer (f c)) → Consuming buffer (switch buffer f).
Proof. intros Hf s s'. apply Hf. Qed.

Global Instance if_forward (c : bool) a b :
  Forward a → Forward b → Forward (if c then a else b).
Proof. by destruct c. Qed.
Global Instance if_fuelled (c : bool) a b :
  Fuelled a → Fuelled b → Fuelled (if c then a else b).
Proof. by destruct c. Qed.
Global Instance if_consuming (c : bool) a b :
  Consuming buffer a → Consuming buffer b →
  Consuming buffer (if c then a else b).
Proof. by destruct c. Qed.
Global Instance decide_forward P `{Decision P} a b :
  Forward a → Forward b → Forward (if decide P then a else b).
Proof. by destruct (decide P). Qed.
Global Instance decide_fuelled P `{Decision P} a b :
  Fuelled a → Fuelled b → Fuelled (if decide P then a else b).
Proof. by destruct (decide P). Qed.
Global Instance decide_consuming P `{Decision P} a b :
  Consuming buffer a → Consuming buffer b →
  Consuming buffer (if decide P then a else b).
Proof. by destruct (decide P). Qed.

(** Ordered choice, option and negation. *)
Global Instance alt_forward a b : Forward a → Forward b → Forward (a </> b).
Proof.
  intros Ha Hb s s'. unfold alt.
  destruct (a s) as [[] s1] eqn:Has; try done.
  - intros [= <-]. by apply Ha.
  - intros Hbs. apply Hb in Hbs. simpl in Hbs. done.
Qed.
Global Instance alt_fuelled a b : Fuelled a → Fuelled b → Fuelled (a </> b).
Proof.
  intros Ha Hb s s'. unfold alt.
  destruct (a s) as [[] s1] eqn:Has; try done.
  intros [= <-]. by eapply Ha.
Qed.
Global Instance alt_consuming a b :
  Consuming buffer a → Consuming buffer b → Consuming buffer (a </> b).
Proof.
  intros Ha Hb s s'. unfold alt.
  destruct (a s) as [[] s1] eqn:Has; try done.
  - intros [= <-]. by apply Ha.
  - intros Hbs. apply Hb in Hbs. simpl in Hbs. done.
Qed.

Global Instance opt_forward a : Forward a → Forward (opt a).
Proof.
  intros Ha s s'. unfold opt.
  destruct (a s) as [[] s1] eqn:Has; try done.
  - intros [= <-]. by apply Ha.
  - intros [= <-]. simpl. lia.
Qed.
Global Instance opt_fuelled a : Fuelled a → Fuelled (opt a).
Proof.
  intros Ha s s'. unfold opt.
  destruct (a s) as [[] s1] eqn:Has; try done.
  intros [= <-]. by eapply Ha.
Qed.

Global Instance neg_forward a : Forward (neg a).
Proof.
  intros s s'. unfold neg.
  destruct (a s) as [[] s1] eqn:Has; try done.
  intros [= <-]. simpl. lia.
Qed.
Global Instance neg_fuelled a : Fuelled a → Fuelled (neg a).
Proof.
  intros Ha s s'. unfold neg.
  destruct (a s) as [[] s1] eqn:Has; try done.
  intros [= <-]. by eapply Ha.
Qed.

(** Literals. *)
Global Instance lit_forward w : Forward (lit buffer w).
Proof. induction w; simpl; apply _. Qed.
Global Instance lit_fuelled w : Fuelled (lit buffer w).
Proof. induction w; simpl; apply _. Qed.
Global Instance lit_consuming c w : Consuming buffer (lit buffer (String c w)).
Proof. simpl. apply _. Qed.

(** Loops: a loop never fails, and has fuel enough when every turn consumes
    a rune. *)
Lemma star_not_Failed n a s s' : star n a s ≠ (Failed, s').
Proof.
  revert s. induction n as [|n IH]; intros s; simpl; [done|].
  destruct (a s) as [[] s1]; by try done.
Qed.

Lemma star_forward_fuel n a : Forward a → Forward (star n a).
Proof.
  intros Ha. induction n as [|n IH]; intros s s'; simpl; [done|].
  destruct (a s) as [[] s1] eqn:Has; try done.
  - intros Hs. destruct (Ha _ _ Has), (IH _ _ Hs). lia.
  - intros [= <-]. simpl. lia.
Qed.
Global Instance star_forward n a : Forward a → Forward (star n a).
Proof. apply star_forward_fuel. Qed.

Lemma star_fuel n a s s' :
  Fuelled a → Consuming buffer a →
  (length buffer - position s < n)%nat →
  star n a s ≠ (OutOfFuel, s').
Proof.
  intros Hf Hc. revert s. induction n as [|n IH]; intros s Hn; [lia|].
  simpl. destruct (a s) as [[] s1] eqn:Has; try done.
  - apply IH. destruct (Hc _ _ Has). lia.
  - intros [= <-]. by eapply Hf.
Qed.
Global Instance star_fuelled a :
  Fuelled a → Consuming buffer a → Fuelled (star (fuel buffer) a).
Proof. intros Hf Hc s s'. apply star_fuel; try done. unfold fuel. lia. Qed.

(** Rule functions. *)
Global Instance rule_fn_forward a : Forward a → Forward (rule_fn a).
Proof.
  intros Ha s s'. unfold rule_fn.
  destruct (a s) as [[] s1] eqn:Has; try done.
  intros [= <-]. by apply Ha.
Qed.
Global Instance rule_fn_consuming a :
  Consuming buffer a → Consuming buffer (rule_fn a).
Proof.
  intros Ha s s'. unfold rule_fn.
  destruct (a s) as [[] s1] eqn:Has; try done.
  intros [= <-]. by apply Ha.
Qed.
Global Instance rule_fn_fuelled a : Fuelled a → Fuelled (rule_fn a).
Proof.
  intros Ha s s'. unfold rule_fn.
  destruct (a s) as [[] s1] eqn:Has; try done.
  intros [= <-]. by eapply Ha.
Qed.
Global Instance rule_fn_restoring a : Restoring (rule_fn a).
Proof.
  intros s s'. unfold rule_fn.
  destruct (a s) as [[] s1] eqn:Has; try done.
  by intros [= <-].
Qed.

(** Pieces that cannot fail; they restore trivially. *)
Global Instance add_unfailing rule begin : Unfailing (add rule begin).
Proof. by intros s s'. Qed.
Global Instance star_unfailing n a : Unfailing (star n a).
Proof. intros s s'. apply star_not_Failed. Qed.
Global Instance seq_unfailing a b :
  Unfailing a → Unfailing b → Unfailing (a >> b).
Proof.
  intros Ha Hb s s'. unfold seq.
  destruct (a s) as [[] s1] eqn:Has; try done.
  intros [= <-]. by eapply Ha.
Qed.
Global Instance mark_unfailing f : (∀ p, Unfailing (f p)) → Unfailing (mark f).
Proof. intros Hf s s'. apply Hf. Qed.
Global Instance unfailing_restoring a : Unfailing a → Restoring a | 50.
Proof. intros Ha s s' Hs. by apply Ha in Hs. Qed.

(** The rules, in the order of their definitions. *)

Global Instance pegText_forward a : Forward a → Forward (pegText a).
Proof. unfold pegText. apply _. Qed.
Global Instance pegText_fuelled a : Fuelled a → Fuelled (pegText a).
Proof. unfold pegText. apply _. Qed.
Global Instance pegText_consuming a :
  Consuming buffer a → Consuming buffer (pegText a).
Proof. unfold pegText. apply _. Qed.

Global Instance Whitespace_forward : Forward (rules_Whitespace buffer).
Proof. unfold rules_Whitespace. apply _. Qed.
Global Instance Whitespace_consuming : Consuming buffer (rules_Whitespace buffer).
Proof. unfold rules_Whitespace. apply _. Qed.
Global Instance Whitespace_fuelled : Fuelled (rules_Whitespace buffer).
Proof. unfold rules_Whitespace. apply _. Qed.
Global Instance Whitespace_restoring : Restoring (rules_Whitespace buffer).
Proof. unfold rules_Whitespace. apply _. Qed.

Global Instance EndOfLine_forward : Forward (rules_EndOfLine buffer).
Proof. unfold rules_EndOfLine. apply _. Qed.
Global Instance EndOfLine_consuming : Consuming buffer (rules_EndOfLine buffer).
Proof. unfold rules_EndOfLine. apply _. Qed.
Global Instance EndOfLine_fuelled : Fuelled (rules_EndOfLine buffer).
Proof. unfold rules_EndOfLine. apply _. Qed.
Global Instance EndOfLine_restoring : Restoring (rules_EndOfLine buffer).
Proof. unfold rules_EndOfLine. apply _. Qed.

Global Instance Spacing_forward : Forward (rules_Spacing buffer).
Proof. unfold rules_Spacing. apply _. Qed.
Global Instance Spacing_fuelled : Fuelled (rules_Spacing buffer).
Proof. unfold rules_Spacing. apply _. Qed.
Global Instance Spacing_unfailing : Unfailing (rules_Spacing buffer).
Proof. unfold rules_Spacing. apply _. Qed.

Global Instance WhiteSpacing_forward : Forward (rules_WhiteSpacing buffer).
Proof. unfold rules_WhiteSpacing. apply _. Qed.
Global Instance WhiteSpacing_fuelled : Fuelled (rules_WhiteSpacing buffer).
Proof. unfold rules_WhiteSpacing. apply _. Qed.
Global Instance WhiteSpacing_unfailing : Unfailing (rules_WhiteSpacing buffer).
Proof. unfold rules_WhiteSpacing. apply _. Qed.

Global Instance MustWhiteSpacing_forward : Forward (rules_MustWhiteSpacing buffer).
Proof. unfold rules_MustWhiteSpacing. apply _. Qed.
Global Instance MustWhiteSpacing_consuming : Consuming buffer (rules_MustWhiteSpacing buffer).
Proof. unfold rules_MustWhiteSpacing. apply _. Qed.
Global Instance MustWhiteSpacing_fuelled : Fuelled (rules_MustWhiteSpacing buffer).
Proof. unfold rules_MustWhiteSpacing. apply _. Qed.
Global Instance MustWhiteSpacing_restoring : Restoring (rules_MustWhiteSpacing buffer).
Proof. unfold rules_MustWhiteSpacing. apply _. Qed.

Global Instance Equal_forward : Forward (rules_Equal buffer).
Proof. unfold rules_Equal. apply _. Qed.
Global Instance Equal_consuming : Consuming buffer (rules_Equal buffer).
Proof. unfold rules_Equal. apply _. Qed.
Global Instance Equal_fuelled : Fuelled (rules_Equal buffer).
Proof. unfold rules_Equal. apply _. Qed.
Global Instance Equal_restoring : Restoring (rules_Equal buffer).
Proof. unfold rules_Equal. apply _. Qed.

Global Instance Identifier_char_forward : Forward (Identifier_char buffer).
Proof. unfold Identifier_char. apply _. Qed.
Global Instance Identifier_char_consuming : Consuming buffer (Identifier_char buffer).
Proof. unfold Identifier_char. apply _. Qed.
Global Instance Identifier_char_fuelled : Fuelled (Identifier_char buffer).
Proof. unfold Identifier_char. apply _. Qed.

Global Instance Identifier_forward : Forward (rules_Identifier buffer).
Proof. unfold rules_Identifier. apply _. Qed.
Global Instance Identifier_consuming : Consuming buffer (rules_Identifier buffer).
Proof. unfold rules_Identifier. apply _. Qed.
Global Instance Identifier_fuelled : Fuelled (rules_Identifier buffer).
Proof. unfold rules_Identifier. apply _. Qed.
Global Instance Identifier_restoring : Restoring (rules_Identifier buffer).
Proof. unfold rules_Identifier. apply _. Qed.

Global Instance StringValue_char_forward : Forward (StringValue_char buffer).
Proof. unfold StringValue_char. apply _. Qed.
Global Instance StringValue_char_consuming : Consuming buffer (StringValue_char buffer).
Proof. unfold StringValue_char. apply _. Qed.
Global Instance StringValue_char_fuelled : Fuelled (StringValue_char buffer).
Proof. unfold StringValue_char. apply _. Qed.

Global Instance StringValue_forward : Forward (rules_StringValue buffer).
Proof. unfold rules_StringValue. apply _. Qed.
Global Instance StringValue_consuming : Consuming buffer (rules_StringValue buffer).
Proof. unfold rules_StringValue. apply _. Qed.
Global Instance StringValue_fuelled : Fuelled (rules_StringValue buffer).
Proof. unfold rules_StringValue. apply _. Qed.
Global Instance StringValue_restoring : Restoring (rules_StringValue buffer).
Proof. unfold rules_StringValue. apply _. Qed.

Global Instance digits1_forward : Forward (digits1 buffer).
Proof. unfold digits1. apply _. Qed.
Global Instance digits1_consuming : Consuming buffer (digits1 buffer).
Proof. unfold digits1. apply _. Qed.
Global Instance digits1_fuelled : Fuelled (digits1 buffer).
Proof. unfold digits1. apply _. Qed.

Global Instance CidrValue_forward : Forward (rules_CidrValue buffer).
Proof. unfold rules_CidrValue. apply _. Qed.
Global Instance CidrValue_consuming : Consuming buffer (rules_CidrValue buffer).
Proof. unfold rules_CidrValue. apply _. Qed.
Global Instance CidrValue_fuelled : Fuelled (rules_CidrValue buffer).
Proof. unfold rules_CidrValue. apply _. Qed.
Global Instance CidrValue_restoring : Restoring (rules_CidrValue buffer).
Proof. unfold rules_CidrValue. apply _. Qed.

Global Instance IpValue_forward : Forward (rules_IpValue buffer).
Proof. unfold rules_IpValue. apply _. Qed.
Global Instance IpValue_consuming : Consuming buffer (rules_IpValue buffer).
Proof. unfold rules_IpValue. apply _. Qed.
Global Instance IpValue_fuelled : Fuelled (rules_IpValue buffer).
Proof. unfold rules_IpValue. apply _. Qed.
Global Instance IpValue_restoring : Restoring (rules_IpValue buffer).
Proof. unfold rules_IpValue. apply _. Qed.

Global Instance IntValue_forward : Forward (rules_IntValue buffer).
Proof. unfold rules_IntValue. apply _. Qed.
Global Instance IntValue_consuming : Consuming buffer (rules_IntValue buffer).
Proof. unfold rules_IntValue. apply _. Qed.
Global Instance IntValue_fuelled : Fuelled (rules_IntValue buffer).
Proof. unfold rules_IntValue. apply _. Qed.
Global Instance IntValue_restoring : Restoring (rules_IntValue buffer).
Proof. unfold rules_IntValue. apply _. Qed.

Global Instance IntRangeValue_forward : Forward (rules_IntRangeValue buffer).
Proof. unfold rules_IntRangeValue. apply _. Qed.
Global Instance IntRangeValue_consuming : Consuming buffer (rules_IntRangeValue buffer).
Proof. unfold rules_IntRangeValue. apply _. Qed.
Global Instance IntRangeValue_fuelled : Fuelled (rules_IntRangeValue buffer).
Proof. unfold rules_IntRangeValue. apply _. Qed.
Global Instance IntRangeValue_restoring : Restoring (rules_IntRangeValue buffer).
Proof. unfold rules_IntRangeValue. apply _. Qed.

Global Instance HoleValue_forward : Forward (rules_HoleValue buffer).
Proof. unfold rules_HoleValue. apply _. Qed.
Global Instance HoleValue_consuming : Consuming buffer (rules_HoleValue buffer).
Proof. unfold rules_HoleValue. apply _. Qed.
Global Instance HoleValue_fuelled : Fuelled (rules_HoleValue buffer).
Proof. unfold rules_HoleValue. apply _. Qed.
Global Instance HoleValue_restoring : Restoring (rules_HoleValue buffer).
Proof. unfold rules_HoleValue. apply _. Qed.

Global Instance Action_forward : Forward (inline_Action buffer).
Proof. unfold inline_Action. apply _. Qed.
Global Instance Action_consuming : Consuming buffer (inline_Action buffer).
Proof. unfold inline_Action. apply _. Qed.
Global Instance Action_fuelled : Fuelled (inline_Action buffer).
Proof. unfold inline_Action. apply _. Qed.

Global Instance Entity_forward : Forward (inline_Entity buffer).
Proof. unfold inline_Entity. apply _. Qed.
Global Instance Entity_consuming : Consuming buffer (inline_Entity buffer).
Proof. unfold inline_Entity. apply _. Qed.
Global Instance Entity_fuelled : Fuelled (inline_Entity buffer).
Proof. unfold inline_Entity. apply _. Qed.

Global Instance Value_forward : Forward (inline_Value buffer).
Proof. unfold inline_Value. apply _. Qed.
Global Instance Value_consuming : Consuming buffer (inline_Value buffer).
Proof. unfold inline_Value. apply _. Qed.
Global Instance Value_fuelled : Fuelled (inline_Value buffer).
Proof. unfold inline_Value. apply _. Qed.

Global Instance Param_forward : Forward (inline_Param buffer).
Proof. unfold inline_Param. apply _. Qed.
Global Instance Param_consuming : Consuming buffer (inline_Param buffer).
Proof. unfold inline_Param. apply _. Qed.
Global Instance Param_fuelled : Fuelled (inline_Param buffer).
Proof. unfold inline_Param. apply _. Qed.

Global Instance Params_forward : Forward (inline_Params buffer).
Proof. unfold inline_Params. apply _. Qed.
Global Instance Params_consuming : Consuming buffer (inline_Params buffer).
Proof. unfold inline_Params. apply _. Qed.
Global Instance Params_fuelled : Fuelled (inline_Params buffer).
Proof. unfold inline_Params. apply _. Qed.

Global Instance Expr_forward : Forward (rules_Expr buffer).
Proof. unfold rules_Expr. apply _. Qed.
Global Instance Expr_consuming : Consuming buffer (rules_Expr buffer).
Proof. unfold rules_Expr. apply _. Qed.
Global Instance Expr_fuelled : Fuelled (rules_Expr buffer).
Proof. unfold rules_Expr. apply _. Qed.
Global Instance Expr_restoring : Restoring (rules_Expr buffer).
Proof. unfold rules_Expr. apply _. Qed.

Global Instance Var_forward : Forward (inline_Var buffer).
Proof. unfold inline_Var. apply _. Qed.
Global Instance Var_consuming : Consuming buffer (inline_Var buffer).
Proof. unfold inline_Var. apply _. Qed.
Global Instance Var_fuelled : Fuelled (inline_Var buffer).
Proof. unfold inline_Var. apply _. Qed.

Global Instance VarValue_forward : Forward (inline_VarValue buffer).
Proof. unfold inline_VarValue. apply _. Qed.
Global Instance VarValue_consuming : Consuming buffer (inline_VarValue buffer).
Proof. unfold inline_VarValue. apply _. Qed.
Global Instance VarValue_fuelled : Fuelled (inline_VarValue buffer).
Proof. unfold inline_VarValue. apply _. Qed.

Global Instance VarDeclaration_forward : Forward (inline_VarDeclaration buffer).
Proof. unfold inline_VarDeclaration. apply _. Qed.
Global Instance VarDeclaration_consuming : Consuming buffer (inline_VarDeclaration buffer).
Proof. unfold inline_VarDeclaration. apply _. Qed.
Global Instance VarDeclaration_fuelled : Fuelled (inline_VarDeclaration buffer).
Proof. unfold inline_VarDeclaration. apply _. Qed.

Global Instance Declaration_forward : Forward (inline_Declaration buffer).
Proof. unfold inline_Declaration. apply _. Qed.
Global Instance Declaration_consuming : Consuming buffer (inline_Declaration buffer).
Proof. unfold inline_Declaration. apply _. Qed.
Global Instance Declaration_fuelled : Fuelled (inline_Declaration buffer).
Proof. unfold inline_Declaration. apply _. Qed.

Global Instance rest_of_line_forward : Forward (rest_of_line buffer).
Proof. unfold rest_of_line. apply _. Qed.
Global Instance rest_of_line_fuelled : Fuelled (rest_of_line buffer).
Proof. unfold rest_of_line. apply _. Qed.

Global Instance Comment_forward : Forward (inline_Comment buffer).
Proof. unfold inline_Comment. apply _. Qed.
Global Instance Comment_consuming : Consuming buffer (inline_Comment buffer).
Proof. unfold inline_Comment. apply _. Qed.
Global Instance Comment_fuelled : Fuelled (inline_Comment buffer).
Proof. unfold inline_Comment. apply _. Qed.

Global Instance Statement_forward : Forward (inline_Statement buffer).
Proof. unfold inline_Statement. apply _. Qed.
Global Instance Statement_consuming : Consuming buffer (inline_Statement buffer).
Proof. unfold inline_Statement. apply _. Qed.
Global Instance Statement_fuelled : Fuelled (inline_Statement buffer).
Proof. unfold inline_Statement. apply _. Qed.

Global Instance EndOfFile_forward : Forward (inline_EndOfFile buffer).
Proof. unfold inline_EndOfFile. apply _. Qed.
Global Instance EndOfFile_fuelled : Fuelled (inline_EndOfFile buffer).
Proof. unfold inline_EndOfFile. apply _. Qed.

Global Instance Script_forward : Forward (rules_Script buffer).
Proof. unfold rules_Script. apply _. Qed.
Global Instance Script_fuelled : Fuelled (rules_Script buffer).
Proof. unfold rules_Script. apply _. Qed.
Global Instance Script_restoring : Restoring (rules_Script buffer).
Proof. unfold rules_Script. apply _. Qed.

End Cursor.

(** C6: every function of the rule table, when it fails, has put position
    and token index back to the values they had on entry; when it matches,
    the position is where it was or further on (past the matched text) and
    the token index has not gone back.  The loops inside never run out of
    fuel, so these two are the only outcomes. *)
Theorem rule_functions_keep_the_cursor (buffer : list rune) (rule : pegRule)
    (f : F) (s : pstate) :
  rules buffer rule = Some f →
  match f s with
  | (Matched, s') =>
      (position s ≤ position s')%nat ∧ (tokenIndex s ≤ tokenIndex s')%nat
  | (Failed, s') =>
      position s' = position s ∧ tokenIndex s' = tokenIndex s
  | (OutOfFuel, _) => False
  end.
Proof.
  intros Hf.
  assert (Forward f ∧ Restoring f ∧ Fuelled f) as (HF & HR & HU).
  { destruct rule; simpl in Hf; try done; injection Hf as <-;
      split_and!; apply _. }
  destruct (f s) as [[] s'] eqn:Hs.
  - by apply HF.
  - by apply HR.
  - by eapply HU.
Qed.

(** ** Parsing always returns *)

Lemma Peg_Parse_returns (Buffer : string) : Peg_Parse Buffer ≠ ParseOutOfFuel.
Proof.
  unfold Peg_Parse.
  destruct (rules_Script (Peg_buffer Buffer) Peg_Init) as [[] s] eqn:Hs;
    try done.
  by apply fuelled in Hs.
Qed.

Lemma ParseTemplate_returns `{GoEnv} (text : string) (h : heap) :
  ParseTemplate text h ≠ TemplateOutOfFuel.
Proof.
  unfold ParseTemplate. pose proof (Peg_Parse_returns text).
  destruct (Peg_Parse text); try done.
  by destruct (Peg_Execute _ _ _ _).
Qed.

(** ** Malformed literals *)

Lemma Peg_Execute_fold `{GoEnv} buffer tokens a h :
  Peg_Execute buffer tokens a h =
    (r ← foldM (Execute_step buffer) ("", a) tokens; mret r.2) h.
Proof. reflexivity. Qed.

Lemma Peg_Execute_panics `{GoEnv} buffer tokens (n : nat) a h text a1 h1 token
    op msg :
  foldM (Execute_step buffer) ("", a) (take n tokens) h = Ok (text, a1) h1 →
  tokens !! n = Some token →
  action_of (tok_rule token) = Some op →
  op text a1 h1 = Panic msg →
  Peg_Execute buffer tokens a h = Panic msg.
Proof.
  intros Hpre Htok Hop Hpanic. rewrite Peg_Execute_fold.
  rewrite <- (take_drop_middle _ _ _ Htok). apply bind_Panic.
  rewrite foldM_app, (bind_Ok _ _ _ _ _ Hpre). cbn [foldM].
  apply bind_Panic. unfold Execute_step.
  destruct (tok_rule token); try discriminate; rewrite Hop;
    by apply bind_Panic.
Qed.

(** Replace a closed term by its value. *)
Ltac evaluate t :=
  let v := eval vm_compute in t in
  replace t with v by (vm_compute; reflexivity).


(** Run the first computation of a bind on a concrete heap. *)
Ltac mrun := erewrite bind_Ok by (vm_compute; reflexivity); cbn beta.

Lemma Parse_cidr_abc :
  Peg_Parse "create vpc cidr=10.0.0.0/abc" =
    ParseError {| tok_rule := ruleIpValue; tok_begin := 16; tok_end := 24 |}.
Proof. by vm_compute. Qed.

(** C5 fails as stated: [create vpc cidr=10.0.0.0/abc] is refused by the
    grammar, with an ordinary parse error whose furthest token is the
    IpValue [10.0.0.0]; [Execute] does not run, so [parseCIDR] is never
    called, whatever the library would answer, and nothing panics. *)
Lemma cidr_abc_is_a_parse_error :
  Peg_Parse "create vpc cidr=10.0.0.0/abc" =
    ParseError {| tok_rule := ruleIpValue; tok_begin := 16; tok_end := 24 |} ∧
  (∀ (E : GoEnv) (h : heap),
    @ParseTemplate E "create vpc cidr=10.0.0.0/abc" h =
      TemplateParseError
        {| tok_rule := ruleIpValue; tok_begin := 16; tok_end := 24 |}) ∧
  (∀ (E : GoEnv) (h : heap) msg,
    @ParseTemplate E "create vpc cidr=10.0.0.0/abc" h ≠ TemplatePanic msg).
Proof.
  split; [apply Parse_cidr_abc|].
  split; intros E h; unfold ParseTemplate; by rewrite Parse_cidr_abc.
Qed.

Lemma literal_panics `{GoEnv} (text : string) (s : AST) (h : heap) l v :
  builds h (currentStatement s) l →
  Expression_view h (Some l) = Some v →
  (strconv_Atoi text = None →
   AST_AddParamIntValue text s h =
     Panic ("cannot convert '" +:+ text +:+ "' to int")) ∧
  (net_ParseIP text = None →
   AST_AddParamIpValue text s h =
     Panic ("cannot convert '" +:+ text +:+ "' to net ip")) ∧
  (net_ParseCIDR text = None →
   AST_AddParamCidrValue text s h =
     Panic ("cannot convert '" +:+ text +:+ "' to net cidr")).
Proof.
  intros Hb Hv. destruct (Expression_view_node _ _ _ Hv) as [e Hl].
  pose proof (proj2 (AST_currentExpression_Some _ _ _) Hb) as Hcur.
  split_and!; intros Hlib.
  - unfold AST_AddParamIntValue. mstep Hcur.
    mstep (load_Expression_Some _ _ _ Hl).
    apply bind_Panic. unfold parseInt. by rewrite Hlib.
  - unfold AST_AddParamIpValue. mstep Hcur.
    mstep (load_Expression_Some _ _ _ Hl).
    apply bind_Panic. unfold parseIP. by rewrite Hlib.
  - unfold AST_AddParamCidrValue. mstep Hcur.
    mstep (load_Expression_Some _ _ _ Hl).
    apply bind_Panic. unfold parseCIDR. by rewrite Hlib.
Qed.

Lemma Execute_cidr_99 `{GoEnv} :
  net_ParseCIDR "10.0.0.0/99" = None →
  ParseTemplate "create vpc cidr=10.0.0.0/99" ∅ =
    TemplatePanic "cannot convert '10.0.0.0/99' to net cidr".
Proof.
  intros Hlib. unfold ParseTemplate.
  evaluate (Peg_Parse "create vpc cidr=10.0.0.0/99").
  erewrite (Peg_Execute_panics _ _ 20); [done|..].
  - vm_compute. reflexivity.
  - reflexivity.
  - reflexivity.
  - unfold AST_AddParamCidrValue. do 2 mrun.
    apply bind_Panic. unfold parseCIDR. by rewrite Hlib.
Qed.

Lemma Execute_ip_letters `{GoEnv} :
  net_ParseIP "1a2b3c4" = None →
  ParseTemplate "create instance ip=1a2b3c4" ∅ =
    TemplatePanic "cannot convert '1a2b3c4' to net ip".
Proof.
  intros Hlib. unfold ParseTemplate.
  evaluate (Peg_Parse "create instance ip=1a2b3c4").
  erewrite (Peg_Execute_panics _ _ 20); [done|..].
  - vm_compute. reflexivity.
  - reflexivity.
  - reflexivity.
  - unfold AST_AddParamIpValue. do 2 mrun.
    apply bind_Panic. unfold parseIP. by rewrite Hlib.
Qed.

Lemma Execute_int_overflow `{GoEnv} :
  strconv_Atoi "99999999999999999999" = None →
  ParseTemplate "create instance count=99999999999999999999" ∅ =
    TemplatePanic "cannot convert '99999999999999999999' to int".
Proof.
  intros Hlib. unfold ParseTemplate.
  evaluate (Peg_Parse "create instance count=99999999999999999999").
  erewrite (Peg_Execute_panics _ _ 20); [done|..].
  - vm_compute. reflexivity.
  - reflexivity.
  - reflexivity.
  - unfold AST_AddParamIntValue. do 2 mrun.
    apply bind_Panic. unfold parseInt. by rewrite Hlib.
Qed.

(** C5, as the code has it: [create vpc cidr=10.0.0.0/abc] fails with an
    ordinary parse error (the CidrValue rule wants digits after the slash,
    the IpValue rule matches [10.0.0.0] and nothing matches the rest); it is
    neither a panic nor a String parameter.  Text that the IntValue, IpValue
    or CidrValue rule does match and that the library rejects is fatal: the
    builder operation panics in [parseInt], [parseIP] or [parseCIDR], as for
    [cidr=10.0.0.0/99], [ip=1a2b3c4] and [count=99999999999999999999]. *)
Theorem rejected_literals_are_fatal `{GoEnv} :
  (∀ h, ParseTemplate "create vpc cidr=10.0.0.0/abc" h =
          TemplateParseError
            {| tok_rule := ruleIpValue; tok_begin := 16; tok_end := 24 |}) ∧
  (∀ text (s : AST) (h : heap) l v,
     builds h (currentStatement s) l →
     Expression_view h (Some l) = Some v →
     (strconv_Atoi text = None →
      AST_AddParamIntValue text s h =
        Panic ("cannot convert '" +:+ text +:+ "' to int")) ∧
     (net_ParseIP text = None →
      AST_AddParamIpValue text s h =
        Panic ("cannot convert '" +:+ text +:+ "' to net ip")) ∧
     (net_ParseCIDR text = None →
      AST_AddParamCidrValue text s h =
        Panic ("cannot convert '" +:+ text +:+ "' to net cidr"))) ∧
  (net_ParseCIDR "10.0.0.0/99" = None →
   ParseTemplate "create vpc cidr=10.0.0.0/99" ∅ =
     TemplatePanic "cannot convert '10.0.0.0/99' to net cidr") ∧
  (net_ParseIP "1a2b3c4" = None →
   ParseTemplate "create instance ip=1a2b3c4" ∅ =
     TemplatePanic "cannot convert '1a2b3c4' to net ip") ∧
  (strconv_Atoi "99999999999999999999" = None →
   ParseTemplate "create instance count=99999999999999999999" ∅ =
     TemplatePanic "cannot convert '99999999999999999999' to int").
Proof.
  split_and!.
  - intros h. unfold ParseTemplate. by rewrite Parse_cidr_abc.
  - intros text s h l v. apply literal_panics.
  - apply Execute_cidr_99.
  - apply Execute_ip_letters.
  - apply Execute_int_overflow.
Qed.

(** ** Rendering and parsing again *)

Lemma Parse_var_nil :
  Peg_Parse "var x = <nil>" =
    ParseError {| tok_rule := ruleWhitespace; tok_begin := 7; tok_end := 8 |}.
Proof. by vm_compute. Qed.

(** C4 on the source [var x = {h}]: it parses to a Var statement with the
    hole [h]; the AST renders as [var x = <nil>], the hole being left out;
    and that string does not parse, so there is nothing to render a second
    time. *)
Theorem Var_hole_renders_unparsable :
  ∃ a h s st,
    @ParseTemplate canonicalEnv "var x = {h}" ∅ = Template a h ∧
    Statements a = [s] ∧ Statement_at h s = Some st ∧
    Var_view h (Node st) =
      Some {| vIdent := "x"; vVal := VNil; vHole := {["x" := "h"]} |} ∧
    @AST_String canonicalEnv a h = Ok "var x = <nil>" h ∧
    (∀ (E : GoEnv) (h' : heap),
       @ParseTemplate E "var x = <nil>" h' =
         TemplateParseError
           {| tok_rule := ruleWhitespace; tok_begin := 7; tok_end := 8 |}).
Proof.
  eexists _, _, _, _.
  split; [by vm_compute|]. split; [by vm_compute|]. split; [by vm_compute|].
  split; [by vm_compute|]. split; [by vm_compute|].
  intros E h'. unfold ParseTemplate. by rewrite Parse_var_nil.
Qed.

(** A source without a Var hole parses to an AST that renders as the source
    itself. *)
Example round_trip_expression :
  ∃ a h,
    @ParseTemplate canonicalEnv "x = create vpc a=$r b=@al c={ho} d=str" ∅
      = Template a h ∧
    @AST_String canonicalEnv a h =
      Ok "x = create vpc a=$r b=@al c={ho} d=str" h.
Proof.
  eexists _, _. split; [by vm_compute|]. by vm_compute.
Qed.

(** ** The theorems at concrete inputs *)

Lemma canonicalEnv_ok : GoEnvOk canonicalEnv.
Proof. intros V m. reflexivity. Qed.

Lemma reversedEnv_ok : GoEnvOk reversedEnv.
Proof. intros V m. apply reverse_Permutation. Qed.

Lemma ExecutionStatements_excludes_Var_witness :
  Forall (readable_Statement two_statements) (Statements two_statements_AST) ∧
  AST_ExecutionStatements two_statements_AST two_statements =
    Ok (filter (λ sts, wraps_Var two_statements sts = false)
               (Statements two_statements_AST)) two_statements.
Proof.
  assert (Forall (readable_Statement two_statements)
            (Statements two_statements_AST)) as Hl.
  { repeat constructor; eexists; (split; [by vm_compute|]);
      vm_compute; by eexists. }
  split; [exact Hl|].
  exact (@ExecutionStatements_excludes_Var canonicalEnv _ _ Hl).
Defined.


Lemma ProcessHoles_resolves_filled_witness :
  (∃ h', @ExpressionNode_ProcessHoles canonicalEnv (Some 9%positive)
           {["ho" := VInt 5]} two_statements =
           Ok (resolved {["ho" := VInt 5]} (vHoles two_statements_expr)) h' ∧
     Expression_view h' (Some 9%positive) =
       Some (with_Holes
               (with_Params two_statements_expr
                  (resolved {["ho" := VInt 5]} (vHoles two_statements_expr)
                     ∪ vParams two_statements_expr))
               (unresolved {["ho" := VInt 5]} (vHoles two_statements_expr)))) ∧
  (∃ h' val', @VarNode_ProcessHoles canonicalEnv (Some 3%positive)
           {["h" := VInt 5]} two_statements =
           Ok (requested {["h" := VInt 5]} (vHole two_statements_var)) h' ∧
     Var_view h' (Some 3%positive) =
       Some {| vIdent := "x"; vVal := val';
               vHole := unresolved {["h" := VInt 5]}
                          (vHole two_statements_var) |} ∧
     (resolved {["h" := VInt 5]} (vHole two_statements_var) = ∅ ∧
        val' = vVal two_statements_var ∨
      ∃ key hole, vHole two_statements_var !! key = Some hole ∧
        ({["h" := VInt 5]} : gmap string value) !! hole = Some val')).
Proof.
  assert (Expression_view two_statements (Some 9%positive) =
            Some two_statements_expr) as Hv by by vm_compute.
  assert (Var_view two_statements (Some 3%positive) =
            Some two_statements_var) as Hw by by vm_compute.
  split.
  - exact (proj1 (@ProcessHoles_resolves_filled canonicalEnv
             {["ho" := VInt 5]} two_statements (Some 9%positive)
             canonicalEnv_ok) _ Hv).
  - exact (proj2 (@ProcessHoles_resolves_filled canonicalEnv
             {["h" := VInt 5]} two_statements (Some 3%positive)
             canonicalEnv_ok) _ Hw).
Defined.

Lemma Var_hole_is_keyed_by_its_identifier_witness :
  ∃ a1 h1 a2 h2 stat st processed h3,
    AST_AddVarIdentifier "x" emptyAST ∅ = Ok a1 h1 ∧
    AST_AddVarHoleValue "h" a1 h1 = Ok a2 h2 ∧
    currentStatement a2 = Some stat ∧
    Statements a2 = Statements emptyAST ++ [Some stat] ∧
    Statement_at h2 (Some stat) = Some st ∧
    Var_view h2 (Node st) =
      Some {| vIdent := "x"; vVal := VNil; vHole := {["x" := "h"]} |} ∧
    @VarNode_ProcessHoles canonicalEnv (Node st) {["h" := VInt 3]} h2 =
      Ok processed h3 ∧
    Var_view h3 (Node st) =
      Some {| vIdent := "x"; vVal := VInt 3; vHole := ∅ |}.
Proof.
  exact (@Var_hole_is_keyed_by_its_identifier canonicalEnv "x" "h"
           {["h" := VInt 3]} (VInt 3) emptyAST ∅ canonicalEnv_ok eq_refl).
Defined.


Lemma ExpressionNode_String_is_sorted_witness :
  ∃ all,
    all ≡ₚ rendered_params two_statements_expr ∧ Sorted string_le all ∧
    @ExpressionNode_String canonicalEnv (Some 9%positive) two_statements =
      Ok (vAction two_statements_expr +:+ " " +:+ vEntity two_statements_expr
            +:+ " " +:+ strings_Join all " ") two_statements ∧
    @ExpressionNode_String reversedEnv (Some 5%positive) same_expression =
      Ok (vAction two_statements_expr +:+ " " +:+ vEntity two_statements_expr
            +:+ " " +:+ strings_Join all " ") same_expression.
Proof.
  assert (Expression_view two_statements (Some 9%positive) =
            Some two_statements_expr) as Hv1 by by vm_compute.
  assert (Expression_view same_expression (Some 5%positive) =
            Some two_statements_expr) as Hv2 by by vm_compute.
  exact (ExpressionNode_String_is_sorted canonicalEnv reversedEnv _ _ _ _ _
           canonicalEnv_ok reversedEnv_ok Hv1 Hv2).
Defined.

Lemma rule_functions_keep_the_cursor_witness :
  rules (Peg_buffer "a=1") ruleIdentifier =
    Some (rules_Identifier (Peg_buffer "a=1")) ∧
  match rules_Identifier (Peg_buffer "a=1") Peg_Init with
  | (Matched, s') =>
      (position Peg_Init ≤ position s')%nat ∧
      (tokenIndex Peg_Init ≤ tokenIndex s')%nat
  | (Failed, s') =>
      position s' = position Peg_Init ∧ tokenIndex s' = tokenIndex Peg_Init
  | (OutOfFuel, _) => False
  end.
Proof.
  split; [reflexivity|].
  exact (rule_functions_keep_the_cursor (Peg_buffer "a=1") ruleIdentifier
           _ Peg_Init eq_refl).
Defined.

Lemma rejected_literals_are_fatal_witness :
  @ParseTemplate canonicalEnv "create vpc cidr=10.0.0.0/99" ∅ =
    TemplatePanic "cannot convert '10.0.0.0/99' to net cidr" ∧
  @ParseTemplate canonicalEnv "create instance ip=1a2b3c4" ∅ =
    TemplatePanic "cannot convert '1a2b3c4' to net ip" ∧
  @ParseTemplate canonicalEnv "create instance count=99999999999999999999" ∅ =
    TemplatePanic "cannot convert '99999999999999999999' to int".
Proof.
  pose proof (@rejected_literals_are_fatal canonicalEnv) as Hfatal.
  exact (conj (proj1 (proj2 (proj2 Hfatal)) eq_refl)
           (conj (proj1 (proj2 (proj2 (proj2 Hfatal))) eq_refl)
                 (proj2 (proj2 (proj2 (proj2 Hfatal))) eq_refl))).
Defined.

(** ** Reference resolution *)

(** [ProcessRefs] moves the fill of every reference whose name has one into
    Params under the reference's key (over an entry already there) and
    deletes the reference; the references without a fill stay, Aliases and
    Holes are not touched, and no object outside the expression and its maps
    changes. *)
Theorem ProcessRefs_moves_filled_refs `{GoEnv} (fills : gmap string value)
    (h : heap) (n : ptr) (v : ExprView) :
  GoEnvOk _ →
  Expression_view h n = Some v →
  ∃ h', ExpressionNode_ProcessRefs n fills h = Ok () h' ∧
    Expression_view h' n =
      Some {| vAction := vAction v; vEntity := vEntity v;
              vRefs := unresolved fills (vRefs v);
              vParams := resolved fills (vRefs v) ∪ vParams v;
              vAliases := vAliases v; vHoles := vHoles v |} ∧
    unchanged_outside (Expression_locs h n) h h'.
Proof.
  intros Hok Hv.
  destruct (ExpressionNode_ProcessRefs_spec fills h n v Hok Hv)
    as (h' & E & Hv' & Hframe).
  exists h'. by split_and!.
Qed.

Lemma ProcessRefs_moves_filled_refs_witness :
  ∃ h', @ExpressionNode_ProcessRefs canonicalEnv (Some 9%positive)
          {["x" := VString "vpc-0"]} two_statements = Ok () h' ∧
    Expression_view h' (Some 9%positive) =
      Some {| vAction := "create"; vEntity := "vpc";
              vRefs := unresolved {["x" := VString "vpc-0"]}
                         (vRefs two_statements_expr);
              vParams := resolved {["x" := VString "vpc-0"]}
                           (vRefs two_statements_expr)
                         ∪ vParams two_statements_expr;
              vAliases := ∅; vHoles := {["c" := "ho"]} |} ∧
    unchanged_outside (Expression_locs two_statements (Some 9%positive))
      two_statements h'.
Proof.
  assert (Expression_view two_statements (Some 9%positive) =
            Some two_statements_expr) as Hv by by vm_compute.
  exact (@ProcessRefs_moves_filled_refs canonicalEnv _ _ _ _
           canonicalEnv_ok Hv).
Defined.

(** ** Resolving twice *)

Lemma resolved_unresolved fills (m : gmap string string) :
  resolved fills (unresolved fills m) = ∅.
Proof.
  apply map_eq. intros k. unfold resolved, unresolved.
  rewrite lookup_omap, lookup_empty.
  destruct (filter _ m !! k) as [name|] eqn:Hk; [|done].
  apply map_lookup_filter_Some in Hk as [_ Hnone]. done.
Qed.

Lemma unresolved_unresolved fills (m : gmap string string) :
  unresolved fills (unresolved fills m) = unresolved fills m.
Proof.
  unfold unresolved. apply map_eq. intros k.
  destruct (filter _ m !! k) as [name|] eqn:Hk.
  - apply map_lookup_filter_Some. split; [done|].
    by apply map_lookup_filter_Some in Hk as [_ ?].
  - apply map_lookup_filter_None. by left.
Qed.

(** [ProcessHoles] a second time with the same fills finds nothing to
    resolve: it returns the empty map and leaves the expression as the first
    run left it. *)
Theorem ProcessHoles_twice `{GoEnv} (fills : gmap string value)
    (h : heap) (n : ptr) (v : ExprView) :
  GoEnvOk _ →
  Expression_view h n = Some v →
  ∃ h1 h2 v1,
    ExpressionNode_ProcessHoles n fills h =
      Ok (resolved fills (vHoles v)) h1 ∧
    Expression_view h1 n = Some v1 ∧
    ExpressionNode_ProcessHoles n fills h1 = Ok ∅ h2 ∧
    Expression_view h2 n = Some v1.
Proof.
  intros Hok Hv.
  destruct (ExpressionNode_ProcessHoles_spec fills h n v Hok Hv)
    as (h1 & E1 & Hv1 & _).
  destruct (ExpressionNode_ProcessHoles_spec fills h1 n _ Hok Hv1)
    as (h2 & E2 & Hv2 & _).
  cbn [vHoles vParams with_Holes with_Params] in E2, Hv2.
  rewrite resolved_unresolved in E2, Hv2.
  rewrite unresolved_unresolved, (left_id_L ∅ (∪)) in Hv2.
  eexists h1, h2, _. split_and!; [exact E1|exact Hv1|exact E2|].
  rewrite Hv2. reflexivity.
Qed.

Lemma ProcessHoles_twice_witness :
  ∃ h1 h2 v1,
    @ExpressionNode_ProcessHoles canonicalEnv (Some 9%positive)
      {["ho" := VInt 5]} two_statements =
      Ok (resolved {["ho" := VInt 5]} (vHoles two_statements_expr)) h1 ∧
    Expression_view h1 (Some 9%positive) = Some v1 ∧
    @ExpressionNode_ProcessHoles canonicalEnv (Some 9%positive)
      {["ho" := VInt 5]} h1 = Ok ∅ h2 ∧
    Expression_view h2 (Some 9%positive) = Some v1.
Proof.
  assert (Expression_view two_statements (Some 9%positive) =
            Some two_statements_expr) as Hv by by vm_compute.
  exact (@ProcessHoles_twice canonicalEnv _ _ _ _ canonicalEnv_ok Hv).
Defined.

(** ** Clones *)

(** [Clone] returns an AST with one new statement per statement of the
    source, in the same order, each the clone of the source's (the node
    cloned, Result and Err kept, no Line); the returned AST has no current
    statement and no current key, and every object of the source is left as
    it was. *)
Theorem Clone_clones_each_statement `{GoEnv} (a : AST) (h : heap) :
  GoEnvOk _ →
  Forall (λ s, ∃ st nv, Statement_at h s = Some st ∧
                        Node_view h (Node st) = Some nv) (Statements a) →
  ∃ a' h', AST_Clone a h = Ok a' h' ∧ h ⊆ h' ∧
    length (Statements a') = length (Statements a) ∧
    Forall2 (cloned h h') (Statements a) (Statements a') ∧
    currentStatement a' = None ∧ currentKey a' = "".
Proof.
  intros Hok Hl.
  destruct (AST_Clone_spec a h Hok Hl) as (a' & h' & E & Hsub & Hall & Hcur).
  exists a', h'. split_and!; try done.
  - symmetry. by eapply Forall2_length.
  - unfold AST_Clone in E. apply bind_Ok_inv in E as (stats & h1 & _ & E).
    by injection E as <- _.
Qed.

Lemma Clone_clones_each_statement_witness :
  ∃ a' h', @AST_Clone canonicalEnv two_statements_AST two_statements =
             Ok a' h' ∧ two_statements ⊆ h' ∧
    length (Statements a') = length (Statements two_statements_AST) ∧
    Forall2 (cloned two_statements h') (Statements two_statements_AST)
      (Statements a') ∧
    currentStatement a' = None ∧ currentKey a' = "".
Proof.
  assert (Forall (λ s, ∃ st nv, Statement_at two_statements s = Some st ∧
                    Node_view two_statements (Node st) = Some nv)
            (Statements two_statements_AST)) as Hl.
  { repeat constructor; eexists _, _; split; by vm_compute. }
  exact (@Clone_clones_each_statement canonicalEnv _ _ canonicalEnv_ok Hl).
Defined.

(** The clone of an expression shares no map with its source: resolving
    holes on the clone changes the clone's Params and Holes and leaves the
    source expression with the entries it had. *)
Theorem clone_of_expression_is_independent `{GoEnv}
    (fills : gmap string value) (h : heap) (n : ptr) (v : ExprView) :
  GoEnvOk _ →
  Expression_view h n = Some v →
  ∃ n' h1 h2,
    ExpressionNode_clone n h = Ok n' h1 ∧
    Expression_view h1 n' = Some v ∧
    ExpressionNode_ProcessHoles n' fills h1 =
      Ok (resolved fills (vHoles v)) h2 ∧
    Expression_view h2 n' =
      Some {| vAction := vAction v; vEntity := vEntity v;
              vRefs := vRefs v;
              vParams := resolved fills (vHoles v) ∪ vParams v;
              vAliases := vAliases v;
              vHoles := unresolved fills (vHoles v) |} ∧
    Expression_view h2 n = Some v.
Proof.
  intros Hok Hv.
  destruct (clone_resolution_leaves_source fills h n v Hok Hv)
    as (n' & h1 & h2 & E1 & E2 & Hv2 & Hsrc & _).
  destruct (ExpressionNode_clone_spec h n v Hok Hv)
    as (l & e' & h1' & E1' & _ & _ & _ & Hv1 & _).
  rewrite E1 in E1'. injection E1' as -> ->.
  exists (Some l), h1', h2. by split_and!.
Qed.

Lemma clone_of_expression_is_independent_witness :
  ∃ n' h1 h2,
    @ExpressionNode_clone canonicalEnv (Some 9%positive) two_statements =
      Ok n' h1 ∧
    Expression_view h1 n' = Some two_statements_expr ∧
    @ExpressionNode_ProcessHoles canonicalEnv n' {["ho" := VInt 5]} h1 =
      Ok (resolved {["ho" := VInt 5]} (vHoles two_statements_expr)) h2 ∧
    Expression_view h2 n' =
      Some {| vAction := "create"; vEntity := "vpc";
              vRefs := {["b" := "x"]};
              vParams := resolved {["ho" := VInt 5]}
                           (vHoles two_statements_expr)
                         ∪ vParams two_statements_expr;
              vAliases := ∅;
              vHoles := unresolved {["ho" := VInt 5]}
                          (vHoles two_statements_expr) |} ∧
    Expression_view h2 (Some 9%positive) = Some two_statements_expr.
Proof.
  assert (Expression_view two_statements (Some 9%positive) =
            Some two_statements_expr) as Hv by by vm_compute.
  exact (@clone_of_expression_is_independent canonicalEnv _ _ _ _
           canonicalEnv_ok Hv).
Defined.

(** ** What Execute does with the tokens *)







(** ** The cursor stays inside the buffer *)

Section InBuffer.
Variable buffer : list rune.
Hypothesis buffer_end : last buffer = Some endSymbol.

(** A rune that is not the end symbol is not the last one of the buffer. *)
Lemma advance_in_buffer s :
  peek buffer s ≠ endSymbol → (S (position s) < length buffer)%nat.
Proof.
  intros Hne. pose proof (peek_in_buffer buffer s Hne) as Hlt.
  destruct (decide (S (position s) = length buffer)) as [Heq|]; [|lia].
  exfalso. apply Hne. unfold peek.
  rewrite last_lookup, <- Heq in buffer_end. simpl in buffer_end.
  by rewrite nth_lookup, buffer_end.
Qed.

Lemma in_range_advance s :
  in_range buffer s → peek buffer s ≠ endSymbol →
  in_range buffer (advance s).
Proof.
  intros (_ & ? & ?) Hne. split; [|done]. simpl. by apply advance_in_buffer.
Qed.

Lemma in_range_restore s s1 :
  in_range buffer s → in_range buffer s1 →
  (length (tree s) ≤ length (tree s1))%nat →
  in_range buffer (restore (position s) (tokenIndex s) s1).
Proof.
  intros (? & ? & ?) (? & ? & ?) ?. unfold in_range. simpl. lia.
Qed.

Lemma length_tokens32_Add t rule begin end_ index :
  length (tokens32_Add t rule begin end_ index) =
    if decide (length t ≤ index)%nat then (length t + length t)%nat
    else length t.
Proof.
  unfold tokens32_Add. rewrite length_insert.
  case_decide; [|done]. by rewrite length_app, length_replicate.
Qed.

Local Instance succeed_inside : Inside buffer succeed.
Proof. intros s o s' Hs [= <- <-]. done. Qed.

Local Instance add_inside rule begin : Inside buffer (add rule begin).
Proof.
  intros s o s' (Hp & Hi & Ht) [= <- <-]. unfold in_range. simpl.
  rewrite length_tokens32_Add. case_decide; lia.
Qed.

Local Instance matchDot_inside : Inside buffer (matchDot buffer).
Proof.
  intros s o s' Hs. unfold matchDot. case_decide as Hne; intros [= <- <-].
  - split; [by apply in_range_advance|done].
  - done.
Qed.

Local Instance char_inside c : Inside buffer (char buffer c).
Proof.
  intros s o s' Hs. unfold char. case_decide as Hne; intros [= <- <-].
  - done.
  - split; [|done]. apply in_range_advance; [done|].
    rewrite Hne.
    pose proof (rune_of_bound c). unfold endSymbol. lia.
Qed.

Local Instance class_inside lo hi : Inside buffer (class buffer lo hi).
Proof.
  intros s o s' Hs. unfold class. case_decide as Hne; intros [= <- <-].
  - done.
  - split; [|done]. apply in_range_advance; [done|].
    pose proof (rune_of_bound hi). unfold endSymbol. lia.
Qed.

Local Instance seq_inside a b :
  Inside buffer a → Inside buffer b → Inside buffer (a >> b).
Proof.
  intros Ha Hb s o s' Hs. unfold seq.
  destruct (a s) as [[] s1] eqn:Has; destruct (Ha _ _ _ Hs Has) as [Hs1 Hle].
  - intros Hbs. destruct (Hb _ _ _ Hs1 Hbs). split; [done|lia].
  - by intros [= <- <-].
  - by intros [= <- <-].
Qed.

Local Instance mark_inside f :
  (∀ p, Inside buffer (f p)) → Inside buffer (mark f).
Proof. intros Hf s o s'. apply Hf. Qed.

Local Instance add_here_inside rule : Inside buffer (add_here rule).
Proof. unfold add_here. apply _. Qed.

Local Instance switch_inside f :
  (∀ c, Inside buffer (f c)) → Inside buffer (switch buffer f).
Proof. intros Hf s o s'. apply Hf. Qed.

Local Instance if_inside (c : bool) a b :
  Inside buffer a → Inside buffer b → Inside buffer (if c then a else b).
Proof. by destruct c. Qed.

Local Instance decide_inside P `{Decision P} a b :
  Inside buffer a → Inside buffer b →
  Inside buffer (if decide P then a else b).
Proof. by destruct (decide P). Qed.

Local Instance alt_inside a b :
  Inside buffer a → Inside buffer b → Inside buffer (a </> b).
Proof.
  intros Ha Hb s o s' Hs. unfold alt.
  destruct (a s) as [[] s1] eqn:Has; destruct (Ha _ _ _ Hs Has) as [Hs1 Hle].
  - by intros [= <- <-].
  - intros Hbs.
    destruct (Hb _ _ _ (in_range_restore _ _ Hs Hs1 Hle) Hbs) as [? Hle'].
    split; [done|]. simpl in Hle'. lia.
  - by intros [= <- <-].
Qed.

Local Instance opt_inside a : Inside buffer a → Inside buffer (opt a).
Proof.
  intros Ha s o s' Hs. unfold opt.
  destruct (a s) as [[] s1] eqn:Has; destruct (Ha _ _ _ Hs Has) as [Hs1 Hle];
    intros [= <- <-]; try done.
  split; [by apply in_range_restore|done].
Qed.

Local Instance neg_inside a : Inside buffer a → Inside buffer (neg a).
Proof.
  intros Ha s o s' Hs. unfold neg.
  destruct (a s) as [[] s1] eqn:Has; destruct (Ha _ _ _ Hs Has) as [Hs1 Hle];
    intros [= <- <-]; try done.
  split; [by apply in_range_restore|done].
Qed.

Local Instance lit_inside w : Inside buffer (lit buffer w).
Proof. induction w; simpl; apply _. Qed.

Local Instance star_inside n a : Inside buffer a → Inside buffer (star n a).
Proof.
  intros Ha. induction n as [|n IH]; intros s o s' Hs; simpl.
  { by intros [= <- <-]. }
  destruct (a s) as [[] s1] eqn:Has; destruct (Ha _ _ _ Hs Has) as [Hs1 Hle].
  - intros Hstar. destruct (IH _ _ _ Hs1 Hstar). split; [done|lia].
  - intros [= <- <-]. split; [by apply in_range_restore|done].
  - by intros [= <- <-].
Qed.

Local Instance rule_fn_inside a : Inside buffer a → Inside buffer (rule_fn a).
Proof.
  intros Ha s o s' Hs. unfold rule_fn.
  destruct (a s) as [[] s1] eqn:Has; destruct (Ha _ _ _ Hs Has) as [Hs1 Hle];
    intros [= <- <-]; try done.
  split; [by apply in_range_restore|done].
Qed.

Local Instance pegText_inside a : Inside buffer a → Inside buffer (pegText a).
Proof. unfold pegText. apply _. Qed.

Local Instance Whitespace_inside : Inside buffer (rules_Whitespace buffer).
Proof. unfold rules_Whitespace. apply _. Qed.
Local Instance EndOfLine_inside : Inside buffer (rules_EndOfLine buffer).
Proof. unfold rules_EndOfLine. apply _. Qed.
Local Instance Spacing_inside : Inside buffer (rules_Spacing buffer).
Proof. unfold rules_Spacing. apply _. Qed.
Local Instance WhiteSpacing_inside : Inside buffer (rules_WhiteSpacing buffer).
Proof. unfold rules_WhiteSpacing. apply _. Qed.
Local Instance MustWhiteSpacing_inside : Inside buffer (rules_MustWhiteSpacing buffer).
Proof. unfold rules_MustWhiteSpacing. apply _. Qed.
Local Instance Equal_inside : Inside buffer (rules_Equal buffer).
Proof. unfold rules_Equal. apply _. Qed.
Local Instance Identifier_char_inside : Inside buffer (Identifier_char buffer).
Proof. unfold Identifier_char. apply _. Qed.
Local Instance Identifier_inside : Inside buffer (rules_Identifier buffer).
Proof. unfold rules_Identifier. apply _. Qed.
Local Instance StringValue_char_inside : Inside buffer (StringValue_char buffer).
Proof. unfold StringValue_char. apply _. Qed.
Local Instance StringValue_inside : Inside buffer (rules_StringValue buffer).
Proof. unfold rules_StringValue. apply _. Qed.
Local Instance digits1_inside : Inside buffer (digits1 buffer).
Proof. unfold digits1. apply _. Qed.
Local Instance CidrValue_inside : Inside buffer (rules_CidrValue buffer).
Proof. unfold rules_CidrValue. apply _. Qed.
Local Instance IpValue_inside : Inside buffer (rules_IpValue buffer).
Proof. unfold rules_IpValue. apply _. Qed.
Local Instance IntValue_inside : Inside buffer (rules_IntValue buffer).
Proof. unfold rules_IntValue. apply _. Qed.
Local Instance IntRangeValue_inside : Inside buffer (rules_IntRangeValue buffer).
Proof. unfold rules_IntRangeValue. apply _. Qed.
Local Instance HoleValue_inside : Inside buffer (rules_HoleValue buffer).
Proof. unfold rules_HoleValue. apply _. Qed.
Local Instance Action_inside : Inside buffer (inline_Action buffer).
Proof. unfold inline_Action. apply _. Qed.
Local Instance Entity_inside : Inside buffer (inline_Entity buffer).
Proof. unfold inline_Entity. apply _. Qed.
Local Instance Value_inside : Inside buffer (inline_Value buffer).
Proof. unfold inline_Value. apply _. Qed.
Local Instance Param_inside : Inside buffer (inline_Param buffer).
Proof. unfold inline_Param. apply _. Qed.
Local Instance Params_inside : Inside buffer (inline_Params buffer).
Proof. unfold inline_Params. apply _. Qed.
Local Instance Expr_inside : Inside buffer (rules_Expr buffer).
Proof. unfold rules_Expr. apply _. Qed.
Local Instance Var_inside : Inside buffer (inline_Var buffer).
Proof. unfold inline_Var. apply _. Qed.
Local Instance VarValue_inside : Inside buffer (inline_VarValue buffer).
Proof. unfold inline_VarValue. apply _. Qed.
Local Instance VarDeclaration_inside : Inside buffer (inline_VarDeclaration buffer).
Proof. unfold inline_VarDeclaration. apply _. Qed.
Local Instance Declaration_inside : Inside buffer (inline_Declaration buffer).
Proof. unfold inline_Declaration. apply _. Qed.
Local Instance rest_of_line_inside : Inside buffer (rest_of_line buffer).
Proof. unfold rest_of_line. apply _. Qed.
Local Instance Comment_inside : Inside buffer (inline_Comment buffer).
Proof. unfold inline_Comment. apply _. Qed.
Local Instance Statement_inside : Inside buffer (inline_Statement buffer).
Proof. unfold inline_Statement. apply _. Qed.
Local Instance EndOfFile_inside : Inside buffer (inline_EndOfFile buffer).
Proof. unfold inline_EndOfFile. apply _. Qed.
Local Instance Script_inside : Inside buffer (rules_Script buffer).
Proof. unfold rules_Script. apply _. Qed.

Lemma rules_inside rule f : rules buffer rule = Some f → Inside buffer f.
Proof.
  intros Hf. destruct rule; simpl in Hf; try done; injection Hf as <-;
    apply _.
Qed.



End InBuffer.

Lemma Peg_buffer_end (Buffer : string) :
  last (Peg_buffer Buffer) = Some endSymbol.
Proof.
  unfold Peg_buffer. case_decide as Hlast.
  - by rewrite last_snoc.
  - apply dec_stable. intros Hne. apply Hlast. by right.
Qed.

(** The parser reads and writes in range: run on a buffer that ends with
    the end symbol, from a cursor inside the buffer and a token index inside
    the non-empty token array (or just past its end), a rule function
    returns with the position still inside the buffer and the token index
    still inside the array; the array never shrinks.  So no [buffer[position]]
    and no [tree[index]] of the parser is out of range. *)
Theorem rule_functions_stay_in_range (buffer : list rune) (rule : pegRule)
    (f : F) (s : pstate) :
  last buffer = Some endSymbol →
  rules buffer rule = Some f →
  (position s < length buffer)%nat →
  (tokenIndex s ≤ length (tree s))%nat →
  (0 < length (tree s))%nat →
  (position (f s).2 < length buffer)%nat ∧
  (tokenIndex (f s).2 ≤ length (tree (f s).2))%nat ∧
  (length (tree s) ≤ length (tree (f s).2))%nat.
Proof.
  intros Hend Hf Hp Hi Ht.
  pose proof (rules_inside buffer Hend rule f Hf) as Hin.
  destruct (f s) as [o s'] eqn:Hs.
  destruct (Hin s o s' (conj Hp (conj Hi Ht)) Hs) as [(? & ? & ?) ?].
  done.
Qed.

Lemma rule_functions_stay_in_range_witness :
  (position (rules_Script (Peg_buffer "a=1") Peg_Init).2
     < length (Peg_buffer "a=1"))%nat ∧
  (tokenIndex (rules_Script (Peg_buffer "a=1") Peg_Init).2
     ≤ length (tree (rules_Script (Peg_buffer "a=1") Peg_Init).2))%nat ∧
  (length (tree Peg_Init)
     ≤ length (tree (rules_Script (Peg_buffer "a=1") Peg_Init).2))%nat.
Proof.
  apply (rule_functions_stay_in_range (Peg_buffer "a=1") ruleScript
           (rules_Script (Peg_buffer "a=1")) Peg_Init
           (Peg_buffer_end "a=1") eq_refl).
  - vm_compute. lia.
  - cbn [Peg_Init tokenIndex]. lia.
  - unfold Peg_Init. cbn [tree]. rewrite length_replicate. unfold MaxInt16. lia.
Defined.

(** ** The accessors of a statement *)

Lemma load_Node_view (h : heap) n nv :
  Node_view h n = Some nv → ∃ l o, n = Some l ∧ h !! l = Some o ∧ load n h = Ok o h.
Proof.
  destruct n as [l|]; [|done]. simpl.
  destruct (h !! l) as [o|] eqn:Hl; [|done]. intros _.
  exists l, o. unfold load. by rewrite ?Hl.
Qed.

(** [Action], [Entity] and [Params] of a statement are those of its
    expression: the node itself, or the right-hand side of a declaration;
    [Params] is the node's own map.  On a statement with a Var node (or a
    bare identifier) each of the three panics, naming the node's type. *)
Theorem Statement_accessors (h : heap) (s : ptr) (st : Statement)
    (nv : NodeView) :
  Statement_at h s = Some st →
  Node_view h (Node st) = Some nv →
  match nv with
  | ExpressionV v | DeclarationV _ v =>
      Statement_Action s h = Ok (vAction v) h ∧
      Statement_Entity s h = Ok (vEntity v) h ∧
      ∃ p, Statement_Params s h = Ok p h ∧
           IfaceMap_at h p = Some (vParams v)
  | VarV _ =>
      Statement_Action s h = Panic "unknown type of node *ast.VarNode" ∧
      Statement_Entity s h = Panic "unknown type of node *ast.VarNode" ∧
      Statement_Params s h = Panic "unknown type of node *ast.VarNode"
  | IdentifierV _ =>
      Statement_Action s h =
        Panic "unknown type of node *ast.IdentifierNode" ∧
      Statement_Entity s h =
        Panic "unknown type of node *ast.IdentifierNode" ∧
      Statement_Params s h =
        Panic "unknown type of node *ast.IdentifierNode"
  end.
Proof.
  intros Hst Hnv.
  destruct (load_Node_view _ _ _ Hnv) as (l & o & Hn & Hl & Hload).
  pose proof (load_Statement_at _ _ _ Hst) as Hls.
  unfold Statement_Action, Statement_Entity, Statement_Params.
  rewrite !(bind_Ok _ _ _ _ _ Hls), Hn. rewrite Hn in Hload, Hnv.
  rewrite !(bind_Ok _ _ _ _ _ Hload). cbn [Node_view] in Hnv. rewrite Hl in Hnv.
  destruct o as [| | i | vn | d | e | ]; try done.
  - injection Hnv as <-. split_and!; reflexivity.
  - destruct (Var_view h (Some l)); simpl in Hnv; [|done]. injection Hnv as <-.
    split_and!; reflexivity.
  - destruct (Identifier_at h (Left d)) as [left|]; simpl in Hnv; [|done].
    destruct (Expression_view h (Right d)) as [v|] eqn:Hv; simpl in Hnv; [|done].
    injection Hnv as <-.
    apply Expression_view_Some in Hv
      as (lr & e & Hr & Hlr & _ & _ & Hparams & _ & _ & <- & <-).
    rewrite Hr.
    rewrite !(bind_Ok _ _ _ _ _ (load_Expression_Some _ _ _ Hlr)).
    split_and!; try done. by exists (Params e).
  - destruct (Expression_view h (Some l)) as [v|] eqn:Hv; simpl in Hnv; [|done].
    injection Hnv as <-.
    apply Expression_view_Some in Hv
      as (l' & e' & [= <-] & Hl' & _ & _ & Hparams & _ & _ & <- & <-).
    rewrite Hl in Hl'. injection Hl' as <-.
    split_and!; try done. by exists (Params e).
Qed.

Lemma Statement_accessors_witness :
  (Statement_Action (Some 10%positive) two_statements =
     Ok "create" two_statements ∧
   Statement_Entity (Some 10%positive) two_statements =
     Ok "vpc" two_statements ∧
   ∃ p, Statement_Params (Some 10%positive) two_statements =
          Ok p two_statements ∧
        IfaceMap_at two_statements p = Some {["a" := VInt 1]}) ∧
  (Statement_Action (Some 4%positive) two_statements =
     Panic "unknown type of node *ast.VarNode" ∧
   Statement_Entity (Some 4%positive) two_statements =
     Panic "unknown type of node *ast.VarNode" ∧
   Statement_Params (Some 4%positive) two_statements =
     Panic "unknown type of node *ast.VarNode").
Proof.
  split.
  - apply (Statement_accessors two_statements (Some 10%positive)
             {| Node := Some 9%positive; Result := VString "vpc-1";
                Line := "create vpc a=1 b=$x c={ho}"; Err := Some "failed" |}
             (ExpressionV two_statements_expr)); by vm_compute.
  - apply (Statement_accessors two_statements (Some 4%positive)
             {| Node := Some 3%positive; Result := VNil;
                Line := ""; Err := None |}
             (VarV two_statements_var)); by vm_compute.
Defined.

(** ** The builder in the wrong state *)

Lemma AST_currentExpression_kind (s : AST) (h : heap) stat st nv :
  currentStatement s = Some stat →
  Statement_at h (Some stat) = Some st →
  Node_view h (Node st) = Some nv →
  match nv with
  | ExpressionV _ => AST_currentExpression s h = Ok (Node st) h
  | DeclarationV _ _ => ∃ l, AST_currentExpression s h = Ok (Some l) h
  | _ => AST_currentExpression s h =
           Panic "last expression: unexpected node type"
  end.
Proof.
  intros Hcur Hst Hnv.
  destruct (load_Node_view _ _ _ Hnv) as (l & o & Hn & Hl & Hload).
  unfold AST_currentExpression. rewrite Hcur.
  rewrite (bind_Ok _ _ _ _ _ (load_Statement_at _ _ _ Hst)), Hn.
  rewrite Hn in Hload, Hnv. rewrite (bind_Ok _ _ _ _ _ Hload).
  cbn [Node_view] in Hnv. rewrite Hl in Hnv.
  destruct o as [| | i | vn | d | e | ]; try done.
  - by injection Hnv as <-.
  - destruct (Var_view h (Some l)); simpl in Hnv; [|done]. by injection Hnv as <-.
  - destruct (Identifier_at h (Left d)) as [left|]; simpl in Hnv; [|done].
    destruct (Expression_view h (Right d)) as [v|] eqn:Hv; simpl in Hnv; [|done].
    injection Hnv as <-.
    apply Expression_view_Some in Hv as (lr & e & -> & _). by exists lr.
  - destruct (Expression_view h (Some l)); simpl in Hnv; [|done]. by injection Hnv as <-.
Qed.

Lemma AST_currentVarDecl_kind (s : AST) (h : heap) stat st nv :
  currentStatement s = Some stat →
  Statement_at h (Some stat) = Some st →
  Node_view h (Node st) = Some nv →
  match nv with
  | VarV _ => AST_currentVarDecl s h = Ok (Node st) h
  | _ => AST_currentVarDecl s h = Panic "expected var node type"
  end.
Proof.
  intros Hcur Hst Hnv.
  destruct (load_Node_view _ _ _ Hnv) as (l & o & Hn & Hl & Hload).
  unfold AST_currentVarDecl. rewrite Hcur.
  rewrite (bind_Ok _ _ _ _ _ (load_Statement_at _ _ _ Hst)), Hn.
  rewrite Hn in Hload, Hnv. rewrite (bind_Ok _ _ _ _ _ Hload).
  cbn [Node_view] in Hnv. rewrite Hl in Hnv.
  destruct o as [| | i | vn | d | e | ]; try done.
  - by injection Hnv as <-.
  - destruct (Var_view h (Some l)); simpl in Hnv; [|done]. by injection Hnv as <-.
  - destruct (Identifier_at h (Left d)) as [left|]; simpl in Hnv; [|done].
    destruct (Expression_view h (Right d)) as [v|] eqn:Hv; simpl in Hnv; [|done].
    by injection Hnv as <-.
  - destruct (Expression_view h (Some l)); simpl in Hnv; [|done]. by injection Hnv as <-.
Qed.

Lemma expression_ops_panic `{GoEnv} text (s : AST) (h : heap) msg :
  AST_currentExpression s h = Panic msg →
  Forall (λ op, op text s h = Panic msg) expression_ops.
Proof.
  intros Hcur. unfold expression_ops.
  repeat constructor; by apply bind_Panic.
Qed.

Lemma var_ops_panic `{GoEnv} text (s : AST) (h : heap) msg :
  AST_currentVarDecl s h = Panic msg →
  Forall (λ op, op text s h = Panic msg) var_ops.
Proof.
  intros Hcur. unfold var_ops.
  repeat constructor; by apply bind_Panic.
Qed.

(** The builder checks the node of the current statement before anything
    else: while a Var statement is current, every operation on an
    expression (AddAction, AddEntity, AddParamKey and the AddParam values)
    panics with [last expression: unexpected node type]; while an expression
    or a declaration is current, every operation on a variable panics with
    [expected var node type].  Nothing is written before the panic. *)
Theorem builder_checks_the_node_type `{GoEnv} (text : string) (s : AST)
    (h : heap) stat st nv :
  currentStatement s = Some stat →
  Statement_at h (Some stat) = Some st →
  Node_view h (Node st) = Some nv →
  match nv with
  | VarV _ =>
      Forall (λ op, op text s h =
                      Panic "last expression: unexpected node type")
        expression_ops
  | ExpressionV _ | DeclarationV _ _ =>
      Forall (λ op, op text s h = Panic "expected var node type") var_ops
  | IdentifierV _ =>
      Forall (λ op, op text s h =
                      Panic "last expression: unexpected node type")
        expression_ops ∧
      Forall (λ op, op text s h = Panic "expected var node type") var_ops
  end.
Proof.
  intros Hcur Hst Hnv.
  pose proof (AST_currentExpression_kind _ _ _ _ _ Hcur Hst Hnv) as He.
  pose proof (AST_currentVarDecl_kind _ _ _ _ _ Hcur Hst Hnv) as Hv.
  destruct nv; auto using expression_ops_panic, var_ops_panic.
Qed.

Lemma builder_checks_the_node_type_witness :
  Forall (λ op, op "10" {| Statements := [Some 4%positive; Some 10%positive];
                           currentStatement := Some 4%positive;
                           currentKey := "" |} two_statements =
                  Panic "last expression: unexpected node type")
    (@expression_ops canonicalEnv) ∧
  Forall (λ op, op "10" two_statements_building two_statements =
                  Panic "expected var node type")
    (@var_ops canonicalEnv).
Proof.
  split.
  - apply (@builder_checks_the_node_type canonicalEnv "10" _ two_statements
             4%positive
             {| Node := Some 3%positive; Result := VNil;
                Line := ""; Err := None |}
             (VarV two_statements_var)); by vm_compute.
  - apply (@builder_checks_the_node_type canonicalEnv "10" _ two_statements
             10%positive
             {| Node := Some 9%positive; Result := VString "vpc-1";
                Line := "create vpc a=1 b=$x c={ho}"; Err := Some "failed" |}
             (ExpressionV two_statements_expr)); by vm_compute.
Defined.

(** ** Starting an expression *)

Lemma AST_currentExpression_None (s : AST) (h : heap) :
  currentStatement s = None → AST_currentExpression s h = Ok None h.
Proof. intros Hcur. unfold AST_currentExpression. by rewrite Hcur. Qed.

Lemma AST_currentVarDecl_None (s : AST) (h : heap) :
  currentStatement s = None → AST_currentVarDecl s h = Ok None h.
Proof. intros Hcur. unfold AST_currentVarDecl. by rewrite Hcur. Qed.

Lemma AST_AddAction_new (text : string) (s : AST) (h : heap) :
  currentStatement s = None →
  ∃ n stat, h !! n = None ∧ h !! stat = None ∧ n ≠ stat ∧
    AST_AddAction text s h =
      Ok {| Statements := Statements s ++ [Some stat];
            currentStatement := Some stat; currentKey := currentKey s |}
         (<[stat := OStatement {| Node := Some n; Result := VNil;
                                  Line := ""; Err := None |}]>
            (<[n := OExpression {| Action := text; Entity := "";
                                   Refs := None; Params := None;
                                   Aliases := None; Holes := None |}]> h)).
Proof.
  intros Hcur. unfold AST_AddAction.
  rewrite (bind_Ok _ _ _ _ _ (AST_currentExpression_None _ _ Hcur)).
  destruct (alloc_fresh (OExpression {| Action := text; Entity := "";
    Refs := None; Params := None; Aliases := None; Holes := None |}) h)
    as (n & Hn & E1).
  rewrite (bind_Ok _ _ _ _ _ E1). unfold AST_addStatement.
  match goal with |- context [alloc ?o] =>
    destruct (alloc_fresh o (<[n := OExpression {| Action := text;
      Entity := ""; Refs := None; Params := None; Aliases := None;
      Holes := None |}]> h)) as (stat & Hstat & E2)
  end.
  rewrite (bind_Ok _ _ _ _ _ E2).
  apply lookup_insert_None in Hstat as [Hstat Hne].
  exists n, stat. by split_and!.
Qed.

(** [AddAction] with no statement under construction appends a new
    statement, makes it the current one, and gives it an expression with the
    action, an empty entity and no parameters; the objects of the heap stay
    as they were.  With an expression under construction it only replaces
    the expression's action: no statement is added. *)
Theorem AddAction_starts_or_renames (text : string) (s : AST) (h : heap) :
  (currentStatement s = None →
   ∃ stat st h',
     AST_AddAction text s h =
       Ok {| Statements := Statements s ++ [Some stat];
             currentStatement := Some stat; currentKey := currentKey s |} h' ∧
     h ⊆ h' ∧ h !! stat = None ∧
     Statement_at h' (Some stat) = Some st ∧
     Result st = VNil ∧ Line st = "" ∧ Err st = None ∧
     Expression_view h' (Node st) =
       Some {| vAction := text; vEntity := ""; vRefs := ∅; vParams := ∅;
               vAliases := ∅; vHoles := ∅ |}) ∧
  (∀ l v,
     builds h (currentStatement s) l →
     Expression_view h (Some l) = Some v →
     ∃ h', AST_AddAction text s h = Ok s h' ∧
       builds h' (currentStatement s) l ∧
       Expression_view h' (Some l) =
         Some {| vAction := text; vEntity := vEntity v; vRefs := vRefs v;
                 vParams := vParams v; vAliases := vAliases v;
                 vHoles := vHoles v |}).
Proof.
  split.
  - intros Hcur.
    destruct (AST_AddAction_new text s h Hcur)
      as (n & stat & Hn & Hstat & Hne & E).
    eexists stat, _, _. split; [exact E|].
    split_and!.
    + etrans; [apply (insert_subseteq _ n); exact Hn|].
      apply insert_subseteq. by rewrite lookup_insert_ne.
    + done.
    + simpl. by rewrite lookup_insert_eq.
    + done.
    + done.
    + done.
    + apply Expression_view_Some. eexists n, _. split; [done|].
      split; [by rewrite lookup_insert_ne, lookup_insert_eq|]. done.
  - intros l v Hb Hv.
    destruct (Expression_view_node _ _ _ Hv) as [e Hl].
    unfold AST_AddAction.
    rewrite (bind_Ok _ _ _ _ _ (proj2 (AST_currentExpression_Some _ _ _) Hb)).
    rewrite (bind_Ok _ _ _ _ _ (load_Expression_Some _ _ _ Hl)).
    rewrite (bind_Ok _ _ _ _ _ (store_Some _ _ _)).
    eexists. split; [reflexivity|].
    assert (Expression_view
      (<[l := OExpression {| Action := text; Entity := Entity e;
           Refs := Refs e; Params := Params e; Aliases := Aliases e;
           Holes := Holes e |}]> h) (Some l) =
      Some {| vAction := text; vEntity := vEntity v; vRefs := vRefs v;
              vParams := vParams v; vAliases := vAliases v;
              vHoles := vHoles v |}) as Hv'.
    { pose proof Hv as (l' & e0 & [= <-] & Hl' & Hsep & HR & HP & HA & HH & _ & HE)%Expression_view_Some.
      rewrite Hl in Hl'. injection Hl' as <-.
      apply Expression_view_Some. eexists l, _. split; [done|].
      split; [by rewrite lookup_insert_eq|]. simpl.
      split; [done|].
      rewrite !StrMap_at_insert_ne, IfaceMap_at_insert_ne; try done.
      - eapply IfaceMap_at_ne; [exact HP|exact Hl|done].
      - eapply StrMap_at_ne; [exact HH|exact Hl|done].
      - eapply StrMap_at_ne; [exact HA|exact Hl|done].
      - eapply StrMap_at_ne; [exact HR|exact Hl|done]. }
    split; [|exact Hv'].
    eapply builds_stable; [exact Hb|exact Hv| |].
    + apply unchanged_outside_store. eapply in_Expression_locs; eauto.
    + eexists. by rewrite lookup_insert_eq.
Qed.

Lemma AddAction_starts_or_renames_witness :
  (∃ stat st h',
     AST_AddAction "create" emptyAST ∅ =
       Ok {| Statements := Statements emptyAST ++ [Some stat];
             currentStatement := Some stat;
             currentKey := currentKey emptyAST |} h' ∧
     ∅ ⊆ h' ∧ (∅ : heap) !! stat = None ∧
     Statement_at h' (Some stat) = Some st ∧
     Result st = VNil ∧ Line st = "" ∧ Err st = None ∧
     Expression_view h' (Node st) =
       Some {| vAction := "create"; vEntity := ""; vRefs := ∅; vParams := ∅;
               vAliases := ∅; vHoles := ∅ |}) ∧
  (∃ h', AST_AddAction "delete" two_statements_building two_statements =
           Ok two_statements_building h' ∧
     builds h' (currentStatement two_statements_building) 9%positive ∧
     Expression_view h' (Some 9%positive) =
       Some {| vAction := "delete"; vEntity := "vpc";
               vRefs := {["b" := "x"]}; vParams := {["a" := VInt 1]};
               vAliases := ∅; vHoles := {["c" := "ho"]} |}).
Proof.
  split.
  - exact (proj1 (AddAction_starts_or_renames "create" emptyAST ∅) eq_refl).
  - apply (proj2 (AddAction_starts_or_renames "delete"
                    two_statements_building two_statements)
             9%positive two_statements_expr); [|by vm_compute].
    eexists _, _. split; [by vm_compute|]. split; [reflexivity|].
    left. split; [done|]. eexists. by vm_compute.
Defined.

(** ** Operations without a statement, values without a key *)

(** With no statement under construction (at the start and after
    [LineDone]) [currentExpression] and [currentVarDecl] return nil, and the
    operations that then write through it panic on the nil pointer:
    AddEntity, AddParamKey, the AddParam values that store the text, and
    AddVarValue and AddVarHoleValue. *)
Theorem builder_needs_a_statement (text : string) (s : AST) (h : heap) :
  currentStatement s = None →
  Forall (λ op : string → AST → M AST, op text s h = Panic nil_dereference)
    [AST_AddEntity; AST_AddParamKey; AST_AddParamValue;
     AST_AddParamRefValue; AST_AddParamAliasValue; AST_AddParamHoleValue;
     AST_AddVarValue; AST_AddVarHoleValue].
Proof.
  intros Hcur.
  pose proof (AST_currentExpression_None s h Hcur) as He.
  pose proof (AST_currentVarDecl_None s h Hcur) as Hv.
  repeat constructor.
  - unfold AST_AddEntity. by rewrite (bind_Ok _ _ _ _ _ He).
  - unfold AST_AddParamKey. by rewrite (bind_Ok _ _ _ _ _ He).
  - unfold AST_AddParamValue. by rewrite (bind_Ok _ _ _ _ _ He).
  - unfold AST_AddParamRefValue. by rewrite (bind_Ok _ _ _ _ _ He).
  - unfold AST_AddParamAliasValue. by rewrite (bind_Ok _ _ _ _ _ He).
  - unfold AST_AddParamHoleValue. by rewrite (bind_Ok _ _ _ _ _ He).
  - unfold AST_AddVarValue. by rewrite (bind_Ok _ _ _ _ _ Hv).
  - unfold AST_AddVarHoleValue. by rewrite (bind_Ok _ _ _ _ _ Hv).
Qed.

Lemma builder_needs_a_statement_witness :
  Forall (λ op : string → AST → M AST,
            op "vpc" two_statements_AST two_statements =
              Panic nil_dereference)
    [AST_AddEntity; AST_AddParamKey; AST_AddParamValue;
     AST_AddParamRefValue; AST_AddParamAliasValue; AST_AddParamHoleValue;
     AST_AddVarValue; AST_AddVarHoleValue].
Proof.
  exact (builder_needs_a_statement "vpc" two_statements_AST two_statements
           eq_refl).
Defined.

(** A new expression has no maps: the expression [AddAction] starts has nil
    Params, Refs, Aliases and Holes, so a value stored before the first
    [AddParamKey] panics with [assignment to entry in nil map]. *)
Theorem value_before_key_panics (action text : string) (s : AST)
    (h : heap) :
  currentStatement s = None →
  Forall (λ op, (AST_AddAction action s ≫= op text) h =
                  Panic nil_map_assignment) text_value_ops.
Proof.
  intros Hcur.
  destruct (AST_AddAction_new action s h Hcur)
    as (n & stat & Hn & Hstat & Hne & E).
  set (s' := {| Statements := Statements s ++ [Some stat];
                currentStatement := Some stat;
                currentKey := currentKey s |}) in *.
  set (e := {| Action := action; Entity := ""; Refs := None; Params := None;
               Aliases := None; Holes := None |}) in *.
  set (h' := <[stat := _]> (<[n := OExpression e]> h)) in *.
  assert (h' !! n = Some (OExpression e)) as Hl
    by (subst h'; by rewrite lookup_insert_ne, lookup_insert_eq).
  assert (AST_currentExpression s' h' = Ok (Some n) h') as He.
  { apply AST_currentExpression_Some. eexists _, n.
    split; [subst h'; simpl; by rewrite lookup_insert_eq|].
    split; [done|]. left. eauto. }
  pose proof (load_Expression_Some _ _ _ Hl) as Hload.
  unfold text_value_ops. repeat constructor; rewrite (bind_Ok _ _ _ _ _ E).
  - unfold AST_AddParamValue.
    by rewrite (bind_Ok _ _ _ _ _ He), (bind_Ok _ _ _ _ _ Hload).
  - unfold AST_AddParamRefValue.
    by rewrite (bind_Ok _ _ _ _ _ He), (bind_Ok _ _ _ _ _ Hload).
  - unfold AST_AddParamAliasValue.
    by rewrite (bind_Ok _ _ _ _ _ He), (bind_Ok _ _ _ _ _ Hload).
  - unfold AST_AddParamHoleValue.
    by rewrite (bind_Ok _ _ _ _ _ He), (bind_Ok _ _ _ _ _ Hload).
Qed.

Lemma value_before_key_panics_witness :
  Forall (λ op, (AST_AddAction "create" emptyAST ≫= op "10.0.0.0") ∅ =
                  Panic nil_map_assignment) text_value_ops.
Proof.
  exact (value_before_key_panics "create" "10.0.0.0"
           emptyAST ∅ eq_refl).
Defined.

(** ** A key and its value *)

Lemma AST_AddParamKey_spec (text : string) (s : AST) (h : heap) l e v :
  builds h (currentStatement s) l →
  h !! l = Some (OExpression e) →
  Expression_view h (Some l) = Some v →
  ∃ h1 e1 lp,
    AST_AddParamKey text s h =
      Ok {| Statements := Statements s;
            currentStatement := currentStatement s;
            currentKey := text |} h1 ∧
    h1 !! l = Some (OExpression e1) ∧ Params e1 = Some lp ∧
    builds h1 (currentStatement s) l ∧
    Expression_view h1 (Some l) =
      Some (match Params e with Some _ => v | None => cleared v end).
Proof.
  intros Hb Hl Hv. unfold AST_AddParamKey.
  rewrite (bind_Ok _ _ _ _ _ (proj2 (AST_currentExpression_Some _ _ _) Hb)).
  rewrite (bind_Ok _ _ _ _ _ (load_Expression_Some _ _ _ Hl)).
  destruct (Params e) as [lp|] eqn:HP.
  { rewrite ret_bind. exists h, e, lp. by split_and!. }
  destruct (alloc_fresh (OStrMap ∅) h) as (refs & Hrefs & E1).
  rewrite bind_assoc, (bind_Ok _ _ _ _ _ E1).
  destruct (alloc_fresh (OIfaceMap ∅) (<[refs:=OStrMap ∅]> h))
    as (params & Hparams & E2).
  rewrite bind_assoc, (bind_Ok _ _ _ _ _ E2).
  destruct (alloc_fresh (OStrMap ∅)
    (<[params:=OIfaceMap ∅]> (<[refs:=OStrMap ∅]> h)))
    as (aliases & Haliases & E3).
  rewrite bind_assoc, (bind_Ok _ _ _ _ _ E3).
  destruct (alloc_fresh (OStrMap ∅)
    (<[aliases:=OStrMap ∅]> (<[params:=OIfaceMap ∅]> (<[refs:=OStrMap ∅]> h))))
    as (holes & Hholes & E4).
  rewrite bind_assoc, (bind_Ok _ _ _ _ _ E4).
  repeat match goal with
  | Hf : <[_ := _]> _ !! _ = None |- _ =>
      apply lookup_insert_None in Hf as [Hf ?]
  end.
  set (e' := {| Action := Action e; Entity := Entity e; Refs := Some refs;
                Params := Some params; Aliases := Some aliases;
                Holes := Some holes |}).
  assert (l ≠ refs ∧ l ≠ params ∧ l ≠ aliases ∧ l ≠ holes) as (? & ? & ? & ?)
    by (split_and!; intros ->; congruence).
  rewrite (bind_Ok _ _ _ _ _ (store_Some l (OExpression e')
    (<[holes:=OStrMap ∅]> (<[aliases:=OStrMap ∅]>
       (<[params:=OIfaceMap ∅]> (<[refs:=OStrMap ∅]> h)))))).
  eexists _, e', params. split; [reflexivity|].
  split; [by rewrite lookup_insert_eq|]. split; [done|].
  split.
  - eapply builds_stable; [exact Hb|exact Hv| |].
    + eapply unchanged_outside_trans;
        [|apply unchanged_outside_store; eapply in_Expression_locs; eauto].
      repeat (eapply unchanged_outside_trans;
        [|apply unchanged_outside_alloc; by simplify_map_eq]).
      apply unchanged_outside_refl.
    + eexists. by rewrite lookup_insert_eq.
  - apply Expression_view_Some. exists l, e'.
    split; [done|]. split; [by simplify_map_eq|].
    pose proof Hv as (l' & e0 & [= <-] & Hl' & _ & _ & _ & _ & _ & HA & HE)%Expression_view_Some.
    rewrite Hl in Hl'. injection Hl' as <-.
    split_and!; simpl; try done; by simplify_map_eq.
Qed.

(** [AddParamKey key] and then [AddParamValue text] put [key = text] into
    Params, over a value the key had there, and leave the key as the
    current one.  The other entries of the expression stay, unless Params
    was nil: the first key of an expression makes all four maps anew, so
    that entries a nil-Params expression had in Refs, Aliases or Holes are
    gone. *)
Theorem key_then_value (key text : string) (s : AST) (h : heap) l e v :
  builds h (currentStatement s) l →
  h !! l = Some (OExpression e) →
  Expression_view h (Some l) = Some v →
  ∃ h2,
    (AST_AddParamKey key s ≫= AST_AddParamValue text) h =
      Ok {| Statements := Statements s;
            currentStatement := currentStatement s;
            currentKey := key |} h2 ∧
    Expression_view h2 (Some l) =
      Some (match Params e with
            | Some _ =>
                with_Params v (<[key := VString text]> (vParams v))
            | None =>
                with_Params (cleared v) {[key := VString text]}
            end).
Proof.
  intros Hb Hl Hv.
  destruct (AST_AddParamKey_spec key s h l e v Hb Hl Hv)
    as (h1 & e1 & lp & E1 & Hl1 & HP1 & Hb1 & Hv1).
  rewrite (bind_Ok _ _ _ _ _ E1).
  set (s1 := {| Statements := Statements s;
                currentStatement := currentStatement s;
                currentKey := key |}) in *.
  unfold AST_AddParamValue.
  rewrite (bind_Ok _ _ _ _ _
    (proj2 (AST_currentExpression_Some s1 h1 l) Hb1)).
  rewrite (bind_Ok _ _ _ _ _ (load_Expression_Some _ _ _ Hl1)).
  destruct (view_field_maps _ _ _ _ Hl1 Hv1) as (_ & Hp & _).
  rewrite HP1 in Hp |- *. apply IfaceMap_at_Some in Hp.
  pose proof (assign_IfaceMap_Some _ _ _ key (VString text) Hp) as Hassign.
  pose proof (bind_Ok _ (λ _, mret s1) _ _ _ Hassign) as Hrun.
  rewrite <- HP1 in Hrun.
  destruct (assign_Params_view s1 h1 l e1 _ _ _ _ _ Hb1 Hl1 Hv1 Hrun)
    as (_ & _ & Hv2).
  rewrite (bind_Ok _ _ _ _ _ Hassign).
  eexists. split; [reflexivity|]. rewrite Hv2.
  destruct (Params e); [done|].
  cbn [cleared vParams]. by rewrite insert_empty.
Qed.

Lemma key_then_value_witness :
  ∃ h2,
    (AST_AddParamKey "a" two_statements_building ≫= AST_AddParamValue "2")
      two_statements =
      Ok {| Statements := Statements two_statements_building;
            currentStatement := currentStatement two_statements_building;
            currentKey := "a" |} h2 ∧
    Expression_view h2 (Some 9%positive) =
      Some (with_Params two_statements_expr
              (<["a" := VString "2"]> (vParams two_statements_expr))).
Proof.
  apply (key_then_value "a" "2" two_statements_building two_statements
           9%positive
           {| Action := "create"; Entity := "vpc"; Refs := Some 5%positive;
              Params := Some 6%positive; Aliases := Some 7%positive;
              Holes := Some 8%positive |} two_statements_expr);
    [|by vm_compute|by vm_compute].
  eexists _, _. split; [by vm_compute|]. split; [reflexivity|].
  left. split; [done|]. eexists. by vm_compute.
Defined.

(** ** Empty and non-empty matches *)

Lemma Script_consuming buffer : Consuming buffer (rules_Script buffer).
Proof. unfold rules_Script. apply _. Qed.

(** Spacing and WhiteSpacing match everywhere (the empty text if need be);
    every other rule function matches non-empty text only: on a match the
    position has moved forward by at least one rune, and it started inside
    the buffer. *)
Theorem matched_text_is_not_empty (buffer : list rune) (rule : pegRule)
    (f : F) (s : pstate) :
  rules buffer rule = Some f →
  match rule with
  | ruleSpacing | ruleWhiteSpacing => ∀ s', f s ≠ (Failed, s')
  | _ => ∀ s', f s = (Matched, s') →
           (position s < position s')%nat ∧ (position s < length buffer)%nat
  end.
Proof.
  intros Hf.
  destruct rule; simpl in Hf; try done; injection Hf as <-;
    first [ apply (unfailing (a := _))
          | apply (consuming (a := _))
          | apply (@consuming _ _ (Script_consuming buffer)) ].
Qed.

Lemma matched_text_is_not_empty_witness :
  (∀ s', rules_Identifier (Peg_buffer "a=1") Peg_Init = (Matched, s') →
     (position Peg_Init < position s')%nat ∧
     (position Peg_Init < length (Peg_buffer "a=1"))%nat) ∧
  (∀ s', rules_Spacing (Peg_buffer "a=1") Peg_Init ≠ (Failed, s')).
Proof.
  split.
  - exact (matched_text_is_not_empty (Peg_buffer "a=1") ruleIdentifier
             _ Peg_Init eq_refl).
  - exact (matched_text_is_not_empty (Peg_buffer "a=1") ruleSpacing
             _ Peg_Init eq_refl).
Defined.

(** ** Rendering an AST *)

Lemma Node_String_view `{GoEnv} (h : heap) n nv :
  GoEnvOk _ →
  Node_view h n = Some nv → Node_String n h = Ok (render_node nv) h.
Proof.
  intros Hok Hnv. destruct n as [l|]; [|done].
  cbn [Node_view] in Hnv. unfold Node_String.
  destruct (h !! l) as [o|] eqn:Hl; [|done].
  rewrite (bind_Ok _ _ _ _ _ (load_Some _ _ _ Hl)).
  destruct o as [| | i | vn | d | e | ]; try done.
  - injection Hnv as <-. unfold IdentifierNode_String, load_Identifier.
    by rewrite bind_assoc, (bind_Ok _ _ _ _ _ (load_Some _ _ _ Hl)).
  - destruct (Var_view h (Some l)) as [v|] eqn:Hv; simpl in Hnv; [|done].
    injection Hnv as <-.
    apply Var_view_Some in Hv
      as (l' & vn' & i & [= <-] & Hl' & Hi & _ & Hid & Hval).
    rewrite Hl in Hl'. injection Hl' as <-.
    unfold VarNode_String.
    rewrite (bind_Ok _ _ _ _ _ (load_Var_view _ _ _ Hl)).
    rewrite (bind_Ok _ _ _ _ _ (load_Identifier_at _ _ _ Hi)).
    simpl. by rewrite Hid, Hval.
  - destruct (Identifier_at h (Left d)) as [left|] eqn:Hleft;
      simpl in Hnv; [|done].
    destruct (Expression_view h (Right d)) as [v|] eqn:Hv;
      simpl in Hnv; [|done].
    injection Hnv as <-. unfold DeclarationNode_String, load_Declaration.
    rewrite bind_assoc, (bind_Ok _ _ _ _ _ (load_Some _ _ _ Hl)).
    rewrite ret_bind. unfold IdentifierNode_String.
    rewrite bind_assoc, (bind_Ok _ _ _ _ _ (load_Identifier_at _ _ _ Hleft)).
    rewrite ret_bind.
    by rewrite (bind_Ok _ _ _ _ _ (ExpressionNode_String_spec _ _ _ Hok Hv)).
  - destruct (Expression_view h (Some l)) as [v|] eqn:Hv;
      simpl in Hnv; [|done].
    injection Hnv as <-. by apply ExpressionNode_String_spec.
Qed.

Lemma render_clone_view nv : render_node (clone_view nv) = render_node nv.
Proof. by destruct nv. Qed.

Lemma AST_String_loop `{GoEnv} (h : heap) stats nvs :
  GoEnvOk _ →
  Forall2 (holds_node h) stats nvs →
  ∀ all,
    foldM (λ all stat,
             st ← load_Statement stat;
             str ← Node_String (Node st);
             mret (all ++ [str])) all stats h =
      Ok (all ++ (render_node <$> nvs)) h.
Proof.
  intros Hok Hall. induction Hall as [|s nv stats nvs (st & Hst & Hnv) _ IH];
    intros all; cbn [foldM fmap list_fmap].
  { by rewrite app_nil_r. }
  rewrite bind_assoc, (bind_Ok _ _ _ _ _ (load_Statement_at _ _ _ Hst)).
  rewrite bind_assoc, (bind_Ok _ _ _ _ _ (Node_String_view _ _ _ Hok Hnv)).
  rewrite ret_bind, IH. by rewrite <- app_assoc.
Qed.

(** [AST.String] is the strings of the statements' nodes, one per line: an
    identifier renders as its name, a Var node as [var name = value] (its
    Hole map is not rendered), a declaration as [name = expression] and an
    expression as action, entity and sorted parameters. *)
Theorem AST_String_renders_each_statement `{GoEnv} (a : AST) (h : heap)
    (nvs : list NodeView) :
  GoEnvOk _ →
  Forall2 (holds_node h) (Statements a) nvs →
  AST_String a h =
    Ok (strings_Join (render_node <$> nvs) (String "010" "")) h.
Proof.
  intros Hok Hall. unfold AST_String.
  by rewrite (bind_Ok _ _ _ _ _ (AST_String_loop _ _ _ Hok Hall [])).
Qed.

Lemma AST_String_renders_each_statement_witness :
  @AST_String canonicalEnv two_statements_AST two_statements =
    Ok (strings_Join
          (render_node <$> [VarV two_statements_var;
                            ExpressionV two_statements_expr])
          (String "010" "")) two_statements.
Proof.
  apply (@AST_String_renders_each_statement canonicalEnv _ _ _
           canonicalEnv_ok).
  repeat constructor; eexists; split; by vm_compute.
Defined.

Lemma cloned_holds_node (h h' : heap) s c :
  cloned h h' s c →
  ∃ nv, holds_node h s nv ∧ holds_node h' c (clone_view nv).
Proof.
  intros (st & nv & st' & Hst & Hnv & _ & Hst' & Hnv' & _).
  exists nv. split; by eexists.
Qed.

Lemma Forall2_cloned_holds_node (h h' : heap) stats stats' :
  Forall2 (cloned h h') stats stats' →
  ∃ nvs, Forall2 (holds_node h) stats nvs ∧
         Forall2 (holds_node h') stats' (clone_view <$> nvs).
Proof.
  induction 1 as [|s c stats stats' Hc _ (nvs & IH1 & IH2)].
  { exists []. split; constructor. }
  destruct (cloned_holds_node _ _ _ _ Hc) as (nv & H1 & H2).
  exists (nv :: nvs). split; by constructor.
Qed.

(** The clone of an AST renders as its source does: [Clone] keeps what
    [String] shows of every node (the Hole map of a Var node, which the
    clone loses, is not rendered). *)
Theorem Clone_renders_the_same `{GoEnv} (a : AST) (h : heap) :
  GoEnvOk _ →
  Forall (λ s, ∃ nv, holds_node h s nv) (Statements a) →
  ∃ a' h' str,
    AST_Clone a h = Ok a' h' ∧
    AST_String a h = Ok str h ∧
    AST_String a' h' = Ok str h'.
Proof.
  intros Hok Hl.
  assert (Forall (λ s, ∃ st nv, Statement_at h s = Some st ∧
            Node_view h (Node st) = Some nv) (Statements a)) as Hl'.
  { eapply Forall_impl; [exact Hl|]. intros s (nv & st & ? & ?). eauto. }
  destruct (AST_Clone_spec a h Hok Hl') as (a' & h' & E & _ & Hall & _).
  destruct (Forall2_cloned_holds_node _ _ _ _ Hall) as (nvs & H1 & H2).
  exists a', h', (strings_Join (render_node <$> nvs) (String "010" "")).
  split; [done|]. split.
  - unfold AST_String.
    by rewrite (bind_Ok _ _ _ _ _ (AST_String_loop _ _ _ Hok H1 [])).
  - unfold AST_String.
    rewrite (bind_Ok _ _ _ _ _ (AST_String_loop _ _ _ Hok H2 [])).
    rewrite <- list_fmap_compose.
    do 2 f_equal. apply list_fmap_ext. intros _ nv _. simpl.
    apply render_clone_view.
Qed.

Lemma Clone_renders_the_same_witness :
  ∃ a' h' str,
    @AST_Clone canonicalEnv two_statements_AST two_statements = Ok a' h' ∧
    @AST_String canonicalEnv two_statements_AST two_statements =
      Ok str two_statements ∧
    @AST_String canonicalEnv a' h' = Ok str h'.
Proof.
  apply (@Clone_renders_the_same canonicalEnv _ _ canonicalEnv_ok).
  repeat constructor; eexists _, _; split; by vm_compute.
Defined.

(** ** Building a declaration *)

Lemma AST_AddAction_current (text : string) (s : AST) (h : heap) l e :
  builds h (currentStatement s) l →
  h !! l = Some (OExpression e) →
  AST_AddAction text s h =
    Ok s (<[l := OExpression
             {| Action := text; Entity := Entity e; Refs := Refs e;
                Params := Params e; Aliases := Aliases e;
                Holes := Holes e |}]> h).
Proof.
  intros Hb Hl. unfold AST_AddAction.
  rewrite (bind_Ok _ _ _ _ _ (proj2 (AST_currentExpression_Some _ _ _) Hb)).
  rewrite (bind_Ok _ _ _ _ _ (load_Expression_Some _ _ _ Hl)).
  by rewrite (bind_Ok _ _ _ _ _ (store_Some _ _ _)).
Qed.

Lemma AST_AddEntity_current (text : string) (s : AST) (h : heap) l e :
  builds h (currentStatement s) l →
  h !! l = Some (OExpression e) →
  AST_AddEntity text s h =
    Ok s (<[l := OExpression
             {| Action := Action e; Entity := text; Refs := Refs e;
                Params := Params e; Aliases := Aliases e;
                Holes := Holes e |}]> h).
Proof.
  intros Hb Hl. unfold AST_AddEntity.
  rewrite (bind_Ok _ _ _ _ _ (proj2 (AST_currentExpression_Some _ _ _) Hb)).
  rewrite (bind_Ok _ _ _ _ _ (load_Expression_Some _ _ _ Hl)).
  by rewrite (bind_Ok _ _ _ _ _ (store_Some _ _ _)).
Qed.

Lemma AST_AddDeclarationIdentifier_spec (text : string) (s : AST) (h : heap) :
  ∃ left right decl stat h',
    AST_AddDeclarationIdentifier text s h =
      Ok {| Statements := Statements s ++ [Some stat];
            currentStatement := Some stat;
            currentKey := currentKey s |} h' ∧
    h ⊆ h' ∧ h !! stat = None ∧ h !! right = None ∧
    h' !! left = Some (OIdentifier {| Ident := text; Val := VNil |}) ∧
    h' !! right = Some (OExpression emptyExpression) ∧
    h' !! decl =
      Some (ODeclaration {| Left := Some left; Right := Some right |}) ∧
    h' !! stat = Some (OStatement
      {| Node := Some decl; Result := VNil; Line := ""; Err := None |}).
Proof.
  unfold AST_AddDeclarationIdentifier, AST_addStatement.
  destruct (alloc_fresh (OIdentifier {| Ident := text; Val := VNil |}) h)
    as (left & Hleft & E1). mstep E1.
  destruct (alloc_fresh (OExpression emptyExpression)
    (<[left:=OIdentifier {| Ident := text; Val := VNil |}]> h))
    as (right & Hright & E2). mstep E2.
  destruct (alloc_fresh
    (ODeclaration {| Left := Some left; Right := Some right |})
    (<[right:=OExpression emptyExpression]>
       (<[left:=OIdentifier {| Ident := text; Val := VNil |}]> h)))
    as (decl & Hdecl & E3). mstep E3.
  destruct (alloc_fresh (OStatement
    {| Node := Some decl; Result := VNil; Line := ""; Err := None |})
    (<[decl:=ODeclaration {| Left := Some left; Right := Some right |}]>
      (<[right:=OExpression emptyExpression]>
         (<[left:=OIdentifier {| Ident := text; Val := VNil |}]> h))))
    as (stat & Hstat & E4). mstep E4.
  repeat match goal with
  | Hf : <[_ := _]> _ !! _ = None |- _ =>
      apply lookup_insert_None in Hf as [Hf ?]
  end.
  eexists left, right, decl, stat, _. split; [reflexivity|].
  split; [heap_extends|]. split_and!; by simplify_map_eq.
Qed.

(** [AddDeclarationIdentifier], [AddAction] and [AddEntity] (what the
    parser runs for [name = action entity]) always append one statement and
    make it current, whatever statement was current before: a declaration
    of the identifier, unbound, with an expression of that action and
    entity and no parameters.  The objects of the heap stay as they
    were. *)
Theorem declaration_builder (name action entity : string) (s : AST)
    (h : heap) :
  ∃ stat st h',
    (s1 ← AST_AddDeclarationIdentifier name s;
     s2 ← AST_AddAction action s1;
     AST_AddEntity entity s2) h =
      Ok {| Statements := Statements s ++ [Some stat];
            currentStatement := Some stat;
            currentKey := currentKey s |} h' ∧
    h ⊆ h' ∧ h !! stat = None ∧
    Statement_at h' (Some stat) = Some st ∧
    Result st = VNil ∧ Line st = "" ∧ Err st = None ∧
    Node_view h' (Node st) =
      Some (DeclarationV {| Ident := name; Val := VNil |}
              {| vAction := action; vEntity := entity; vRefs := ∅;
                 vParams := ∅; vAliases := ∅; vHoles := ∅ |}).
Proof.
  destruct (AST_AddDeclarationIdentifier_spec name s h)
    as (left & right & decl & stat & h1 & E1 & Hsub & Hstat0 & Hright0
        & Hleft & Hright & Hdecl & Hstat).
  set (s1 := {| Statements := Statements s ++ [Some stat];
                currentStatement := Some stat;
                currentKey := currentKey s |}) in *.
  assert (right ≠ left ∧ right ≠ decl ∧ right ≠ stat) as (? & ? & ?)
    by (split_and!; intros ->; congruence).
  assert (builds h1 (currentStatement s1) right) as Hb1.
  { eexists _, decl. split; [simpl; by rewrite Hstat|]. split; [done|].
    right. eauto. }
  pose proof (AST_AddAction_current action s1 h1 right _ Hb1 Hright) as E2.
  cbn [emptyExpression Entity Refs Params Aliases Holes] in E2.
  set (h2 := <[right := _]> h1) in E2.
  assert (builds h2 (currentStatement s1) right) as Hb2.
  { eexists _, decl. subst h2.
    split; [simpl; by rewrite lookup_insert_ne, Hstat|]. split; [done|].
    right. eexists. by rewrite lookup_insert_ne. }
  assert (h2 !! right = Some (OExpression
    {| Action := action; Entity := ""; Refs := None; Params := None;
       Aliases := None; Holes := None |})) as Hright2
    by (subst h2; by rewrite lookup_insert_eq).
  pose proof (AST_AddEntity_current entity s1 h2 right _ Hb2 Hright2) as E3.
  cbn [Action Refs Params Aliases Holes] in E3.
  set (h3 := <[right := _]> h2) in E3.
  eexists stat, _, h3.
  rewrite (bind_Ok _ _ _ _ _ E1), (bind_Ok _ _ _ _ _ E2).
  split; [exact E3|].
  split.
  { apply map_subseteq_spec. intros l x Hx.
    assert (l ≠ right) by (intros ->; congruence).
    subst h3 h2. rewrite !lookup_insert_ne by done.
    by eapply lookup_weaken. }
  split; [done|].
  split; [subst h3 h2; simpl; by rewrite !lookup_insert_ne, Hstat|].
  split_and!; try done.
  cbn [Node Node_view]. subst h3 h2.
  rewrite !(lookup_insert_ne _ right decl), Hdecl by done.
  cbn [Left Right Identifier_at Expression_view].
  rewrite !(lookup_insert_ne _ right left), Hleft by done.
  by rewrite lookup_insert_eq.
Qed.

(** ** Building a variable *)

Lemma set_Var_Val_spec (h : heap) vnode i hole name val0 val m :
  h !! vnode = Some (OVar {| VarI := Some i; Hole := Some hole |}) →
  h !! i = Some (OIdentifier {| Ident := name; Val := val0 |}) →
  h !! hole = Some (OStrMap m) →
  set_Var_Val (Some vnode) val h =
    Ok () (<[i := OIdentifier {| Ident := name; Val := val |}]> h) ∧
  Var_view (<[i := OIdentifier {| Ident := name; Val := val |}]> h)
    (Some vnode) = Some {| vIdent := name; vVal := val; vHole := m |}.
Proof.
  intros Hvnode Hi Hhole.
  assert (i ≠ vnode ∧ i ≠ hole) as (? & ?)
    by (split; intros ->; congruence).
  split.
  - unfold set_Var_Val.
    rewrite (bind_Ok _ _ _ _ _ (load_Var_view _ _ _ Hvnode)).
    unfold load_Identifier.
    by rewrite bind_assoc, (bind_Ok _ _ _ _ _ (load_Some _ _ _ Hi)).
  - apply Var_view_Some. eexists vnode, _, _. split; [done|].
    split; [by rewrite lookup_insert_ne|].
    split; [simpl; by rewrite lookup_insert_eq|].
    split; [simpl; by rewrite lookup_insert_ne, Hhole|]. done.
Qed.

(** [AddVarIdentifier] and then a value (what the parser runs for
    [var name = value]) append a Var statement whose identifier is bound to
    the value and whose Hole map is empty: to the text itself for
    [AddVarValue]; for [AddVarIntValue], [AddVarIpValue] and
    [AddVarCidrValue] to what the library converts the text to, and when
    the library refuses the text the operation panics with
    [cannot convert]. *)
Theorem variable_builder `{GoEnv} (name text : string) (s : AST) (h : heap) :
  ∃ stat vnode s1 h1,
    AST_AddVarIdentifier name s h = Ok s1 h1 ∧
    s1 = {| Statements := Statements s ++ [Some stat];
            currentStatement := Some stat; currentKey := currentKey s |} ∧
    h ⊆ h1 ∧
    Statement_at h1 (Some stat) =
      Some {| Node := Some vnode; Result := VNil; Line := ""; Err := None |} ∧
    (∃ h2, AST_AddVarValue text s1 h1 = Ok s1 h2 ∧
       Var_view h2 (Some vnode) =
         Some {| vIdent := name; vVal := VString text; vHole := ∅ |}) ∧
    match strconv_Atoi text with
    | Some num =>
        ∃ h2, AST_AddVarIntValue text s1 h1 = Ok s1 h2 ∧
          Var_view h2 (Some vnode) =
            Some {| vIdent := name; vVal := VInt num; vHole := ∅ |}
    | None =>
        AST_AddVarIntValue text s1 h1 =
          Panic ("cannot convert '" +:+ text +:+ "' to int")
    end ∧
    match net_ParseIP text with
    | Some ip =>
        ∃ h2, AST_AddVarIpValue text s1 h1 = Ok s1 h2 ∧
          Var_view h2 (Some vnode) =
            Some {| vIdent := name; vVal := VString ip; vHole := ∅ |}
    | None =>
        AST_AddVarIpValue text s1 h1 =
          Panic ("cannot convert '" +:+ text +:+ "' to net ip")
    end ∧
    match net_ParseCIDR text with
    | Some cidr =>
        ∃ h2, AST_AddVarCidrValue text s1 h1 = Ok s1 h2 ∧
          Var_view h2 (Some vnode) =
            Some {| vIdent := name; vVal := VString cidr; vHole := ∅ |}
    | None =>
        AST_AddVarCidrValue text s1 h1 =
          Panic ("cannot convert '" +:+ text +:+ "' to net cidr")
    end.
Proof.
  destruct (AST_AddVarIdentifier_spec name s h)
    as (i & hole & vnode & stat & h1 & E1 & Hsub & Hi & Hhole & Hvnode
        & Hstat).
  eexists stat, vnode, _, h1. split; [exact E1|]. split; [reflexivity|].
  split; [done|]. split; [simpl; by rewrite Hstat|].
  set (s1 := {| Statements := Statements s ++ [Some stat];
                currentStatement := Some stat;
                currentKey := currentKey s |}).
  pose proof (AST_currentVarDecl_Var s1 h1 stat _ vnode _
                eq_refl Hstat eq_refl Hvnode) as Hcur.
  assert (∀ val, ∃ h2,
    (set_Var_Val (Some vnode) val;; mret s1) h1 = Ok s1 h2 ∧
    Var_view h2 (Some vnode) =
      Some {| vIdent := name; vVal := val; vHole := ∅ |}) as Hset.
  { intros val.
    destruct (set_Var_Val_spec h1 vnode i hole name VNil val ∅
                Hvnode Hi Hhole) as [E Hv].
    eexists. split; [|exact Hv]. by rewrite (bind_Ok _ _ _ _ _ E). }
  split_and!.
  - unfold AST_AddVarValue. rewrite (bind_Ok _ _ _ _ _ Hcur). apply Hset.
  - unfold AST_AddVarIntValue, parseInt. rewrite (bind_Ok _ _ _ _ _ Hcur).
    destruct (strconv_Atoi text) as [num|]; [|done].
    rewrite ret_bind. apply Hset.
  - unfold AST_AddVarIpValue, parseIP. rewrite (bind_Ok _ _ _ _ _ Hcur).
    destruct (net_ParseIP text) as [ip|]; [|done].
    rewrite ret_bind. apply Hset.
  - unfold AST_AddVarCidrValue, parseCIDR. rewrite (bind_Ok _ _ _ _ _ Hcur).
    destruct (net_ParseCIDR text) as [cidr|]; [|done].
    rewrite ret_bind. apply Hset.
Qed.

(** ** Parameters in key order *)

Lemma range_keys `{GoEnv} {V} (m : gmap string V) :
  GoEnvOk _ →
  sort_Strings ((map_range V m).*1) = sort_Strings ((map_to_list m).*1).
Proof. intros Hok. apply sort_Strings_proper. by rewrite (Hok _ m). Qed.

Lemma sortAndMap_keys `{GoEnv} (m : gmap string value) fn :
  GoEnvOk _ →
  sortAndMap m fn =
    (λ k, fn k (default VNil (m !! k))) <$> sort_Strings ((map_to_list m).*1).
Proof.
  intros Hok. unfold sortAndMap.
  rewrite (foldl_snoc (λ kv : string * value, kv.1)), app_nil_l.
  rewrite foldl_snoc, app_nil_l. by rewrite range_keys.
Qed.

Lemma range_to_VString `{GoEnv} (m : gmap string string) :
  GoEnvOk _ →
  foldl (λ newM kv, <[kv.1 := VString kv.2]> newM) ∅ (map_range _ m)
    = VString <$> m.
Proof.
  intros Hok.
  transitivity (insert_all (∅ : gmap string value)
    (prod_map id VString <$> map_range _ m)).
  - unfold insert_all. generalize (∅ : gmap string value).
    induction (map_range string m) as [|[k x] l IH]; intros acc; [done|].
    simpl. apply IH.
  - assert (NoDup (prod_map id VString <$> map_range string m).*1) as Hnodup.
    { rewrite <- list_fmap_compose. rewrite (Hok _ m).
      assert (fst ∘ prod_map id VString <$> map_to_list m
              = (map_to_list m).*1) as -> by by apply list_fmap_ext.
      apply NoDup_fst_map_to_list. }
    rewrite insert_all_NoDup by done.
    rewrite (right_id_L ∅ (∪)).
    rewrite (list_to_map_proper _ (map_to_list (VString <$> m))).
    + apply list_to_map_to_list.
    + done.
    + rewrite (Hok _ m). by rewrite map_to_list_fmap.
Qed.

(** [sortAndMap] returns one string per entry of the map, [fn] of the key
    and its value, in ascending order of the keys, in whatever order [range]
    walks the map; [sortAndMapString] does the same for a map of strings. *)
Theorem sortAndMap_in_key_order `{GoEnv} (m : gmap string value)
    (ms : gmap string string) fn fns :
  GoEnvOk _ →
  sortAndMap m fn =
    (λ k, fn k (default VNil (m !! k))) <$> sort_Strings ((map_to_list m).*1) ∧
  sortAndMapString ms fns =
    (λ k, fns k (default "" (ms !! k))) <$> sort_Strings ((map_to_list ms).*1) ∧
  Sorted string_le (sort_Strings ((map_to_list m).*1)) ∧
  sort_Strings ((map_to_list m).*1) ≡ₚ (map_to_list m).*1 ∧
  length (sortAndMap m fn) = size m.
Proof.
  intros Hok. split; [by apply sortAndMap_keys|]. split_and!.
  - unfold sortAndMapString. rewrite range_to_VString by done.
    rewrite sortAndMap_keys by done.
    rewrite (sort_Strings_proper (map_to_list (VString <$> ms)).*1
               (map_to_list ms).*1).
    + apply Forall_fmap_ext, Forall_forall. intros k Hin.
      rewrite sort_Strings_perm in Hin.
      apply list_elem_of_fmap in Hin as ([k' x] & -> & Hin).
      apply elem_of_map_to_list in Hin. simpl.
      by rewrite lookup_fmap, Hin.
    + rewrite map_to_list_fmap, <- list_fmap_compose.
      by assert (fst ∘ prod_map id VString <$> map_to_list ms
                 = (map_to_list ms).*1) as -> by by apply list_fmap_ext.
  - apply sort_Strings_sorted.
  - apply sort_Strings_perm.
  - rewrite sortAndMap_keys by done.
    by rewrite length_fmap, sort_Strings_perm, length_fmap,
      length_map_to_list.
Qed.

Lemma sortAndMap_in_key_order_witness :
  @sortAndMap canonicalEnv {["b" := VInt 2; "a" := VString "x"]}
    (λ k v, k +:+ "=" +:+ format_v v) =
    (λ k, k +:+ "=" +:+ format_v
            (default VNil
               (({["b" := VInt 2; "a" := VString "x"]} : gmap string value)
                  !! k)))
      <$> sort_Strings
            ((map_to_list
                ({["b" := VInt 2; "a" := VString "x"]} : gmap string value)).*1).
Proof.
  exact (proj1 (@sortAndMap_in_key_order canonicalEnv
                  {["b" := VInt 2; "a" := VString "x"]} ∅
                  (λ k v, k +:+ "=" +:+ format_v v) (λ k v, k)
                  canonicalEnv_ok)).
Defined.

(** ** A successful parse *)






(** ** Positions in the text *)

Lemma text_position_snoc text c :
  text_position (text ++ [c]) = count_rune c (text_position text).
Proof. unfold text_position. by rewrite foldl_app. Qed.

Lemma next_position_Some rest i j j' :
  next_position rest i j = Some j' →
  ∃ same q rest', rest = same ++ q :: rest' ∧ Forall (λ p, p = i) same ∧
    q ≠ i ∧ j' = (j + length same)%nat.
Proof.
  revert j. induction rest as [|p rest IH]; intros j; simpl; [done|].
  case_decide as Hne.
  - intros [= <-]. exists [], p, rest. split_and!; simpl; auto with lia.
  - subst p. intros Hnext.
    destruct (IH _ Hnext) as (same & q & rest' & -> & Hsame & Hq & ->).
    exists (i :: same), q, rest'. split_and!; simpl; auto with lia.
Qed.

Lemma next_position_None rest i j :
  next_position rest i j = None → Forall (λ p, p = i) rest.
Proof.
  revert j. induction rest as [|p rest IH]; intros j; simpl; [done|].
  case_decide as Hne; [done|]. eauto.
Qed.

Lemma translate_search_spec (buffer0 : list rune) (ps : list Z) :
  ∀ rest_buffer pre done rest translations,
    buffer0 = pre ++ rest_buffer →
    ps = done ++ rest → rest ≠ [] →
    StronglySorted Z.le rest →
    Forall (λ p, 0 ≤ p < Z.of_nat (length pre))%Z done →
    Forall (λ p, Z.of_nat (length pre) ≤ p)%Z rest →
    (∀ p, translations !! p =
       if decide (p ∈ done)
       then Some (text_position (take (S (Z.to_nat p)) buffer0))
       else None) →
    ∃ translations',
      translate_search ps rest_buffer (length pre) (length done)
        (text_position pre) translations = Some translations' ∧
      ∀ p, translations' !! p =
        if decide (p ∈ ps ∧ (p < Z.of_nat (length buffer0))%Z)
        then Some (text_position (take (S (Z.to_nat p)) buffer0))
        else None.
Proof.
  induction rest_buffer as [|c rest_buffer IH];
    intros pre done rest T Hbuf Hps Hrest Hsorted Hdone Hafter HT.
  { rewrite app_nil_r in Hbuf. subst pre. simpl. exists T. split; [done|].
    intros p. rewrite HT.
    rewrite Forall_forall in Hdone, Hafter.
    destruct (decide (p ∈ done)) as [Hin|Hnin].
    - rewrite decide_True; [done|].
      split; [subst ps; set_solver|]. apply Hdone in Hin. lia.
    - rewrite decide_False; [done|]. intros [Hin Hlt]. subst ps.
      apply elem_of_app in Hin as [?|Hin]; [done|].
      apply Hafter in Hin. lia. }
  destruct rest as [|p rest1]; [done|]. clear Hrest.
  cbn [translate_search].
  assert (ps !! length done = Some p) as ->
    by (subst ps; by rewrite list_lookup_middle).
  rewrite <- text_position_snoc.
  assert (take (S (length pre)) buffer0 = pre ++ [c]) as Htake.
  { subst buffer0. replace (S (length pre)) with (length pre + 1)%nat by lia.
    by rewrite take_app_add. }
  assert (buffer0 = (pre ++ [c]) ++ rest_buffer) as Hbuf'
    by (by rewrite <- app_assoc).
  assert (length (pre ++ [c]) = S (length pre)) as Hlen
    by (rewrite length_app; simpl; lia).
  apply StronglySorted_inv in Hsorted as [Hsorted1 Hle].
  apply Forall_cons in Hafter as [Hp Hafter1].
  case_decide as Hi.
  - (* the position of this rune *)
    set (T1 := <[p := text_position (pre ++ [c])]> T).
    assert (∀ same, Forall (λ q, q = p) same →
      ∀ q, T1 !! q =
        if decide (q ∈ done ++ p :: same)
        then Some (text_position (take (S (Z.to_nat q)) buffer0))
        else None) as HT1.
    { intros same Hsame q. subst T1.
      destruct (decide (q = p)) as [->|Hqp].
      - rewrite lookup_insert_eq, decide_True by set_solver.
        by rewrite <- Hi, Nat2Z.id, Htake.
      - rewrite lookup_insert_ne by done. rewrite HT.
        rewrite Forall_forall in Hsame.
        destruct (decide (q ∈ done)) as [Hin|Hnin].
        + by rewrite decide_True by set_solver.
        + rewrite decide_False; [done|].
          intros [?|[?|Hin]%elem_of_cons]%elem_of_app; try done.
          by apply Hsame in Hin. }
    assert (drop (S (length done)) ps = rest1) as ->.
    { subst ps.
      replace (S (length done)) with (length done + 1)%nat by lia.
      by rewrite drop_app_add. }
    destruct (next_position rest1 (Z.of_nat (length pre)) (S (length done)))
      as [j'|] eqn:Hnext.
    + apply next_position_Some in Hnext
        as (same & q & rest' & -> & Hsame & Hq & ->).
      rewrite Hi in Hsame, Hq.
      assert (S (length done) + length same = length (done ++ p :: same))%nat
        as -> by (rewrite length_app; simpl; lia).
      rewrite <- Hlen.
      apply (IH (pre ++ [c]) (done ++ p :: same) (q :: rest')); try done.
      * subst ps. by rewrite <- app_assoc.
      * by apply StronglySorted_app_1_r in Hsorted1.
      * rewrite Hlen. apply Forall_app. split.
        { eapply Forall_impl; [exact Hdone|]. simpl. lia. }
        apply Forall_cons. split; [lia|].
        eapply Forall_impl; [exact Hsame|]. simpl. lia.
      * rewrite Hlen. apply Forall_app in Hle as [_ Hle].
        apply Forall_app in Hafter1 as [_ Hafter1].
        apply Forall_cons in Hafter1 as [Hq1 _].
        apply StronglySorted_app_1_r, StronglySorted_inv in Hsorted1
          as [_ Hle'].
        apply Forall_cons. split; [lia|].
        eapply Forall_impl; [exact Hle'|]. simpl. lia.
      * by apply HT1.
    + apply next_position_None in Hnext. rewrite Hi in Hnext.
      exists T1. split; [done|]. intros q.
      rewrite (HT1 rest1 Hnext). subst ps.
      destruct (decide (q ∈ done ++ p :: rest1)) as [Hin|Hnin].
      * rewrite decide_True; [done|]. split; [done|].
        rewrite Hbuf', length_app, Hlen.
        rewrite Forall_forall in Hdone, Hnext.
        apply elem_of_app in Hin as [Hin|[->|Hin]%elem_of_cons].
        -- apply Hdone in Hin. lia.
        -- lia.
        -- apply Hnext in Hin. lia.
      * rewrite decide_False; [done|]. by intros [? _].
  - (* a rune before the next position *)
    rewrite <- Hlen.
    apply (IH (pre ++ [c]) done (p :: rest1)); try done.
    + by apply SSorted_cons.
    + rewrite Hlen. eapply Forall_impl; [exact Hdone|]. simpl. lia.
    + rewrite Hlen. apply Forall_cons. split; [lia|].
      eapply Forall_impl; [exact Hle|]. simpl. lia.
Qed.

Lemma text_position_line (text : list rune) :
  line (text_position text) =
    (1 + Z.of_nat (length (filter (λ c, c = 10%Z) text)))%Z.
Proof.
  unfold rune in *.
  induction text as [|c text IH] using rev_ind; [done|].
  rewrite text_position_snoc, filter_app, length_app, filter_cons, filter_nil.
  unfold count_rune. repeat case_decide; simpl; lia.
Qed.

Lemma text_position_symbol text after :
  10%Z ∉ after →
  symbol (text_position (text ++ 10%Z :: after)) = Z.of_nat (length after).
Proof.
  induction after as [|c after IH] using rev_ind; intros Hnl.
  - rewrite text_position_snoc. unfold count_rune. by rewrite decide_True.
  - rewrite app_comm_cons, app_assoc, text_position_snoc, length_app.
    unfold count_rune. rewrite decide_False by set_solver. simpl.
    rewrite IH by set_solver. lia.
Qed.

Lemma text_position_first_line text :
  10%Z ∉ text → symbol (text_position text) = Z.of_nat (length text).
Proof.
  induction text as [|c text IH] using rev_ind; intros Hnl; [done|].
  rewrite text_position_snoc, length_app. unfold count_rune.
  rewrite decide_False by set_solver. simpl. rewrite IH by set_solver. lia.
Qed.

(** [translatePositions] maps every position of the list that is an index
    of the buffer to the line and symbol of the rune there, and no other
    key: lines count from 1 and grow at each newline, the symbol is the
    number of runes since the last newline (0 for the newline itself).  With
    no positions at all the first rune makes it index the empty list, and an
    empty buffer gives the empty map. *)
Theorem translatePositions_spec (buffer : list rune) (positions : list Z) :
  (positions ≠ [] → Forall (λ p, 0 ≤ p)%Z positions →
   ∃ translations,
     translatePositions buffer positions = Some translations ∧
     ∀ p, translations !! p =
       if decide (p ∈ positions ∧ (p < Z.of_nat (length buffer))%Z)
       then Some (text_position (take (S (Z.to_nat p)) buffer))
       else None) ∧
  (buffer ≠ [] → translatePositions buffer [] = None) ∧
  translatePositions [] positions = Some ∅ ∧
  (∀ text, line (text_position text) =
     (1 + Z.of_nat (length (filter (λ c, c = 10%Z) text)))%Z) ∧
  (∀ text after, 10%Z ∉ after →
     symbol (text_position (text ++ 10%Z :: after)) =
       Z.of_nat (length after)) ∧
  (∀ text, 10%Z ∉ text →
     symbol (text_position text) = Z.of_nat (length text)).
Proof.
  split_and!; [|by destruct buffer|done|apply text_position_line
               |apply text_position_symbol|apply text_position_first_line].
  intros Hne Hpos. unfold translatePositions.
  pose proof (merge_sort_Permutation Z.le positions) as Hperm.
  destruct (translate_search_spec buffer (sort_Ints positions)
              buffer [] [] (sort_Ints positions) ∅) as (T & E & HT);
    try done.
  - intros Hnil. unfold sort_Ints in Hnil. rewrite Hnil in Hperm.
    by apply Permutation_nil_l in Hperm.
  - apply StronglySorted_merge_sort; apply _.
  - unfold sort_Ints. rewrite Hperm. simpl.
    eapply Forall_impl; [exact Hpos|]. simpl. lia.
  - exists T. split; [exact E|]. intros p. rewrite HT.
    unfold sort_Ints.
    destruct (decide (p ∈ positions ∧ (p < Z.of_nat (length buffer))%Z))
      as [[Hin Hlt]|Hnot].
    + rewrite decide_True; [done|]. by rewrite Hperm.
    + rewrite decide_False; [done|]. by rewrite Hperm.
Qed.

Lemma translatePositions_spec_witness :
  ∃ translations,
    translatePositions (runes_of_string "ab") [1%Z; 0%Z; 5%Z] =
      Some translations ∧
    ∀ p, translations !! p =
      if decide (p ∈ [1%Z; 0%Z; 5%Z] ∧
                 (p < Z.of_nat (length (runes_of_string "ab")))%Z)
      then Some (text_position
                   (take (S (Z.to_nat p)) (runes_of_string "ab")))
      else None.
Proof.
  apply (proj1 (translatePositions_spec (runes_of_string "ab")
                  [1%Z; 0%Z; 5%Z])); [done|].
  repeat constructor; lia.
Defined.
